(** * ASAP: the raw task queue and the error-isolating scheduler

    A shallow embedding of [src/es/raw.js] (class [Raw]) and of the two
    modules that define class [Asap] on top of it, followed by the
    properties of the queue, of the flush loop and of the recyclable task
    holders.

    Conventions.  A JavaScript array is a [list]; [a[a.length] = x] is
    [a ++ [x]].  The cursor [index] is a [Z].  An object with identity
    (a RawTask holder) is a reference into a heap.  A method that can
    throw returns the state it leaves behind together with a
    [completion]. *)

From Stdlib Require Import ZArith Lia String.
From stdpp Require Import base tactics option list numbers relations.

Set Warnings "-register-all".

(** ** Values shared by both layers *)

(** What a [throw] carries: the two errors the engine raises by itself,
    or a value thrown by client code. *)
Inductive error :=
  | TypeError
  | RangeError
  | Thrown (tag : nat).

(** How a call ends. *)
Inductive completion :=
  | Returned
  | Threw (e : error).

(** A task: a callable that, when called, schedules [spawns] (in order,
    through the scheduling function of the layer it was given) and then
    returns or throws.  [id] names it in the logs. *)
Inductive task :=
  | Task (id : nat) (spawns : list task) (result : completion).

Definition task_id (t : task) : nat := let 'Task i _ _ := t in i.
Definition task_spawns (t : task) : list task := let 'Task _ ts _ := t in ts.
Definition task_result (t : task) : completion := let 'Task _ _ r := t in r.

(** Number of calls a task stands for: itself and everything it schedules. *)
Fixpoint task_size (t : task) : nat :=
  match t with
  | Task _ ts _ => S (list_sum (map task_size ts))
  end.

(** The task and all its descendants return normally. *)
Fixpoint quiet (t : task) : bool :=
  match t with
  | Task _ ts r =>
      match r with Returned => forallb quiet ts | Threw _ => false end
  end.

(** The error of a completion, if it is a throw. *)
Definition thrown (c : completion) : option error :=
  match c with Returned => None | Threw e => Some e end.

(** The methods handed to the host as callbacks. *)
Inductive callback := cb_flush | cb_throwFirstError.

(** The closure [requestCall] returned by one of the two factories
    [makeRequestCallFromMutationObserver] and [makeRequestCallFromTimer]. *)
Inductive requestCall :=
  | requestCall_observer (cb : callback)
  | requestCall_timer (cb : callback).

(** What the program asks of the host. *)
Inductive host_event :=
  | SetTimeout (handler : callback) (delay : Z)
  | SetInterval (handler : callback) (delay : Z)
  | SetNodeData (observer : callback) (data : Z).

(** The value of a global as far as the constructor looks at it: falsy
    ([undefined], [null], ...), a function, or another truthy value. *)
Inductive global_value :=
  | gv_falsy
  | gv_function
  | gv_other.

Definition truthy (v : global_value) : bool :=
  match v with gv_falsy => false | _ => true end.

(** [typeof v === "function"]. *)
Definition is_function (v : global_value) : bool :=
  match v with gv_function => true | _ => false end.

(** [a || b]: [a] when it is truthy, [b] otherwise. *)
Definition logical_or (a b : global_value) : global_value :=
  if truthy a then a else b.

(** The global scope as far as the constructor looks at it: the values
    of [MutationObserver] and [WebKitMutationObserver]. *)
Record Scope := mkScope {
  MutationObserver : global_value;
  WebKitMutationObserver : global_value }.

(** [this.scope.MutationObserver || this.scope.WebKitMutationObserver]
    (raw.js, line 44). *)
Definition BrowserMutationObserver (scope : Scope) : global_value :=
  logical_or (MutationObserver scope) (WebKitMutationObserver scope).

Definition makeRequestCallFromMutationObserver (cb : callback) : requestCall :=
  requestCall_observer cb.

Definition makeRequestCallFromTimer (cb : callback) : requestCall :=
  requestCall_timer cb.

(** ** class Raw *)

(** The fields of a [Raw] instance.  [Entry] is the type of what sits in
    the queue; [Ext] holds the fields a subclass adds.  [toggle] is the
    variable captured by the mutation-observer closure.  [host] lists the
    requests made to the host, oldest first.  [scheduled] and [called]
    are observation logs (the arguments of [rawAsap], and the entries whose
    [call] the flush loop has entered); no operation reads them. *)
Record Raw {Entry Ext : Type} := mkRaw {
  queue : list Entry;
  flushing : bool;
  index : Z;
  capacity : Z;
  requestFlush : requestCall;
  toggle : Z;
  host : list host_event;
  scheduled : list Entry;
  called : list Entry;
  ext : Ext }.

Arguments Raw : clear implicits.
Arguments mkRaw {Entry Ext}.

Section RawScheduler.
Context {Entry Ext : Type}.
Abbreviation state := (Raw Entry Ext).

(** The [call] capability of a queue entry. *)
Variable call : Entry → state → state * completion.

Definition set_queue (q : list Entry) (st : state) : state :=
  mkRaw q (flushing st) (index st) (capacity st) (requestFlush st)
        (toggle st) (host st) (scheduled st) (called st) (ext st).

Definition set_flushing (b : bool) (st : state) : state :=
  mkRaw (queue st) b (index st) (capacity st) (requestFlush st)
        (toggle st) (host st) (scheduled st) (called st) (ext st).

Definition set_index (i : Z) (st : state) : state :=
  mkRaw (queue st) (flushing st) i (capacity st) (requestFlush st)
        (toggle st) (host st) (scheduled st) (called st) (ext st).

Definition set_toggle (t : Z) (st : state) : state :=
  mkRaw (queue st) (flushing st) (index st) (capacity st) (requestFlush st)
        t (host st) (scheduled st) (called st) (ext st).

Definition add_host (evs : list host_event) (st : state) : state :=
  mkRaw (queue st) (flushing st) (index st) (capacity st) (requestFlush st)
        (toggle st) (host st ++ evs) (scheduled st) (called st) (ext st).

Definition log_scheduled (e : Entry) (st : state) : state :=
  mkRaw (queue st) (flushing st) (index st) (capacity st) (requestFlush st)
        (toggle st) (host st) (scheduled st ++ [e]) (called st) (ext st).

Definition log_called (e : Entry) (st : state) : state :=
  mkRaw (queue st) (flushing st) (index st) (capacity st) (requestFlush st)
        (toggle st) (host st) (scheduled st) (called st ++ [e]) (ext st).

Definition set_ext (x : Ext) (st : state) : state :=
  mkRaw (queue st) (flushing st) (index st) (capacity st) (requestFlush st)
        (toggle st) (host st) (scheduled st) (called st) x.

(** [this.queue.length] *)
Definition queue_length (st : state) : Z := Z.of_nat (length (queue st)).

(** Calling a [requestCall] closure (raw.js, lines 153-156 and 200-218).
    The observer one negates [toggle] and stores it in the observed node;
    the timer one arms a timeout of 0 and an interval of 50 with the same
    handler, which cancels both and calls the callback. *)
Definition invoke_requestCall (r : requestCall) (st : state) : state :=
  match r with
  | requestCall_observer cb =>
      let t := (- toggle st)%Z in
      add_host [SetNodeData cb t] (set_toggle t st)
  | requestCall_timer cb =>
      add_host [SetTimeout cb 0; SetInterval cb 50] st
  end.

(** [rawAsap(task)] (raw.js, lines 104-111). *)
Definition rawAsap (task : Entry) (st : state) : state :=
  let st1 :=
    if (queue_length st =? 0)%Z
    then set_flushing true (invoke_requestCall (requestFlush st) st)
    else st in
  log_scheduled task (set_queue (queue st1 ++ [task]) st1).

(** [rawAsap] called on each of [ts] in turn. *)
Definition rawAsap_all (ts : list Entry) (st : state) : state :=
  foldl (λ s t, rawAsap t s) st ts.

(** [q[i]]: [None] is [undefined]. *)
Definition array_get (q : list Entry) (i : Z) : option Entry :=
  if (i <? 0)%Z then None else q !! Z.to_nat i.

(** The body of the for loop of [flush], run [n] more times from [scan]:
    [queue[scan] = queue[scan + index]].  Under the loop guard
    [scan < queue.length - index] and with [0 <= index] the read is in
    range, so the [None] branch is not taken. *)
Fixpoint shift_down (n scan : nat) (idx : Z) (q : list Entry) : list Entry :=
  match n with
  | O => q
  | S n' =>
      let q' :=
        match array_get q (Z.of_nat scan + idx) with
        | Some x => <[scan := x]> q
        | None => q
        end in
      shift_down n' (S scan) idx q'
  end.

(** The compaction block of [flush] (raw.js, lines 131-139): the for
    loop, then [queue.length -= index] (a negative length is a
    [RangeError]) and [index = 0].  The block is entered with
    [capacity < index]. *)
Definition compact (st : state) : state * completion :=
  let newLength := (queue_length st - index st)%Z in
  let q := shift_down (Z.to_nat newLength) 0 (index st) (queue st) in
  if (newLength <? 0)%Z then (set_queue q st, Threw RangeError)
  else (set_index 0 (set_queue (take (Z.to_nat newLength) q) st), Returned).

(** One turn of the while loop of [flush] (raw.js, lines 121-139),
    entered with [index < queue.length]: the cursor moves on first, then
    the entry is called; a throw leaves the loop at once; otherwise the
    queue is compacted when the cursor is above [capacity]. *)
Definition flush_body (st : state) : state * completion :=
  let currentIndex := index st in
  let st1 := set_index (index st + 1) st in
  match array_get (queue st1) currentIndex with
  | None => (st1, Threw TypeError)
  | Some e =>
      let '(st2, r) := call e (log_called e st1) in
      match r with
      | Threw err => (st2, Threw err)
      | Returned =>
          if (capacity st2 <? index st2)%Z then compact st2
          else (st2, Returned)
      end
  end.

(** The three assignments after the loop (raw.js, lines 141-143). *)
Definition flush_finish (st : state) : state :=
  set_flushing false (set_index 0 (set_queue [] st)).

(** [flush()] (raw.js, lines 119-144), with a bound on the number of
    turns of the loop.  [None]: the bound was reached. *)
Fixpoint flush_loop (fuel : nat) (st : state) : option (state * completion) :=
  if (index st <? queue_length st)%Z then
    match fuel with
    | O => None
    | S fuel' =>
        let '(st', r) := flush_body st in
        match r with
        | Threw err => Some (st', Threw err)
        | Returned => flush_loop fuel' st'
        end
    end
  else Some (flush_finish st, Returned).

(** The entries not yet called. *)
Definition pending (st : state) : list Entry :=
  drop (Z.to_nat (index st)) (queue st).

(** [new Raw()] (raw.js, lines 13-102), with [x] for the fields of the
    subclass. *)
Definition Raw_constructor (scope : Scope) (x : Ext) : state :=
  {| queue := [];
     flushing := false;
     index := 0;
     capacity := 1024;
     requestFlush :=
       if is_function (BrowserMutationObserver scope)
       then makeRequestCallFromMutationObserver cb_flush
       else makeRequestCallFromTimer cb_flush;
     toggle := 1;
     host := [];
     scheduled := [];
     called := [];
     ext := x |}.

(** Number of calls of a [requestCall] closure that the host has seen:
    each call leaves exactly one [SetTimeout] or one [SetNodeData]. *)
Definition is_request (ev : host_event) : bool :=
  match ev with
  | SetTimeout _ _ | SetNodeData _ _ => true
  | SetInterval _ _ => false
  end.

Definition request_count (st : state) : nat :=
  length (List.filter is_request (host st)).

(** The state with the [flushing] flag blanked. *)
Definition erase_flushing (st : state) : state := set_flushing false st.

(** Two states that differ at most in the [flushing] flag. *)
Definition sim (st1 st2 : state) : Prop :=
  erase_flushing st1 = erase_flushing st2.

(** The cursor is within the queue. *)
Definition cursor_ok (st : state) : Prop :=
  (0 ≤ index st ≤ queue_length st)%Z.

End RawScheduler.

Arguments cursor_ok {Entry Ext} st /.

(** ** A [Raw] instance used directly

    The entries are the client's tasks; a task schedules through
    [rawAsap]. *)
Module RawTasks.

Abbreviation state := (Raw task unit).

(** [task.call()] for a client task. *)
Definition call_task (t : task) (st : state) : state * completion :=
  (rawAsap_all (task_spawns t) st, task_result t).

(** A bound on the turns of the loop: the calls the pending tasks
    stand for. *)
Definition work (st : state) : nat :=
  list_sum (map task_size (pending st)).

Definition flush (st : state) : option (state * completion) :=
  flush_loop call_task (work st) st.

Definition init (scope : Scope) : state := Raw_constructor scope ().

(** The program points of a [Raw] instance in use: a call of [rawAsap]
    (by the host or from inside a running task), the first half of a
    turn of the flush loop (cursor moved, entry about to run), the
    compaction after a call, and the end of the loop. *)
Inductive step : state → state → Prop :=
  | step_rawAsap t st :
      step st (rawAsap t st)
  | step_enter st e :
      (index st < queue_length st)%Z →
      array_get (queue st) (index st) = Some e →
      step st (log_called e (set_index (index st + 1) st))
  | step_compact st st' r :
      (capacity st < index st)%Z →
      compact st = (st', r) →
      step st st'
  | step_finish st :
      ¬ (index st < queue_length st)%Z →
      step st (flush_finish st).

Definition reachable (st : state) : Prop :=
  ∃ scope, rtc step (init scope) st.

(** The invariant of the instance: the cursor is within the queue, and
    what was scheduled is what was called followed by what is pending. *)
Definition inv (st : state) : Prop :=
  cursor_ok st ∧ scheduled st = called st ++ pending st.

End RawTasks.

(** ** class Asap extends Raw

    The class is declared twice, with the same methods: in the module
    that imports [Raw] from "./raw" (82 lines; lines given first below)
    and in the module that declares [Raw] and [Asap] together (lines
    given second).  The queue holds references to RawTask holders; a
    client task schedules through [asap]. *)
Module Asap.

(** The fields [Asap] adds.  [holders] is the heap of RawTask objects:
    [holders !! h] is the [task] field of holder [h], [None] for [null].
    [onerror] is the property of that name on the bound function [asap];
    a hook is called with the error and returns or throws.  [asap_log],
    [task_log] and [hook_log] are observation logs (arguments of [asap],
    tasks whose body was entered, errors handed to the hook); no
    operation reads them. *)
Record fields := mkFields {
  holders : list (option task);
  freeTasks : list nat;
  pendingErrors : list error;
  requestErrorThrow : requestCall;
  onerror : option (error → completion);
  asap_log : list task;
  task_log : list task;
  hook_log : list error }.

Abbreviation state := (Raw nat fields).

Definition set_holders (hs : list (option task)) (x : fields) : fields :=
  mkFields hs (freeTasks x) (pendingErrors x) (requestErrorThrow x)
           (onerror x) (asap_log x) (task_log x) (hook_log x).

Definition set_freeTasks (fs : list nat) (x : fields) : fields :=
  mkFields (holders x) fs (pendingErrors x) (requestErrorThrow x)
           (onerror x) (asap_log x) (task_log x) (hook_log x).

Definition set_pendingErrors (es : list error) (x : fields) : fields :=
  mkFields (holders x) (freeTasks x) es (requestErrorThrow x)
           (onerror x) (asap_log x) (task_log x) (hook_log x).

Definition set_onerror (h : option (error → completion)) (x : fields) : fields :=
  mkFields (holders x) (freeTasks x) (pendingErrors x) (requestErrorThrow x)
           h (asap_log x) (task_log x) (hook_log x).

Definition log_asap (t : task) (x : fields) : fields :=
  mkFields (holders x) (freeTasks x) (pendingErrors x) (requestErrorThrow x)
           (onerror x) (asap_log x ++ [t]) (task_log x) (hook_log x).

Definition log_task (t : task) (x : fields) : fields :=
  mkFields (holders x) (freeTasks x) (pendingErrors x) (requestErrorThrow x)
           (onerror x) (asap_log x) (task_log x ++ [t]) (hook_log x).

Definition log_hook (e : error) (x : fields) : fields :=
  mkFields (holders x) (freeTasks x) (pendingErrors x) (requestErrorThrow x)
           (onerror x) (asap_log x) (task_log x) (hook_log x ++ [e]).

(** Update of the subclass fields of an instance. *)
Definition upd (f : fields → fields) (st : state) : state :=
  set_ext (f (ext st)) st.

(** [throwFirstError()] (lines 20-24; 151-155). *)
Definition throwFirstError (st : state) : state * completion :=
  match pendingErrors (ext st) with
  | [] => (st, Returned)
  | e :: es => (upd (set_pendingErrors es) st, Threw e)
  end.

(** [getRawTask()] (lines 47-78; 178-209): a new holder with
    [task: null]. *)
Definition getRawTask (st : state) : nat * state :=
  (length (holders (ext st)),
   upd (set_holders (holders (ext st) ++ [None])) st).

(** [asap(task)] (lines 34-43; 165-174).  [freeTasks.pop()] takes the
    last element.  A holder
    reference always comes from [getRawTask], so the assignment to its
    [task] field is an update in range. *)
Definition asap (t : task) (st : state) : state :=
  let st0 := upd (log_asap t) st in
  let free := freeTasks (ext st0) in
  let '(rawTask, st1) :=
    match last free with
    | Some h => (h, upd (set_freeTasks (take (length free - 1) free)) st0)
    | None => getRawTask st0
    end in
  let st2 := upd (set_holders (<[rawTask := Some t]> (holders (ext st1)))) st1 in
  rawAsap rawTask st2.

(** [rawTask.task.call()] for a bound client task. *)
Definition call_bound_task (t : task) (st : state) : state * completion :=
  (foldl (λ s c, asap c s) (upd (log_task t) st) (task_spawns t),
   task_result t).

(** The [call] method of a holder (lines 55-76; 186-207): try, catch,
    finally.  A [null] task makes [rawTask.task.call()] a [TypeError],
    caught like any other. *)
Definition holder_call (rawTask : nat) (st : state) : state * completion :=
  let '(st1, r1) :=
    match holders (ext st) !! rawTask with
    | Some (Some t) => call_bound_task t st
    | _ => (st, Threw TypeError)
    end in
  let '(st2, r2) :=
    match r1 with
    | Returned => (st1, Returned)
    | Threw err =>
        match onerror (ext st1) with
        | Some hook => (upd (log_hook err) st1, hook err)
        | None =>
            let st' :=
              upd (set_pendingErrors (pendingErrors (ext st1) ++ [err])) st1 in
            (invoke_requestCall (requestErrorThrow (ext st')) st', Returned)
        end
    end in
  let st3 := upd (set_holders (<[rawTask := None]> (holders (ext st2)))) st2 in
  (upd (set_freeTasks (freeTasks (ext st3) ++ [rawTask])) st3, r2).

(** The task bound to a holder, if any. *)
Definition bound (st : state) (h : nat) : option task :=
  mjoin (holders (ext st) !! h).

(** How [rawTask.task.call()] ends for holder [h], and what it
    schedules: as the bound task does; a [TypeError] and nothing when
    [task] is [null]. *)
Definition try_result (st : state) (h : nat) : completion :=
  match bound st h with
  | Some t => task_result t
  | None => Threw TypeError
  end.

Definition try_spawns (st : state) (h : nat) : list task :=
  match bound st h with
  | Some t => task_spawns t
  | None => []
  end.

(** A bound on the turns of the flush loop. *)
Definition holder_work (st : state) (h : nat) : nat :=
  match bound st h with Some t => task_size t | None => 1 end.

Definition work (st : state) : nat :=
  list_sum (map (holder_work st) (pending st)).

Definition flush (st : state) : option (state * completion) :=
  flush_loop holder_call (work st) st.

(** *** The constructor in the two modules

    Both modules run [super()] and then build [requestErrorThrow]; they
    differ in the callee of that one call: line 14 of the importing
    module has [this.rawAsap.makeRequestCallFromTimer], line 145 of the
    standalone module has [this.makeRequestCallFromTimer]. *)
Inductive asap_module :=
  | module_importing_raw   (* imports Raw from "./raw" *)
  | module_standalone.     (* declares Raw and Asap together *)

Inductive factory := factory_observer | factory_timer.

Definition apply_factory (f : factory) (cb : callback) : requestCall :=
  match f with
  | factory_observer => makeRequestCallFromMutationObserver cb
  | factory_timer => makeRequestCallFromTimer cb
  end.

(** The request factories among the properties of an object, by name. *)
Definition properties := list (string * factory).

Fixpoint get_property (ps : properties) (name : string) : option factory :=
  match ps with
  | [] => None
  | (n, f) :: ps' => if String.eqb n name then Some f else get_property ps' name
  end.

(** The instance after [super()]: both factories are bound methods. *)
Definition instance_properties : properties :=
  [("makeRequestCallFromMutationObserver"%string, factory_observer);
   ("makeRequestCallFromTimer"%string, factory_timer)].

(** The function object [this.rawAsap], made by [bind] in the [Raw]
    constructor: [bind] returns a new function object, and nothing
    assigns a property to it. *)
Definition rawAsap_function_properties : properties := [].

(** Calling a looked-up member with a callback; [undefined] is not
    callable. *)
Definition call_member (callee : option factory) (cb : callback)
  : error + requestCall :=
  match callee with
  | None => inl TypeError
  | Some f => inr (apply_factory f cb)
  end.

(** The instance once [requestErrorThrow] is [r]. *)
Definition construct (r : requestCall) (scope : Scope) : state :=
  Raw_constructor scope
    {| holders := []; freeTasks := []; pendingErrors := [];
       requestErrorThrow := r; onerror := None;
       asap_log := []; task_log := []; hook_log := [] |}.

Definition Asap_constructor (m : asap_module) (scope : Scope)
  : error + state :=
  let callee :=
    match m with
    | module_importing_raw =>
        (* this.rawAsap.makeRequestCallFromTimer *)
        get_property rawAsap_function_properties "makeRequestCallFromTimer"
    | module_standalone =>
        (* this.makeRequestCallFromTimer *)
        get_property instance_properties "makeRequestCallFromTimer"
    end in
  match call_member callee cb_throwFirstError with
  | inl e => inl e
  | inr r => inr (construct r scope)
  end.

(** The instance the standalone module exports the [asap] of. *)
Definition init (scope : Scope) : state :=
  construct (makeRequestCallFromTimer cb_throwFirstError) scope.

(** The test harness assigns [asap.onerror]. *)
Definition install_hook (hook : error → completion) (st : state) : state :=
  upd (set_onerror (Some hook)) st.

(** The host schedules [ts] one after the other. *)
Definition schedule_all (ts : list task) (st : state) : state :=
  foldl (λ s t, asap t s) st ts.

(** The host runs [throwFirstError] [n] times; the errors thrown, in
    order, and the state left. *)
Fixpoint drain (n : nat) (st : state) : list error * state :=
  match n with
  | O => ([], st)
  | S n' =>
      let '(st1, r) := throwFirstError st in
      let '(es, st2) := drain n' st1 in
      (match r with Threw e => e :: es | Returned => es end, st2)
  end.

(** The tasks bound to the pending holders. *)
Definition pending_tasks (st : state) : list task :=
  omap (bound st) (pending st).

(** A configured hook returns normally on every error. *)
Definition hook_returns (st : state) : Prop :=
  ∀ hook e, onerror (ext st) = Some hook → hook e = Returned.

(** The errors the tasks [ts] throw, in order. *)
Definition errors_of (ts : list task) : list error :=
  omap (λ t, thrown (task_result t)) ts.

(** What one call of the timer closure for [throwFirstError] leaves at
    the host, once per error of [es]. *)
Definition error_timers (es : list error) : list host_event :=
  es ≫= λ _, [SetTimeout cb_throwFirstError 0; SetInterval cb_throwFirstError 50].

(** The outcome of a holder's [call] that ran task [t] from [s] to [s'],
    by the way the task ends and by the hook. *)
Definition call_outcome (t : task) (s s' : state) (r : completion) : Prop :=
  match task_result t, onerror (ext s) with
  | Returned, _ =>
      r = Returned ∧ pendingErrors (ext s') = pendingErrors (ext s) ∧
      host s' = host s ∧ hook_log (ext s') = hook_log (ext s)
  | Threw err, Some hook =>
      r = hook err ∧ pendingErrors (ext s') = pendingErrors (ext s) ∧
      host s' = host s ∧ hook_log (ext s') = hook_log (ext s) ++ [err]
  | Threw err, None =>
      r = Returned ∧
      pendingErrors (ext s') = pendingErrors (ext s) ++ [err] ∧
      host s' = host s ++ [SetTimeout cb_throwFirstError 0;
                           SetInterval cb_throwFirstError 50] ∧
      hook_log (ext s') = hook_log (ext s)
  end.

(** The shape of the states of a constructed instance, with the holders
    [d] detached (taken off the queue and not yet back in the pool; [d]
    is the running holder during its call and empty otherwise): cursor
    within the queue; detached, pending and free holders allocated and
    pairwise distinct; every pending holder bound; the tasks given to
    [asap] are those already entered followed by those pending; the
    closure for the deferred throw is the timer one. *)
Record wf_detached (d : list nat) (st : state) : Prop := mkWf {
  wf_cursor : cursor_ok st;
  wf_nodup : NoDup (d ++ pending st ++ freeTasks (ext st));
  wf_alloc : ∀ h, h ∈ d ++ pending st ++ freeTasks (ext st) →
                  h < length (holders (ext st));
  wf_bound : ∀ h, h ∈ pending st → is_Some (bound st h);
  wf_logs : asap_log (ext st) = task_log (ext st) ++ pending_tasks st;
  wf_timer : requestErrorThrow (ext st)
             = makeRequestCallFromTimer cb_throwFirstError }.

Definition wf (st : state) : Prop := wf_detached [] st.

(** What the host and the test harness do to an instance between two
    turns of the event loop. *)
Inductive host_step : state → state → Prop :=
  | host_asap t st :
      host_step st (asap t st)
  | host_flush st st' r :
      flush st = Some (st', r) → host_step st st'
  | host_throwFirstError st st' r :
      throwFirstError st = (st', r) → host_step st st'
  | host_set_onerror hook st :
      host_step st (upd (set_onerror hook) st).

Definition reachable (st : state) : Prop :=
  ∃ scope, rtc host_step (init scope) st.

(** What a flush started in [st] has done when it is in [s]: the tasks
    [run] so far, what they scheduled, and, with no hook, the errors
    they left and the timers armed for them. *)
Definition flush_progress (st s : state) : Prop :=
  wf s ∧ onerror (ext s) = onerror (ext st) ∧
  ∃ run,
    task_log (ext s) = task_log (ext st) ++ run ∧
    asap_log (ext s) = asap_log (ext st) ++ (run ≫= task_spawns) ∧
    (onerror (ext st) = None →
       pendingErrors (ext s) = pendingErrors (ext st) ++ errors_of run ∧
       host s = host st ++ error_timers (errors_of run)).

End Asap.

(** ** Sample data

    A host without mutation observers, and the tasks of the scenarios:
    [task_A] and [task_C] return, [task_B], [task_D] and [task_E] throw,
    [task_R] schedules two tasks and returns. *)
Definition sample_scope : Scope := mkScope gv_falsy gv_falsy.
Definition task_A : task := Task 1 [] Returned.
Definition task_B : task := Task 2 [] (Threw (Thrown 1)).
Definition task_C : task := Task 3 [] Returned.
Definition task_D : task := Task 4 [] (Threw (Thrown 2)).
Definition task_E : task := Task 5 [] (Threw (Thrown 3)).
Definition task_R : task := Task 6 [task_A; task_B] Returned.

(** A raw instance with A, B, C scheduled. *)
Definition raw_ABC : RawTasks.state :=
  rawAsap_all [task_A; task_B; task_C] (RawTasks.init sample_scope).

(** A raw queue of 1030 tasks of which the 1027th throws. *)
Definition raw_long_thrower : RawTasks.state :=
  rawAsap_all (replicate 1026 task_A ++ [task_B] ++ replicate 3 task_C)
    (RawTasks.init sample_scope).

(** A raw instance with A and C scheduled. *)
Definition raw_AC : RawTasks.state :=
  rawAsap_all [task_A; task_C] (RawTasks.init sample_scope).

(** A safe instance with one task scheduled; its holder is number 0. *)
Definition safe_B : Asap.state := Asap.asap task_B (Asap.init sample_scope).

(** A raw queue of 1024 tasks that return followed by three that throw,
    and the instance after one flush and after two. *)
Definition raw_throwers : RawTasks.state :=
  rawAsap_all (replicate 1024 task_A ++ [task_B; task_D; task_E])
    (RawTasks.init sample_scope).

Definition raw_throwers_once : RawTasks.state :=
  match RawTasks.flush raw_throwers with
  | Some (st, _) => st
  | None => raw_throwers
  end.

Definition raw_throwers_twice : RawTasks.state :=
  match RawTasks.flush raw_throwers_once with
  | Some (st, _) => st
  | None => raw_throwers_once
  end.

(** The raw instance with A, B, C after the flush that B interrupts. *)
Definition raw_ABC_interrupted : RawTasks.state :=
  match RawTasks.flush raw_ABC with
  | Some (st, _) => st
  | None => raw_ABC
  end.

(** ** Further definitions

    What the requests to the host say about the observed text node. *)

(** The values assigned to [node.data], oldest first. *)
Definition node_data (evs : list host_event) : list Z :=
  omap (λ ev, match ev with SetNodeData _ v => Some v | _ => None end) evs.

(** The value of [toggle] after [n] calls of the observer closure. *)
Definition toggled (n : nat) : Z := if Nat.even n then 1%Z else (-1)%Z.

(** The first [n] values assigned to [node.data]. *)
Definition alternating (n : nat) : list Z := (λ k, toggled (S k)) <$> seq 0 n.

(** ** The parts of a holder's [call] and of a turn of the loop *)
Module AsapParts.
Import Asap.

(** The [finally] block of a holder's [call]. *)
Definition release (h : nat) (s : state) : state :=
  let s3 := upd (set_holders (<[h := None]> (holders (ext s)))) s in
  upd (set_freeTasks (freeTasks (ext s3) ++ [h])) s3.

(** The [else] branch of the [catch] block: the error is queued and its
    throw requested. *)
Definition defer_error (err : error) (s : state) : state :=
  add_host [SetTimeout cb_throwFirstError 0; SetInterval cb_throwFirstError 50]
    (upd (set_pendingErrors (pendingErrors (ext s) ++ [err])) s).

(** The state in which a holder's task starts: cursor moved on, call and
    task logged. *)
Definition entered (h : nat) (t : task) (st : state) : state :=
  upd (log_task t) (log_called h (set_index (index st + 1) st)).

(** The queue after compaction. *)
Definition compacted (s : state) : state :=
  set_index 0 (set_queue (pending s) s).

(** Every holder is pending, free or running, and a free holder holds no
    task. *)
Definition pool_ok (d : list nat) (s : state) : Prop :=
  length (holders (ext s))
  = length d + length (pending s) + length (freeTasks (ext s)) ∧
  ∀ h, h ∈ freeTasks (ext s) → holders (ext s) !! h = Some None.

(** What a flush started in [st] has done to the errors when it is in
    [s]: with no hook the errors of the tasks [run] are queued, one timer
    request each; with a hook they went to the hook and nothing is
    queued. *)
Definition flush_errors (st s : state) : Prop :=
  onerror (ext s) = onerror (ext st) ∧
  ∃ run,
    task_log (ext s) = task_log (ext st) ++ run ∧
    match onerror (ext st) with
    | None =>
        pendingErrors (ext s) = pendingErrors (ext st) ++ errors_of run ∧
        host s = host st ++ error_timers (errors_of run) ∧
        hook_log (ext s) = hook_log (ext st)
    | Some _ =>
        pendingErrors (ext s) = pendingErrors (ext st) ∧
        host s = host st ∧
        hook_log (ext s) = hook_log (ext st) ++ errors_of run
    end.

End AsapParts.

#[global] Instance callback_eq_dec : EqDecision callback :=
  λ a b,
    match a, b with
    | cb_flush, cb_flush => left eq_refl
    | cb_throwFirstError, cb_throwFirstError => left eq_refl
    | cb_flush, cb_throwFirstError =>
        right (λ H : cb_flush = cb_throwFirstError,
                 eq_ind cb_flush
                   (λ c, match c with cb_flush => True | cb_throwFirstError => False end)
                   I cb_throwFirstError H)
    | cb_throwFirstError, cb_flush =>
        right (λ H : cb_throwFirstError = cb_flush,
                 eq_ind cb_throwFirstError
                   (λ c, match c with cb_flush => False | cb_throwFirstError => True end)
                   I cb_flush H)
    end.

(** ** The host's timers and [handleTimer] *)
Module Timers.

(** The variables a [handleTimer] closes over: the two handles, assigned
    by the two statements of [requestCall] ([None] before the
    assignment), and the callback. *)
Record env := mkEnv {
  timeoutHandle : option nat;
  intervalHandle : option nat;
  callback_of : callback }.

(** An active timer of the host: its handle, whether it repeats, its
    delay, and the closure it runs (an index into [envs]). *)
Record timer := mkTimer {
  handle : nat;
  repeating : bool;
  delay : Z;
  closure : nat }.

(** The host's list of active timers, the next handle it hands out, and
    the environments of the [handleTimer] closures created so far. *)
Record table := mkTable {
  active : list timer;
  next : nat;
  envs : list env }.

Definition empty (first : nat) : table := mkTable [] first [].

Definition set_active (l : list timer) (tb : table) : table :=
  mkTable l (next tb) (envs tb).

(** [setTimeout(handler, delay)] and [setInterval(handler, delay)]: a new
    active timer under a fresh handle, which is returned. *)
Definition setTimeout (f : nat) (d : Z) (tb : table) : nat * table :=
  (next tb, mkTable (active tb ++ [mkTimer (next tb) false d f])
                    (S (next tb)) (envs tb)).

Definition setInterval (f : nat) (d : Z) (tb : table) : nat * table :=
  (next tb, mkTable (active tb ++ [mkTimer (next tb) true d f])
                    (S (next tb)) (envs tb)).

(** [clearTimeout(h)] and [clearInterval(h)]: the timer with that handle,
    if any, is no longer active; [undefined] clears nothing. *)
Definition clear (h : option nat) (tb : table) : table :=
  match h with
  | None => tb
  | Some h => set_active (filter (λ tm, handle tm ≠ h) (active tb)) tb
  end.

Definition clearTimeout := clear.
Definition clearInterval := clear.

(** The closure [requestCall] returned by
    [makeRequestCallFromTimer(callback)], called (raw.js, lines 200-218). *)
Definition requestCall (cb : callback) (tb : table) : table :=
  let f := length (envs tb) in
  let tb0 := mkTable (active tb) (next tb) (envs tb ++ [mkEnv None None cb]) in
  let '(timeoutHandle, tb1) := setTimeout f 0 tb0 in
  let tb2 := mkTable (active tb1) (next tb1)
               (alter (λ v, mkEnv (Some timeoutHandle) (intervalHandle v)
                                  (callback_of v)) f (envs tb1)) in
  let '(intervalHandle, tb3) := setInterval f 50 tb2 in
  mkTable (active tb3) (next tb3)
    (alter (λ v, mkEnv (Timers.timeoutHandle v) (Some intervalHandle)
                       (callback_of v)) f (envs tb3)).

(** [handleTimer()] of closure [f] (raw.js, lines 211-217): both timers
    are cleared, then the callback is called; the callback is returned
    for the caller to run. *)
Definition handleTimer (f : nat) (tb : table) : table * option callback :=
  match envs tb !! f with
  | Some v =>
      let tb1 := clearTimeout (timeoutHandle v) tb in
      let tb2 := clearInterval (intervalHandle v) tb1 in
      (tb2, Some (callback_of v))
  | None => (tb, None)
  end.

(** The timer of handle [h], if active. *)
Definition find (h : nat) (tb : table) : option timer :=
  List.find (λ tm, Nat.eqb (handle tm) h) (active tb).

(** The host fires the timer of handle [h]: nothing if it is not active;
    a timeout is used up; the handler runs. *)
Definition fire (h : nat) (tb : table) : table * option callback :=
  match find h tb with
  | None => (tb, None)
  | Some tm =>
      let tb1 := if repeating tm then tb
                 else set_active (filter (λ x, handle x ≠ h) (active tb)) tb in
      handleTimer (closure tm) tb1
  end.

(** The host loses the timeout of handle [h] without running it (raw.js,
    lines 206-208). *)
Definition lose (h : nat) (tb : table) : table :=
  set_active (filter (λ tm, ¬ (handle tm = h ∧ repeating tm = false))
                     (active tb)) tb.

(** The requests of callback [cb] still awaiting their call: the active
    intervals whose closure has that callback. *)
Definition awaiting (cb : callback) (tb : table) : list timer :=
  filter (λ tm, repeating tm = true ∧
                callback_of <$> envs tb !! closure tm = Some cb)
         (active tb).

(** The shape of a table that only [requestCall] arms, from handle
    [first] on: closure [f] owns the handles [first + 2f] (timeout) and
    [first + 2f + 1] (interval); active timers have distinct handles; a
    timeout is active only while its interval is. *)
Record ok (first : nat) (tb : table) : Prop := mkOk {
  ok_next : next tb = first + 2 * length (envs tb);
  ok_envs : ∀ f v, envs tb !! f = Some v →
              timeoutHandle v = Some (first + 2 * f) ∧
              intervalHandle v = Some (first + 2 * f + 1);
  ok_active : ∀ tm, tm ∈ active tb →
              closure tm < length (envs tb) ∧
              handle tm = first + 2 * closure tm
                          + (if repeating tm then 1 else 0);
  ok_nodup : NoDup (handle <$> active tb);
  ok_backed : ∀ tm, tm ∈ active tb → repeating tm = false →
              ∃ tm', tm' ∈ active tb ∧ repeating tm' = true ∧
                     closure tm' = closure tm }.

(** What the host and the program do to the table. *)
Inductive action :=
  | Request (cb : callback)
  | Fire (h : nat)
  | Lose (h : nat).

(** One action on the table and on the list of closures whose callback
    has been called. *)
Definition act (a : action) (x : table * list nat) : table * list nat :=
  let '(tb, called) := x in
  match a with
  | Request cb => (requestCall cb tb, called)
  | Fire h =>
      match fire h tb, find h tb with
      | (tb', Some _), Some tm => (tb', called ++ [closure tm])
      | (tb', _), _ => (tb', called)
      end
  | Lose h => (lose h tb, called)
  end.

Definition run (acts : list action) (x : table * list nat) : table * list nat :=
  foldl (λ x a, act a x) x acts.

(** Closure [f] has no active timer. *)
Definition idle (f : nat) (tb : table) : Prop :=
  ∀ tm, tm ∈ active tb → closure tm ≠ f.

(** The interval of closure [f] is active. *)
Definition armed (f : nat) (tb : table) : Prop :=
  ∃ tm, tm ∈ active tb ∧ closure tm = f ∧ repeating tm = true.

(** Every request made so far has been served once and is idle, or has
    not been served and has its interval active. *)
Definition served_ok (first : nat) (x : table * list nat) : Prop :=
  ok first x.1 ∧ NoDup x.2 ∧
  (∀ f, f ∈ x.2 → f < length (envs x.1)) ∧
  ∀ f, f < length (envs x.1) →
       (f ∈ x.2 ∧ idle f x.1) ∨ ((f ∉ x.2) ∧ armed f x.1).

End Timers.

(** ** The instance in its host *)
Module World.
Import Asap.

(** The exported [asap] of an instance together with the host's side of
    it: the timer table and the record queue of the mutation observer
    ([observed] is the callback of the observer that has a record of the
    text node waiting, if one has). *)
Record world := mkWorld {
  sched : state;
  timers : Timers.table;
  observed : option callback }.

Definition set_sched (s : state) (w : world) : world :=
  mkWorld s (timers w) (observed w).
Definition set_timers (tb : Timers.table) (w : world) : world :=
  mkWorld (sched w) tb (observed w).
Definition set_observed (o : option callback) (w : world) : world :=
  mkWorld (sched w) (timers w) o.

(** The calls of a [requestCall] closure among the requests [evs] to the
    host: a timer closure shows as its [setTimeout] (its [setInterval]
    follows), an observer closure as the assignment to [node.data]. *)
Definition requests_in (evs : list host_event) : list requestCall :=
  omap (λ ev, match ev with
              | SetTimeout cb _ => Some (requestCall_timer cb)
              | SetNodeData cb _ => Some (requestCall_observer cb)
              | SetInterval _ _ => None
              end) evs.

(** What a call of a [requestCall] closure does at the host. *)
Definition perform (r : requestCall) (w : world) : world :=
  match r with
  | requestCall_timer cb => set_timers (Timers.requestCall cb (timers w)) w
  | requestCall_observer cb => set_observed (Some cb) w
  end.

(** The instance has moved to [s'] with the host's log at [before] when
    it started: the host takes in the requests made since. *)
Definition settle (before : list host_event) (s' : state) (w : world) : world :=
  foldl (λ w r, perform r w) (set_sched s' w)
        (requests_in (drop (length before) (host s'))).

(** The client calls the exported function. *)
Definition client_asap (t : task) (w : world) : world :=
  settle (host (sched w)) (asap t (sched w)) w.

(** The host calls one of the two bound methods it was given. *)
Definition run_callback (cb : callback) (s : state) : option (state * completion) :=
  match cb with
  | cb_flush => flush s
  | cb_throwFirstError => Some (throwFirstError s)
  end.

Definition host_calls (cb : callback) (w : world) : option (world * completion) :=
  match run_callback cb (sched w) with
  | Some (s', r) => Some (settle (host (sched w)) s' w, r)
  | None => None
  end.

(** The timer with handle [h] comes due. *)
Definition timer_fires (h : nat) (w : world) : option (world * completion) :=
  let '(tb, ocb) := Timers.fire h (timers w) in
  match ocb with
  | Some cb => host_calls cb (set_timers tb w)
  | None => Some (set_timers tb w, Returned)
  end.

(** The observer's records are delivered. *)
Definition observer_notified (w : world) : option (world * completion) :=
  match observed w with
  | Some cb => host_calls cb (set_observed None w)
  | None => Some (w, Returned)
  end.

(** The host drops the timeout with handle [h]. *)
Definition timeout_dropped (h : nat) (w : world) : world :=
  set_timers (Timers.lose h (timers w)) w.

Definition new_world (scope : Scope) (first : nat) : world :=
  mkWorld (init scope) (Timers.empty first) None.

(** What can happen to the instance in its host: the client schedules a
    task or assigns [asap.onerror] (a hook that returns, or none), a
    timer comes due, the observer is notified, a timeout is dropped. *)
Inductive event : world → world → Prop :=
  | event_asap t w :
      event w (client_asap t w)
  | event_onerror hook w :
      (∀ f e, hook = Some f → f e = Returned) →
      event w (set_sched (upd (set_onerror hook) (sched w)) w)
  | event_timer h w w' r :
      timer_fires h w = Some (w', r) → event w w'
  | event_observer w w' r :
      observer_notified w = Some (w', r) → event w w'
  | event_dropped h w :
      event w (timeout_dropped h w).

Definition reachable (first : nat) (w : world) : Prop :=
  ∃ scope, rtc event (new_world scope first) w.

(** The requests for [cb] the host still has to answer. *)
Definition outstanding (cb : callback) (w : world) : nat :=
  length (Timers.awaiting cb (timers w))
  + (if decide (observed w = Some cb) then 1 else 0).

(** Between two events: the instance is well formed with its cursor at
    0, a hook returns, the timer table is consistent, and the host owes
    one flush exactly when tasks are queued and one deferred throw per
    queued error. *)
Record settled (first : nat) (w : world) : Prop := mkSettled {
  settled_wf : wf (sched w);
  settled_hook : hook_returns (sched w);
  settled_index : index (sched w) = 0%Z;
  settled_timers : Timers.ok first (timers w);
  settled_flush_cb : requestFlush (sched w) = requestCall_observer cb_flush
                         ∨ requestFlush (sched w) = requestCall_timer cb_flush;
  settled_observed : observed w = None ∨ observed w = Some cb_flush;
  settled_flush : outstanding cb_flush w = if decide (queue (sched w) = []) then 0 else 1;
  settled_errors : outstanding cb_throwFirstError w
                   = length (pendingErrors (ext (sched w))) }.

End World.

(** ** Further sample data *)

(** A safe instance with B and D scheduled and a hook that returns. *)
Definition hooked_BD : Asap.state :=
  Asap.install_hook (λ _, Returned)
    (Asap.schedule_all [task_B; task_D] (Asap.init sample_scope)).


(** A host with mutation observers. *)
Definition observer_scope : Scope := mkScope gv_function gv_falsy.

(** A host whose [MutationObserver] is a truthy value that is not a
    function, and whose [WebKitMutationObserver] is a function. *)
Definition shadowed_scope : Scope := mkScope gv_other gv_function.

(** A timer table with one request for [flush] armed, from handle 0. *)
Definition table_flush : Timers.table :=
  Timers.requestCall cb_flush (Timers.empty 0).

(** A's client has called [asap] in a host without mutation observers,
    and in one with them. *)
Definition world_A : World.world :=
  World.client_asap task_A (World.new_world sample_scope 0).

Definition world_observed_A : World.world :=
  World.client_asap task_A (World.new_world observer_scope 0).

(** B was scheduled and the interval of the flush request (handle 1) has
    come due: B's error waits for its throw. *)
Definition world_B_flushed : World.world :=
  match World.timer_fires 1
          (World.client_asap task_B (World.new_world sample_scope 0)) with
  | Some (w, _) => w
  | None => World.new_world sample_scope 0
  end.

(** * Properties *)

(** ** The queue and the flush loop *)

Section RawFacts.
Context {Entry Ext : Type}.
Implicit Types (st : Raw Entry Ext) (q : list Entry).

Lemma array_get_nat q (i : nat) : array_get q (Z.of_nat i) = q !! i.
Proof.
  unfold array_get. destruct (Z.ltb_spec (Z.of_nat i) 0); [lia|].
  by rewrite Nat2Z.id.
Qed.

Lemma array_get_app q q' i e :
  array_get q i = Some e → array_get (q ++ q') i = Some e.
Proof.
  unfold array_get. destruct (i <? 0)%Z; [done|].
  intros H. by apply lookup_app_l_Some.
Qed.

Lemma shift_down_spec n : ∀ scan i q0,
  scan + n + i ≤ length q0 →
  shift_down n scan (Z.of_nat i) (take scan (drop i q0) ++ drop scan q0)
  = take (scan + n) (drop i q0) ++ drop (scan + n) q0.
Proof.
  induction n as [|n IH]; intros scan i q0 Hle; simpl.
  - by rewrite Nat.add_0_r.
  - replace (Z.of_nat scan + Z.of_nat i)%Z with (Z.of_nat (scan + i)) by lia.
    rewrite array_get_nat.
    assert (Hlen : length (take scan (drop i q0)) = scan).
    { rewrite length_take, length_drop. lia. }
    destruct (lookup_lt_is_Some_2 q0 (scan + i)) as [x Hx]; [lia|].
    destruct (lookup_lt_is_Some_2 q0 scan) as [y Hy]; [lia|].
    rewrite lookup_app_r by lia.
    rewrite Hlen, lookup_drop.
    replace (scan + (scan + i - scan)) with (scan + i) by lia.
    rewrite Hx.
    rewrite insert_app_r_alt by lia.
    rewrite Hlen, Nat.sub_diag.
    rewrite (drop_S _ _ _ Hy). simpl.
    replace (scan + S n) with (S scan + n) by lia.
    rewrite <- IH by lia.
    f_equal.
    rewrite (take_S_r _ _ x), <- app_assoc; [done|].
    rewrite lookup_drop. by rewrite Nat.add_comm.
Qed.

Lemma shift_down_drop (i : nat) q :
  i ≤ length q →
  take (length q - i) (shift_down (length q - i) 0 (Z.of_nat i) q) = drop i q.
Proof.
  intros Hi.
  pose proof (shift_down_spec (length q - i) 0 i q) as H.
  simpl in H. rewrite drop_0 in H. rewrite H by lia.
  rewrite take_app_le by (rewrite length_take, length_drop; lia).
  rewrite take_take, Nat.min_id.
  apply take_ge. rewrite length_drop. lia.
Qed.

Lemma compact_spec st :
  cursor_ok st →
  compact st = (set_index 0 (set_queue (pending st) st), Returned).
Proof.
  intros [H0 Hle]. unfold compact, pending, queue_length in *.
  destruct (Z.ltb_spec (Z.of_nat (length (queue st)) - index st) 0); [lia|].
  remember (Z.to_nat (index st)) as i eqn:Hi.
  assert (Hidx : index st = Z.of_nat i) by lia.
  rewrite Hidx.
  replace (Z.to_nat (Z.of_nat (length (queue st)) - Z.of_nat i))
    with (length (queue st) - i) by lia.
  rewrite shift_down_drop by lia. done.
Qed.

Lemma guard_lookup st :
  cursor_ok st → (index st < queue_length st)%Z →
  ∃ e, array_get (queue st) (index st) = Some e ∧
       pending st = e :: drop (S (Z.to_nat (index st))) (queue st).
Proof.
  intros [H0 _] Hg. unfold queue_length in Hg.
  destruct (lookup_lt_is_Some_2 (queue st) (Z.to_nat (index st))) as [e He];
    [lia|].
  exists e. unfold array_get, pending.
  destruct (Z.ltb_spec (index st) 0); [lia|].
  split; [done|]. by apply drop_S.
Qed.

(** rawAsap *)
Lemma rawAsap_nonempty (t : Entry) st :
  queue st ≠ [] →
  rawAsap t st = log_scheduled t (set_queue (queue st ++ [t]) st).
Proof.
  intros Hne. unfold rawAsap, queue_length.
  destruct (Z.eqb_spec (Z.of_nat (length (queue st))) 0) as [H|H]; [|done].
  destruct (queue st); [done|simpl in H; lia].
Qed.

Lemma rawAsap_empty (t : Entry) st :
  queue st = [] →
  rawAsap t st =
    let st1 := set_flushing true (invoke_requestCall (requestFlush st) st) in
    log_scheduled t (set_queue (queue st1 ++ [t]) st1).
Proof.
  intros He. unfold rawAsap, queue_length. rewrite He. done.
Qed.

Lemma rawAsap_fields (t : Entry) st :
  let st' := rawAsap t st in
  queue st' = queue st ++ [t] ∧ index st' = index st ∧
  capacity st' = capacity st ∧ requestFlush st' = requestFlush st ∧
  scheduled st' = scheduled st ++ [t] ∧ called st' = called st ∧
  ext st' = ext st.
Proof.
  unfold rawAsap. destruct (queue_length st =? 0)%Z; simpl; [|done].
  destruct (requestFlush st) eqn:E; simpl; repeat split; done.
Qed.

Lemma rawAsap_all_fields (ts : list Entry) : ∀ st,
  let st' := rawAsap_all ts st in
  queue st' = queue st ++ ts ∧ index st' = index st ∧
  capacity st' = capacity st ∧ requestFlush st' = requestFlush st ∧
  scheduled st' = scheduled st ++ ts ∧ called st' = called st ∧
  ext st' = ext st.
Proof.
  induction ts as [|t ts IH]; intros st; simpl.
  - by rewrite !app_nil_r.
  - destruct (IH (rawAsap t st)) as (-> & -> & -> & -> & -> & -> & ->).
    destruct (rawAsap_fields t st) as (-> & -> & -> & -> & -> & -> & ->).
    by rewrite <- !app_assoc.
Qed.

Lemma rawAsap_all_nonempty (ts : list Entry) : ∀ st,
  queue st ≠ [] →
  host (rawAsap_all ts st) = host st ∧
  flushing (rawAsap_all ts st) = flushing st ∧
  toggle (rawAsap_all ts st) = toggle st.
Proof.
  induction ts as [|t ts IH]; intros st Hne; simpl; [done|].
  destruct (IH (rawAsap t st)) as (-> & -> & ->).
  { destruct (rawAsap_fields t st) as (-> & _). by destruct (queue st). }
  by rewrite (rawAsap_nonempty t st Hne).
Qed.

Lemma request_count_invoke r st :
  request_count (invoke_requestCall r st) = S (request_count st).
Proof.
  unfold request_count. destruct r; simpl;
    rewrite List.filter_app, length_app; simpl; lia.
Qed.
End RawFacts.

Section FlushRules.
Context {Entry Ext : Type}.
Variable call : Entry → Raw Entry Ext → Raw Entry Ext * completion.
Implicit Types (st s : Raw Entry Ext).

Lemma flush_loop_rule (I : Raw Entry Ext → Prop) :
  (∀ s s' r, I s → (index s < queue_length s)%Z →
             flush_body call s = (s', r) → I s') →
  ∀ fuel st st' r, I st → flush_loop call fuel st = Some (st', r) →
    match r with
    | Returned =>
        ∃ s, I s ∧ ¬ (index s < queue_length s)%Z ∧ st' = flush_finish s
    | Threw _ => I st'
    end.
Proof.
  intros Hbody fuel. induction fuel as [|fuel IH]; intros st st' r HI; simpl.
  - destruct (Z.ltb_spec (index st) (queue_length st)); [done|].
    intros [= <- <-]. exists st. split_and!; [done|lia|done].
  - destruct (Z.ltb_spec (index st) (queue_length st)).
    + destruct (flush_body call st) as [s1 r1] eqn:Hb.
      pose proof (Hbody _ _ _ HI ltac:(done) Hb) as HI1.
      destruct r1; [by apply IH|].
      by intros [= <- <-].
    + intros [= <- <-]. exists st. split_and!; [done|lia|done].
Qed.

Lemma flush_loop_total (I : Raw Entry Ext → Prop) (m : Raw Entry Ext → nat) :
  (∀ s, I s → (index s < queue_length s)%Z → 0 < m s) →
  (∀ s s', I s → (index s < queue_length s)%Z →
           flush_body call s = (s', Returned) → I s' ∧ m s' < m s) →
  ∀ fuel st, I st → m st ≤ fuel → is_Some (flush_loop call fuel st).
Proof.
  intros Hpos Hbody fuel. induction fuel as [|fuel IH]; intros st HI Hm; simpl.
  - destruct (Z.ltb_spec (index st) (queue_length st)); [|done].
    pose proof (Hpos _ HI ltac:(done)). lia.
  - destruct (Z.ltb_spec (index st) (queue_length st)); [|done].
    destruct (flush_body call st) as [s1 r1] eqn:Hb.
    destruct r1; [|done].
    destruct (Hbody _ _ HI ltac:(done) Hb) as [HI1 Hlt].
    apply IH; [done|lia].
Qed.
End FlushRules.

Module RawTasksFacts.
Import RawTasks.
Implicit Types (st : state) (t : task) (ts : list task).

Lemma rawAsap_all_steps ts : ∀ st, rtc step st (rawAsap_all ts st).
Proof.
  induction ts as [|t ts IH]; intros st; simpl; [done|].
  eapply rtc_l; [apply step_rawAsap|apply IH].
Qed.

(** One turn of the loop. *)
Lemma turn st st' r :
  (0 ≤ index st)%Z → (index st < queue_length st)%Z →
  flush_body call_task st = (st', r) →
  ∃ t rest,
    array_get (queue st) (index st) = Some t ∧ r = task_result t ∧
    pending st = t :: rest ∧ pending st' = rest ++ task_spawns t ∧
    called st' = called st ++ [t] ∧
    scheduled st' = scheduled st ++ task_spawns t ∧
    cursor_ok st' ∧ capacity st' = capacity st ∧ host st' = host st ∧
    flushing st' = flushing st ∧ queue st ≠ [] ∧
    (r ≠ Returned →
       index st' = (index st + 1)%Z ∧ queue st' = queue st ++ task_spawns t).
Proof.
  intros H0 Hg.
  assert (Hc : cursor_ok st) by (simpl; lia).
  destruct (guard_lookup st Hc Hg) as (t & Ht & Hp).
  unfold flush_body. simpl. rewrite Ht. unfold call_task.
  set (s1 := log_called t (set_index (index st + 1) st)).
  fold (rawAsap_all (task_spawns t) s1).
  pose proof (rawAsap_all_fields (task_spawns t) s1) as Hf. simpl in Hf.
  destruct Hf as (Hq & Hi & Hcap & _ & Hs & Hcl & _).
  assert (Hne : queue st ≠ []).
  { intros E. unfold queue_length in Hg. rewrite E in Hg. simpl in Hg. lia. }
  destruct (rawAsap_all_nonempty (task_spawns t) s1 Hne) as (Hh & Hfl & _).
  set (s2 := rawAsap_all (task_spawns t) s1) in *.
  assert (Hc2 : cursor_ok s2).
  { unfold cursor_ok, queue_length in *. rewrite Hq, Hi, length_app. lia. }
  assert (Hp2 : pending s2 = drop (S (Z.to_nat (index st))) (queue st)
                             ++ task_spawns t).
  { unfold pending. rewrite Hq, Hi.
    replace (Z.to_nat (index st + 1)) with (S (Z.to_nat (index st))) by lia.
    apply drop_app_le. unfold queue_length in Hg. lia. }
  destruct (task_result t) eqn:Hr.
  - destruct (Z.ltb_spec (capacity s2) (index s2)).
    + rewrite compact_spec by done. intros [= <- <-].
      exists t, (drop (S (Z.to_nat (index st))) (queue st)).
      unfold pending, queue_length. simpl. rewrite drop_0.
      fold (pending s2). rewrite Hp2.
      split_and!; try done. unfold queue_length. lia.
    + intros [= <- <-].
      exists t, (drop (S (Z.to_nat (index st))) (queue st)).
      split_and!; try done; apply Hc2.
  - intros [= <- <-].
    exists t, (drop (S (Z.to_nat (index st))) (queue st)).
    split_and!; try done; apply Hc2.
Qed.

Lemma task_size_eq t :
  task_size t = S (list_sum (map task_size (task_spawns t))).
Proof. by destruct t. Qed.

Lemma turn_work st st' :
  (0 ≤ index st)%Z → (index st < queue_length st)%Z →
  flush_body call_task st = (st', Returned) →
  (0 ≤ index st')%Z ∧ work st' < work st.
Proof.
  intros Hinv Hg Hb.
  destruct (turn _ _ _ Hinv Hg Hb) as (t & rest & _ & _ & Hp & Hp' & _ & _ & Hc' & _).
  split; [apply Hc'|]. unfold work. rewrite Hp, Hp'. simpl.
  rewrite map_app, list_sum_app, (task_size_eq t). lia.
Qed.

Lemma guard_work st :
  (0 ≤ index st)%Z → (index st < queue_length st)%Z → 0 < work st.
Proof.
  intros H0 Hg.
  assert (Hc : cursor_ok st) by (simpl; lia).
  destruct (guard_lookup st Hc Hg) as (t & _ & Hp).
  unfold work. rewrite Hp. simpl. rewrite (task_size_eq t). lia.
Qed.

Lemma flush_total st : (0 ≤ index st)%Z → is_Some (flush st).
Proof.
  intros Hinv. unfold flush.
  apply (flush_loop_total call_task (λ s, (0 ≤ index s)%Z) work); try done.
  - apply guard_work.
  - apply turn_work.
Qed.

Lemma turn_inv st st' r :
  inv st → (index st < queue_length st)%Z →
  flush_body call_task st = (st', r) → inv st'.
Proof.
  intros [Hc Hlog] Hg Hb.
  destruct (turn _ _ _ (proj1 Hc) Hg Hb)
    as (t & rest & _ & _ & Hp & Hp' & Hcl & Hs & Hc' & _).
  split; [done|]. rewrite Hs, Hcl, Hp', Hlog, Hp, <- !app_assoc. done.
Qed.

Lemma finish_inv st :
  inv st → ¬ (index st < queue_length st)%Z → inv (flush_finish st).
Proof.
  intros [[H0 Hle] Hlog] Hg. unfold inv, cursor_ok, pending, queue_length in *.
  simpl. split; [lia|]. rewrite Hlog. f_equal.
  apply drop_ge. lia.
Qed.

Lemma rawAsap_inv t st : inv st → inv (rawAsap t st).
Proof.
  intros [[H0 Hle] Hlog].
  destruct (rawAsap_fields t st) as (Hq & Hi & _ & _ & Hs & Hc & _).
  unfold inv, cursor_ok, pending, queue_length in *.
  rewrite Hq, Hi, Hs, Hc, length_app. simpl. split; [lia|].
  rewrite drop_app_le by lia. by rewrite Hlog, app_assoc.
Qed.

Lemma step_inv st st' : inv st → step st st' → inv st'.
Proof.
  intros Hinv Hstep. destruct Hstep as [t st|st e Hg He|st st' r Hcap Hcomp|st Hg].
  - by apply rawAsap_inv.
  - destruct Hinv as [Hc Hlog].
    destruct (guard_lookup st Hc Hg) as (t & Ht & Hp).
    rewrite He in Ht. injection Ht as ->.
    unfold inv, cursor_ok, pending, queue_length in *. simpl.
    split; [lia|]. rewrite Hlog, Hp, <- app_assoc. simpl.
    do 2 f_equal. f_equal. lia.
  - destruct Hinv as [Hc Hlog]. rewrite compact_spec in Hcomp by done.
    injection Hcomp as <- <-.
    unfold inv, cursor_ok, pending, queue_length in *. simpl.
    split; [lia|]. by rewrite drop_0.
  - by apply finish_inv.
Qed.

Lemma init_inv scope : inv (init scope).
Proof. unfold inv, cursor_ok, pending, queue_length. simpl. split; [lia|done]. Qed.

Lemma rtc_step_inv st st' : inv st → rtc step st st' → inv st'.
Proof. intros Hinv Hrtc. induction Hrtc; eauto using step_inv. Qed.

Lemma reachable_inv st : reachable st → inv st.
Proof. intros [scope H]. eapply rtc_step_inv; [apply init_inv|done]. Qed.

Lemma turn_steps st st' r :
  inv st → (index st < queue_length st)%Z →
  flush_body call_task st = (st', r) → rtc step st st'.
Proof.
  intros [Hc Hlog] Hg.
  destruct (guard_lookup st Hc Hg) as (t & Ht & Hp).
  unfold flush_body. simpl. rewrite Ht. unfold call_task.
  set (s1 := log_called t (set_index (index st + 1) st)).
  fold (rawAsap_all (task_spawns t) s1).
  assert (Hs1 : rtc step st (rawAsap_all (task_spawns t) s1)).
  { eapply rtc_l; [by apply (step_enter st t)|apply rawAsap_all_steps]. }
  destruct (task_result t).
  - destruct (Z.ltb_spec (capacity (rawAsap_all (task_spawns t) s1))
                         (index (rawAsap_all (task_spawns t) s1))).
    + intros Hcomp. eapply rtc_r; [done|]. by eapply step_compact.
    + by intros [= <- <-].
  - by intros [= <- <-].
Qed.

Lemma flush_steps st st' r :
  inv st → flush st = Some (st', r) → rtc step st st'.
Proof.
  intros Hinv Hf.
  pose proof (flush_loop_rule call_task (λ s, inv s ∧ rtc step st s)) as Hrule.
  specialize (Hrule ltac:(
    intros s s' r0 [Hi Hr] Hg Hb; split;
      [by eapply turn_inv|by etrans; [|eapply turn_steps]])).
  specialize (Hrule _ _ _ _ (conj Hinv (rtc_refl _ _)) Hf).
  destruct r.
  - destruct Hrule as (s & [Hi Hr] & Hg & ->).
    eapply rtc_r; [done|by apply step_finish].
  - by destruct Hrule.
Qed.

Lemma flush_reachable st st' r :
  reachable st → flush st = Some (st', r) → reachable st'.
Proof.
  intros Hr Hf. pose proof (reachable_inv _ Hr) as Hinv.
  destruct Hr as [scope Hr]. exists scope.
  etrans; [done|by eapply flush_steps].
Qed.
End RawTasksFacts.

Section Sim.
Context {Entry Ext : Type}.
Implicit Types (st : Raw Entry Ext).

Lemma sim_fields st1 st2 :
  sim st1 st2 ↔
  queue st1 = queue st2 ∧ index st1 = index st2 ∧
  capacity st1 = capacity st2 ∧ requestFlush st1 = requestFlush st2 ∧
  toggle st1 = toggle st2 ∧ host st1 = host st2 ∧
  scheduled st1 = scheduled st2 ∧ called st1 = called st2 ∧
  ext st1 = ext st2.
Proof.
  destruct st1, st2. unfold sim, erase_flushing, set_flushing. simpl.
  split.
  - intros [=]. by subst.
  - intros (-> & -> & -> & -> & -> & -> & -> & -> & ->). done.
Qed.

Lemma sim_set_flushing b st : sim (set_flushing b st) st.
Proof. by destruct st. Qed.

Lemma rawAsap_sim (t : Entry) st1 st2 :
  sim st1 st2 → sim (rawAsap t st1) (rawAsap t st2).
Proof.
  intros H. apply sim_fields in H.
  destruct H as (Hq & Hi & Hc & Hr & Ht & Hh & Hs & Hcl & He).
  apply sim_fields. unfold rawAsap, queue_length. rewrite Hq.
  destruct (Z.of_nat (length (queue st2)) =? 0)%Z; simpl.
  - rewrite Hr. destruct (requestFlush st2) eqn:E; simpl;
      rewrite ?Hq, ?Hi, ?Hc, ?Hr, ?E, ?Ht, ?Hh, ?Hs, ?Hcl, ?He; done.
  - rewrite ?Hq, ?Hi, ?Hc, ?Hr, ?Ht, ?Hh, ?Hs, ?Hcl, ?He; done.
Qed.

Lemma compact_sim st1 st2 :
  sim st1 st2 →
  (compact st1).2 = (compact st2).2 ∧ sim (compact st1).1 (compact st2).1.
Proof.
  intros H. apply sim_fields in H.
  destruct H as (Hq & Hi & Hc & Hr & Ht & Hh & Hs & Hcl & He).
  unfold compact, queue_length. rewrite Hq, Hi.
  destruct (_ <? 0)%Z; simpl; (split; [done|]); apply sim_fields; simpl;
    rewrite ?Hq, ?Hi, ?Hc, ?Hr, ?Ht, ?Hh, ?Hs, ?Hcl, ?He; done.
Qed.

Variable call : Entry → Raw Entry Ext → Raw Entry Ext * completion.
Hypothesis call_sim : ∀ e st1 st2,
  sim st1 st2 → (call e st1).2 = (call e st2).2 ∧ sim (call e st1).1 (call e st2).1.

Lemma flush_body_sim st1 st2 :
  sim st1 st2 →
  (flush_body call st1).2 = (flush_body call st2).2 ∧
  sim (flush_body call st1).1 (flush_body call st2).1.
Proof.
  intros H. pose proof H as H'. apply sim_fields in H'.
  destruct H' as (Hq & Hi & Hc & Hr & Ht & Hh & Hs & Hcl & He).
  unfold flush_body. simpl. rewrite Hq, Hi.
  assert (Hadv : ∀ x, sim (log_called x (set_index (index st2 + 1) st1))
                          (log_called x (set_index (index st2 + 1) st2))).
  { intros x. apply sim_fields. simpl. by rewrite Hq, Hc, Hr, Ht, Hh, Hs, Hcl, He. }
  destruct (array_get (queue st2) (index st2)) as [e|]; simpl.
  - destruct (call_sim e _ _ (Hadv e)) as [Hres Hsim].
    destruct (call e (log_called e (set_index (index st2 + 1) st1))) as [s1 r1].
    destruct (call e (log_called e (set_index (index st2 + 1) st2))) as [s2 r2].
    simpl in *. subst r2. destruct r1; [|done].
    pose proof Hsim as Hf. apply sim_fields in Hf.
    destruct Hf as (_ & -> & -> & _).
    destruct (capacity s2 <? index s2)%Z; [by apply compact_sim|done].
  - split; [done|]. apply sim_fields. simpl.
    by rewrite Hq, Hc, Hr, Ht, Hh, Hs, Hcl, He.
Qed.

Lemma flush_finish_sim st1 st2 :
  sim st1 st2 → flush_finish st1 = flush_finish st2.
Proof.
  intros H. apply sim_fields in H.
  destruct H as (Hq & Hi & Hc & Hr & Ht & Hh & Hs & Hcl & He).
  unfold flush_finish, set_flushing, set_index, set_queue. simpl.
  by rewrite Hc, Hr, Ht, Hh, Hs, Hcl, He.
Qed.

Lemma flush_loop_sim fuel : ∀ st1 st2,
  sim st1 st2 →
  match flush_loop call fuel st1, flush_loop call fuel st2 with
  | Some (s1, r1), Some (s2, r2) => r1 = r2 ∧ sim s1 s2
  | None, None => True
  | _, _ => False
  end.
Proof.
  induction fuel as [|fuel IH]; intros st1 st2 H; simpl;
    pose proof H as H'; apply sim_fields in H';
    destruct H' as (Hq & Hi & _); unfold queue_length; rewrite Hq, Hi.
  - destruct (_ <? _)%Z; [done|]. split; [done|].
    by rewrite (flush_finish_sim _ _ H).
  - destruct (_ <? _)%Z.
    + destruct (flush_body_sim _ _ H) as [Hr Hs].
      destruct (flush_body call st1) as [s1 r1].
      destruct (flush_body call st2) as [s2 r2].
      simpl in *. subst r2. destruct r1; [by apply IH|done].
    + split; [done|]. by rewrite (flush_finish_sim _ _ H).
Qed.
End Sim.

Section FlushThrew.
Context {Entry Ext : Type}.
Variable call : Entry → Raw Entry Ext → Raw Entry Ext * completion.

(** A flush that ends in a throw ends in a turn that throws. *)
Lemma flush_loop_threw (I : Raw Entry Ext → Prop) :
  (∀ s s' r, I s → (index s < queue_length s)%Z →
             flush_body call s = (s', r) → I s') →
  ∀ fuel st st' err, I st → flush_loop call fuel st = Some (st', Threw err) →
    ∃ s, I s ∧ (index s < queue_length s)%Z ∧
         flush_body call s = (st', Threw err).
Proof.
  intros Hbody fuel. induction fuel as [|fuel IH]; intros st st' err HI; simpl.
  - destruct (Z.ltb_spec (index st) (queue_length st)); done.
  - destruct (Z.ltb_spec (index st) (queue_length st)); [|done].
    destruct (flush_body call st) as [s1 r1] eqn:Hb.
    pose proof (Hbody _ _ _ HI ltac:(done) Hb) as HI1.
    destruct r1; [by apply IH|].
    intros [= <- <-]. by exists st.
Qed.
End FlushThrew.

Module RawTasksMore.
Import RawTasks RawTasksFacts.
Implicit Types (st : state) (t : task) (ts : list task).

Lemma quiet_inv t :
  quiet t = true →
  task_result t = Returned ∧ Forall (λ c, quiet c = true) (task_spawns t).
Proof.
  destruct t as [i ts r]. simpl. destruct r; [|done].
  intros H. split; [done|].
  apply List.Forall_forall. by apply forallb_forall.
Qed.

Lemma call_task_sim t st1 st2 :
  sim st1 st2 →
  (call_task t st1).2 = (call_task t st2).2 ∧
  sim (call_task t st1).1 (call_task t st2).1.
Proof.
  intros H. split; [done|]. unfold call_task. simpl.
  revert st1 st2 H. induction (task_spawns t) as [|c cs IH]; intros; [done|].
  simpl. apply IH. by apply rawAsap_sim.
Qed.

(** What a whole flush does to the logs and to the host. *)
Lemma flush_summary st st' r :
  inv st → flush st = Some (st', r) →
  inv st' ∧ host st' = host st ∧
  ∃ run newly, called st' = called st ++ run ∧
               scheduled st' = scheduled st ++ newly.
Proof.
  intros Hinv Hf.
  set (I := λ s, inv s ∧ host s = host st ∧
                 ∃ run newly, called s = called st ++ run ∧
                              scheduled s = scheduled st ++ newly).
  assert (Hbody : ∀ s s' r0, I s → (index s < queue_length s)%Z →
                    flush_body call_task s = (s', r0) → I s').
  { intros s s' r0 (Hi & Hh & run & newly & Hc & Hs) Hg Hb.
    destruct (turn _ _ _ (proj1 (proj1 Hi)) Hg Hb)
      as (t & rest & _ & _ & _ & _ & Hcl & Hsc & _ & _ & Hh' & _).
    split; [by eapply turn_inv|]. split; [congruence|].
    exists (run ++ [t]), (newly ++ task_spawns t).
    rewrite Hcl, Hsc, Hc, Hs, <- !app_assoc. done. }
  assert (HI : I st).
  { split; [done|]. split; [done|]. exists [], []. by rewrite !app_nil_r. }
  pose proof (flush_loop_rule call_task I Hbody _ _ _ _ HI Hf) as Hres.
  destruct r; [|done].
  destruct Hres as (s & (Hi & Hh & run & newly & Hc & Hs) & Hg & ->).
  split; [by apply finish_inv|]. split; [done|]. by exists run, newly.
Qed.

(** The entry at the cursor is the first pending one. *)
Lemma pending_head st t rest :
  cursor_ok st → pending st = t :: rest →
  array_get (queue st) (index st) = Some t ∧ (index st < queue_length st)%Z.
Proof.
  intros [H0 Hle] Hp. unfold pending in Hp.
  assert (Hlk : queue st !! Z.to_nat (index st) = Some t).
  { rewrite <- (Nat.add_0_r (Z.to_nat (index st))), <- lookup_drop, Hp. done. }
  split.
  - unfold array_get. destruct (Z.ltb_spec (index st) 0); [lia|done].
  - apply lookup_lt_Some in Hlk. unfold queue_length. lia.
Qed.

(** The calls of a flush: the pending entries from the cursor on,
    followed by the entries scheduled meanwhile, each once and in this
    order, up to the end of the queue when the flush returns, and up to
    and including the first entry that throws otherwise. *)
Lemma flush_loop_calls fuel : ∀ st st' r,
  inv st → flush_loop call_task fuel st = Some (st', r) →
  ∃ run newly,
    called st' = called st ++ run ∧
    run ++ pending st' = pending st ++ newly ∧
    match r with
    | Returned =>
        Forall (λ t, task_result t = Returned) run ∧ pending st' = []
    | Threw err =>
        ∃ before t, run = before ++ [t] ∧
                    Forall (λ t, task_result t = Returned) before ∧
                    task_result t = Threw err
    end.
Proof.
  assert (Hidle : ∀ st, inv st → ¬ (index st < queue_length st)%Z →
            ∃ run newly,
              called (flush_finish st) = called st ++ run ∧
              run ++ pending (flush_finish st) = pending st ++ newly ∧
              Forall (λ t, task_result t = Returned) run ∧
              pending (flush_finish st) = []).
  { intros st [[H0 Hle] _] Hg. exists [], [].
    assert (Hp : pending st = []).
    { unfold pending. apply drop_ge. unfold queue_length in *. lia. }
    rewrite Hp. simpl. by rewrite app_nil_r. }
  induction fuel as [|fuel IH]; intros st st' r Hinv; simpl.
  - destruct (Z.ltb_spec (index st) (queue_length st)); [done|].
    intros [= <- <-]. apply Hidle; [done|lia].
  - destruct (Z.ltb_spec (index st) (queue_length st)) as [Hg|Hg];
      [|intros [= <- <-]; apply Hidle; [done|lia]].
    destruct (flush_body call_task st) as [s1 r1] eqn:Hb.
    destruct (turn _ _ _ (proj1 (proj1 Hinv)) Hg Hb)
      as (t & rest & _ & Hres & Hp & Hp1 & Hcl & _).
    pose proof (turn_inv _ _ _ Hinv Hg Hb) as Hinv1.
    destruct r1 as [|err].
    + intros Hf. destruct (IH _ _ _ Hinv1 Hf) as (run & newly & Hc & Hq & Hm).
      exists (t :: run), (task_spawns t ++ newly). split_and!.
      * rewrite Hc, Hcl, <- app_assoc. done.
      * simpl. rewrite Hq, Hp1, Hp, <- app_assoc. done.
      * destruct r as [|err].
        -- destruct Hm as [Hall Hnil]. split; [|done]. by constructor.
        -- destruct Hm as (before & t' & -> & Hall & Ht').
           exists (t :: before), t'. split_and!; [done|by constructor|done].
    + intros [= <- <-]. exists [t], (task_spawns t). split_and!.
      * done.
      * simpl. by rewrite Hp1, Hp.
      * exists [], t. split_and!; [done|constructor|done].
Qed.
End RawTasksMore.

(** [C4] Every call of [rawAsap] puts the task at the tail of the queue;
    it calls the request primitive and sets [flushing] exactly when the
    queue was empty.  Hence the first call on an empty queue issues one
    request, and the calls that follow it issue none. *)
Theorem C4_rawAsap_requests_iff_queue_empty
    {Entry Ext : Type} (task : Entry) (st : Raw Entry Ext) :
  let st' := rawAsap task st in
  queue st' = queue st ++ [task] ∧
  match queue st with
  | [] => host st' = host (invoke_requestCall (requestFlush st) st) ∧
          request_count st' = S (request_count st) ∧
          flushing st' = true
  | _ :: _ => host st' = host st ∧
              request_count st' = request_count st ∧
              flushing st' = flushing st
  end ∧
  ∀ more, let st'' := rawAsap_all more st' in
          queue st'' = queue st' ++ more ∧
          host st'' = host st' ∧
          request_count st'' = request_count st'.
Proof.
  intros st'.
  destruct (rawAsap_fields task st) as (Hq & _).
  split; [done|]. split.
  - destruct (queue st) as [|e q] eqn:E.
    + subst st'. rewrite (rawAsap_empty task st E). simpl.
      split; [done|]. split; [|done].
      apply (request_count_invoke (requestFlush st) st).
    + subst st'. rewrite (rawAsap_nonempty task st) by (by rewrite E). done.
  - intros more st''.
    destruct (rawAsap_all_fields more st') as (Hq' & _).
    destruct (rawAsap_all_nonempty more st') as (Hh & _).
    { subst st'. rewrite Hq. by destruct (queue st). }
    split; [done|]. split; [done|].
    unfold request_count. subst st''. by rewrite Hh.
Qed.

(** [C5] In a turn of the flush loop the cursor moves past the task
    before the task runs (the task is called in the state [s1] whose
    cursor is already one further, and cannot move it), and a throw
    leaves it there: the thrower sits just below the cursor.  A flush
    always ends; it calls the pending entries from the cursor on and
    then those scheduled meanwhile, each once and in order, all of them
    when it returns, and up to and including the first thrower when it
    throws.  Hence the flush after an interrupted one starts with the
    entry after the thrower and does not call the thrower again.  The
    calls made so far are a prefix of what was scheduled, in any
    reachable state: no scheduled occurrence is called twice, also
    across interrupted flushes. *)
Theorem C5_cursor_advances_before_call (st : RawTasks.state) :
  RawTasks.reachable st →
  scheduled st = called st ++ pending st ∧
  (∀ n, count_occ Nat.eq_dec (map task_id (called st)) n
        ≤ count_occ Nat.eq_dec (map task_id (scheduled st)) n) ∧
  (∀ t,
     (index st < queue_length st)%Z →
     array_get (queue st) (index st) = Some t →
     let s1 := log_called t (set_index (index st + 1) st) in
     let s2 := (RawTasks.call_task t s1).1 in
     index s1 = (index st + 1)%Z ∧ index s2 = (index st + 1)%Z ∧
     flush_body RawTasks.call_task st
     = match task_result t with
       | Threw err => (s2, Threw err)
       | Returned => if (capacity s2 <? index s2)%Z then compact s2
                     else (s2, Returned)
       end) ∧
  (∃ st' r, RawTasks.flush st = Some (st', r)) ∧
  (∀ st' r,
     RawTasks.flush st = Some (st', r) →
     ∃ run newly,
       called st' = called st ++ run ∧
       run ++ pending st' = pending st ++ newly ∧
       match r with
       | Returned =>
           Forall (λ t, task_result t = Returned) run ∧ pending st' = []
       | Threw err =>
           ∃ before t, run = before ++ [t] ∧
                       Forall (λ t, task_result t = Returned) before ∧
                       task_result t = Threw err
       end) ∧
  (∀ st' err,
     RawTasks.flush st = Some (st', Threw err) →
     RawTasks.reachable st' ∧
     ∃ t, array_get (queue st') (index st' - 1) = Some t ∧
          task_result t = Threw err ∧
          last (called st') = Some t ∧
          (∃ st'' r, RawTasks.flush st' = Some (st'', r)) ∧
          ∀ st'' r, RawTasks.flush st' = Some (st'', r) →
            ∃ more newly, called st'' = called st' ++ more ∧
                          more ++ pending st'' = pending st' ++ newly ∧
                          ∀ t' rest, pending st' = t' :: rest →
                            array_get (queue st') (index st') = Some t' ∧
                            ∃ more', more = t' :: more').
Proof.
  intros Hr. pose proof (RawTasksFacts.reachable_inv _ Hr) as Hinv.
  destruct Hinv as [Hc Hlog]. split; [done|]. split.
  { intros n. rewrite Hlog, map_app, count_occ_app. lia. }
  split.
  { intros t Hg Ht s1 s2. split; [done|]. split.
    - unfold s2, RawTasks.call_task. simpl.
      by rewrite (proj1 (proj2 (rawAsap_all_fields (task_spawns t) s1))).
    - unfold flush_body. simpl. rewrite Ht. unfold RawTasks.call_task.
      fold s1. by destruct (task_result t). }
  split.
  { destruct (RawTasksFacts.flush_total st (proj1 Hc)) as [[st' r] Hf].
    by exists st', r. }
  split.
  { intros st' r Hf.
    apply (RawTasksMore.flush_loop_calls _ _ _ _ (conj Hc Hlog) Hf). }
  intros st' err Hf.
  pose proof (RawTasksFacts.flush_reachable _ _ _ Hr Hf) as Hr'.
  split; [done|].
  destruct (flush_loop_threw RawTasks.call_task RawTasks.inv
              RawTasksFacts.turn_inv _ _ _ _ (conj Hc Hlog) Hf)
    as (s & [Hcs Hlogs] & Hg & Hb).
  destruct (RawTasksFacts.turn _ _ _ (proj1 Hcs) Hg Hb)
    as (t & rest & Ht & Hres & _ & _ & Hcl & _ & _ & _ & _ & _ & _ & Hthrow).
  destruct (Hthrow ltac:(done)) as [Hi Hq].
  pose proof (RawTasksFacts.reachable_inv _ Hr') as Hinv'.
  exists t. split_and!.
  - rewrite Hi, Hq. replace (index s + 1 - 1)%Z with (index s) by lia.
    by apply array_get_app.
  - done.
  - rewrite Hcl. apply last_snoc.
  - destruct (RawTasksFacts.flush_total st' (proj1 (proj1 Hinv')))
      as [[st'' r] Hf2].
    by exists st'', r.
  - intros st'' r Hf2.
    destruct (RawTasksMore.flush_loop_calls _ _ _ _ Hinv' Hf2)
      as (more & newly & Hc2 & Hq2 & Hm).
    exists more, newly. split; [done|]. split; [done|].
    intros t' rest' Hp'. split.
    + by destruct (RawTasksMore.pending_head st' t' rest' (proj1 Hinv') Hp').
    + rewrite Hp' in Hq2. destruct more as [|m more'].
      * exfalso. destruct r as [|err2].
        -- destruct Hm as [_ Hnil]. rewrite Hnil in Hq2. done.
        -- destruct Hm as (before & x & Hx & _). by destruct before.
      * simpl in Hq2. injection Hq2 as -> _. by exists more'.
Qed.

(** [C6] Compaction.  With the threshold at 1024 and the cursor above it
    (and within the queue), the compaction block of [flush] moves the
    entry at [cursor + i] to position [i], shortens the queue by [cursor],
    resets the cursor, and leaves the pending entries as they were.  The
    block runs after a call that returns: a turn of the loop whose call
    returns with the cursor above the threshold ends with it, and a turn
    whose call throws leaves the loop before it, with the queue and the
    cursor as the call left them.  So the cursor can stand above the
    threshold when a flush ends, and all through the next one. *)
Theorem C6_compaction {Entry Ext : Type} (st : Raw Entry Ext) :
  capacity st = 1024%Z →
  (capacity st < index st)%Z →
  (index st ≤ queue_length st)%Z →
  (∃ st', compact st = (st', Returned) ∧
          (∀ i : nat, queue st' !! i = queue st !! (Z.to_nat (index st) + i)) ∧
          queue_length st' = (queue_length st - index st)%Z ∧
          length (queue st') = length (pending st) ∧
          index st' = 0%Z ∧
          pending st' = pending st) ∧
  (∀ (call : Entry → Raw Entry Ext → Raw Entry Ext * completion) s0 e,
     array_get (queue s0) (index s0) = Some e →
     call e (log_called e (set_index (index s0 + 1) s0)) = (st, Returned) →
     flush_body call s0 = compact st) ∧
  (∀ (call : Entry → Raw Entry Ext → Raw Entry Ext * completion) s0 e err,
     array_get (queue s0) (index s0) = Some e →
     call e (log_called e (set_index (index s0 + 1) s0)) = (st, Threw err) →
     flush_body call s0 = (st, Threw err) ∧
     ∀ fuel, flush_loop call (S fuel) s0 = Some (st, Threw err)).
Proof.
  intros Hcap Hgt Hle. split_and!.
  - assert (Hc : cursor_ok st) by (simpl; lia).
    rewrite (compact_spec st Hc). eexists. split; [done|].
    unfold pending, queue_length in *. simpl. split_and!.
    + intros i. by rewrite lookup_drop.
    + rewrite length_drop. lia.
    + done.
    + done.
    + by rewrite drop_0.
  - intros call s0 e He Hcall. unfold flush_body. simpl.
    rewrite He, Hcall.
    destruct (Z.ltb_spec (capacity st) (index st)); [done|lia].
  - intros call s0 e err He Hcall.
    assert (Hb : flush_body call s0 = (st, Threw err)).
    { unfold flush_body. simpl. by rewrite He, Hcall. }
    split; [done|]. intros fuel. simpl. rewrite Hb.
    assert (Hg : (index s0 < queue_length s0)%Z).
    { unfold array_get in He. destruct (Z.ltb_spec (index s0) 0); [done|].
      apply lookup_lt_Some in He. unfold queue_length. lia. }
    by destruct (Z.ltb_spec (index s0) (queue_length s0)); [|lia].
Qed.

(** [C7] A flush that returns leaves the queue empty, the cursor at 0 and
    [flushing] false; and a flush does return when none of the pending
    tasks, nor anything they schedule, throws. *)
Theorem C7_flush_completion (st : RawTasks.state) :
  (0 ≤ index st)%Z →
  (∀ st', RawTasks.flush st = Some (st', Returned) →
          queue st' = [] ∧ index st' = 0%Z ∧ flushing st' = false) ∧
  (Forall (λ t, quiet t = true) (pending st) →
   ∃ st', RawTasks.flush st = Some (st', Returned) ∧
          queue st' = [] ∧ index st' = 0%Z ∧ flushing st' = false).
Proof.
  intros H0.
  assert (Hfin : ∀ st', RawTasks.flush st = Some (st', Returned) →
            queue st' = [] ∧ index st' = 0%Z ∧ flushing st' = false).
  { intros st' Hf.
    destruct (flush_loop_rule RawTasks.call_task (λ _, True)
                ltac:(done) _ _ _ _ I Hf) as (s & _ & _ & ->).
    done. }
  split; [done|]. intros Hq.
  destruct (RawTasksFacts.flush_total st H0) as [[st' r] Hf].
  destruct r as [|err]; [exists st'; split; [done|by apply Hfin]|].
  exfalso.
  set (J := λ s : RawTasks.state,
         (0 ≤ index s)%Z ∧ Forall (λ t, quiet t = true) (pending s)).
  assert (Hbody : ∀ s s' r, J s → (index s < queue_length s)%Z →
            flush_body RawTasks.call_task s = (s', r) → J s').
  { intros s s' r [Hs0 Hsq] Hg Hb.
    destruct (RawTasksFacts.turn _ _ _ Hs0 Hg Hb)
      as (t & rest & _ & _ & Hp & Hp' & _ & _ & Hc' & _).
    split; [apply Hc'|]. rewrite Hp', Forall_app.
    rewrite Hp in Hsq. apply Forall_cons in Hsq as [Ht Hrest].
    split; [done|]. by apply RawTasksMore.quiet_inv. }
  destruct (flush_loop_threw RawTasks.call_task J Hbody _ _ _ _ (conj H0 Hq) Hf)
    as (s & [Hs0 Hsq] & Hg & Hb).
  destruct (RawTasksFacts.turn _ _ _ Hs0 Hg Hb)
    as (t & rest & _ & Hres & Hp & _).
  rewrite Hp in Hsq. apply Forall_cons in Hsq as [Ht _].
  apply RawTasksMore.quiet_inv in Ht as [Ht _]. congruence.
Qed.

(** [C8] In every state reached by calls of [rawAsap] and turns of the
    flush loop, in any order, the cursor lies between 0 and the length of
    the queue; so it does after a further [rawAsap], after a flush
    however it ends, after a single turn, and after a compaction. *)
Theorem C8_cursor_within_queue (st : RawTasks.state) :
  RawTasks.reachable st →
  (0 ≤ index st ≤ queue_length st)%Z ∧
  (∀ t, let st' := rawAsap t st in (0 ≤ index st' ≤ queue_length st')%Z) ∧
  (∀ st' r, RawTasks.flush st = Some (st', r) →
            (0 ≤ index st' ≤ queue_length st')%Z) ∧
  (∀ st' r, (index st < queue_length st)%Z →
            flush_body RawTasks.call_task st = (st', r) →
            (0 ≤ index st' ≤ queue_length st')%Z) ∧
  (∀ st' r, (capacity st < index st)%Z → compact st = (st', r) →
            r = Returned ∧ (0 ≤ index st' ≤ queue_length st')%Z).
Proof.
  intros Hr. pose proof (RawTasksFacts.reachable_inv _ Hr) as Hinv.
  split; [apply Hinv|]. split_and!.
  - intros t. apply (RawTasksFacts.rawAsap_inv t st Hinv).
  - intros st' r Hf.
    apply (RawTasksFacts.reachable_inv st').
    by eapply RawTasksFacts.flush_reachable.
  - intros st' r Hg Hb. by apply (RawTasksFacts.turn_inv _ _ _ Hinv Hg Hb).
  - intros st' r Hcap Hcomp.
    pose proof (RawTasksFacts.step_inv _ _ Hinv
                  (RawTasks.step_compact _ _ _ Hcap Hcomp)) as [Hc' _].
    rewrite (compact_spec st (proj1 Hinv)) in Hcomp.
    injection Hcomp as <- <-. done.
Qed.

(** [C10] No operation reads [flushing].  [rawAsap] and [flush] do the
    same on two states that differ only in that flag; [rawAsap] calls the
    request primitive exactly when the queue is empty.  After a flush
    that a throwing task interrupted the queue is not empty, so every
    later [rawAsap] appends its task and asks nothing of the host. *)
Theorem C10_flushing_is_write_only (st : RawTasks.state) :
  (∀ b t, erase_flushing (rawAsap t (set_flushing b st))
          = erase_flushing (rawAsap t st)) ∧
  (∀ b, match RawTasks.flush (set_flushing b st), RawTasks.flush st with
        | Some (s1, r1), Some (s2, r2) =>
            r1 = r2 ∧ erase_flushing s1 = erase_flushing s2
        | None, None => True
        | _, _ => False
        end) ∧
  (∀ t, host (rawAsap t st) = host st ↔ queue st ≠ []) ∧
  (RawTasks.reachable st →
   ∀ st' err, RawTasks.flush st = Some (st', Threw err) →
     queue st' ≠ [] ∧
     ∀ ts, let st'' := rawAsap_all ts st' in
           queue st'' = queue st' ++ ts ∧
           host st'' = host st' ∧
           request_count st'' = request_count st').
Proof.
  split_and!.
  - intros b t. apply (rawAsap_sim t). apply sim_set_flushing.
  - intros b. unfold RawTasks.flush.
    change (RawTasks.work (set_flushing b st)) with (RawTasks.work st).
    apply (flush_loop_sim RawTasks.call_task RawTasksMore.call_task_sim).
    apply sim_set_flushing.
  - intros t. split.
    + intros Hh E. rewrite (rawAsap_empty t st E) in Hh. simpl in Hh.
      apply (f_equal length) in Hh.
      destruct (requestFlush st); simpl in Hh; rewrite length_app in Hh;
        simpl in Hh; lia.
    + intros Hne. by rewrite (rawAsap_nonempty t st Hne).
  - intros Hr st' err Hf.
    pose proof (RawTasksFacts.reachable_inv _ Hr) as Hinv.
    destruct (flush_loop_threw RawTasks.call_task RawTasks.inv
                RawTasksFacts.turn_inv _ _ _ _ Hinv Hf)
      as (s & [Hcs Hlogs] & Hg & Hb).
    destruct (RawTasksFacts.turn _ _ _ (proj1 Hcs) Hg Hb)
      as (t & rest & _ & Hres & _ & _ & _ & _ & _ & _ & _ & _ & Hne & Hthrow).
    destruct (Hthrow ltac:(done)) as [_ Hq].
    assert (Hne' : queue st' ≠ []).
    { rewrite Hq. by destruct (queue s). }
    split; [done|]. intros ts st''.
    destruct (rawAsap_all_fields ts st') as (Hq' & _).
    destruct (rawAsap_all_nonempty ts st' Hne') as (Hh & _).
    split; [done|]. split; [done|].
    unfold request_count. subst st''. by rewrite Hh.
Qed.

(** ** The error-isolating scheduler *)

Module AsapFacts.
Import Asap.
Implicit Types (st : state) (t : task) (ts : list task) (h : nat) (d : list nat).

Lemma asap_fields t st :
  let st' := asap t st in
  ∃ h hs,
    match last (freeTasks (ext st)) with
    | Some h0 => h = h0 ∧ hs = holders (ext st)
    | None => h = length (holders (ext st)) ∧ hs = holders (ext st) ++ [None]
    end ∧
    st' = rawAsap h (upd (set_holders (<[h := Some t]> hs))
                       (upd (set_freeTasks
                               (take (length (freeTasks (ext st)) - 1)
                                     (freeTasks (ext st))))
                            (upd (log_asap t) st))).
Proof.
  unfold asap. cbv zeta.
  change (freeTasks (ext (upd (log_asap t) st))) with (freeTasks (ext st)).
  destruct (last (freeTasks (ext st))) as [h0|] eqn:E.
  - exists h0, (holders (ext st)). done.
  - exists (length (holders (ext st))), (holders (ext st) ++ [None]).
    split; [done|]. apply last_None in E.
    unfold getRawTask, upd. simpl. rewrite E. simpl.
    destruct st as [? ? ? ? ? ? ? ? ? []]. simpl in *. subst. reflexivity.
Qed.

Lemma asap_frame t st :
  let st' := asap t st in
  index st' = index st ∧ capacity st' = capacity st ∧
  requestFlush st' = requestFlush st ∧
  pendingErrors (ext st') = pendingErrors (ext st) ∧
  requestErrorThrow (ext st') = requestErrorThrow (ext st) ∧
  onerror (ext st') = onerror (ext st) ∧
  asap_log (ext st') = asap_log (ext st) ++ [t] ∧
  task_log (ext st') = task_log (ext st) ∧
  hook_log (ext st') = hook_log (ext st) ∧
  called st' = called st ∧
  freeTasks (ext st')
  = take (length (freeTasks (ext st)) - 1) (freeTasks (ext st)) ∧
  length (holders (ext st)) ≤ length (holders (ext st')) ∧
  (queue st ≠ [] → host st' = host st).
Proof.
  intros st'. destruct (asap_fields t st) as (h & hs & Hh & Hst).
  fold st' in Hst. rewrite Hst.
  match goal with |- context [rawAsap h ?s] =>
    assert (Hhost : queue st ≠ [] → host (rawAsap h s) = host st)
      by (by intros Hq0; rewrite (rawAsap_nonempty h s));
    destruct (rawAsap_fields h s) as (Hq & -> & -> & -> & _ & -> & ->)
  end.
  simpl in *. split_and!; try done.
  rewrite length_insert.
  destruct (last (freeTasks (ext st))); destruct Hh as [_ ->];
    rewrite ?length_app; simpl; lia.
Qed.

Lemma pending_snoc (x : nat) (q : list nat) (i : Z) :
  (0 ≤ i ≤ Z.of_nat (length q))%Z →
  drop (Z.to_nat i) (q ++ [x]) = drop (Z.to_nat i) q ++ [x].
Proof. intros. apply drop_app_le. lia. Qed.

Lemma work_ext st st' (l : list nat) :
  (∀ x, x ∈ l → bound st' x = bound st x) →
  map (holder_work st') l = map (holder_work st) l.
Proof.
  intros H. apply map_ext_in. intros x Hx. unfold holder_work.
  rewrite H; [done|]. by apply list_elem_of_In.
Qed.

Lemma omap_bound_ext st st' (l : list nat) :
  (∀ x, x ∈ l → bound st' x = bound st x) →
  omap (bound st') l = omap (bound st) l.
Proof.
  intros H. apply list_omap_ext. apply Forall2_same_length_lookup.
  split; [done|]. intros i x y Hx Hy. rewrite Hx in Hy. injection Hy as <-.
  apply H. by eapply list_elem_of_lookup_2.
Qed.

(** [asap] keeps the shape of the state and adds one pending holder
    bound to the task. *)
Lemma asap_wf d t st :
  wf_detached d st →
  let st' := asap t st in
  wf_detached d st' ∧
  pending_tasks st' = pending_tasks st ++ [t] ∧
  work st' = work st + task_size t ∧
  ∃ h, queue st' = queue st ++ [h].
Proof.
  intros [Hc Hnd Hal Hb Hlog Htm] st'.
  destruct (asap_frame t st) as (Hi & _ & _ & _ & Hret & _ & Hal' & Htl & _ & _ & Hfr & _).
  destruct (asap_fields t st) as (h & hs & Hh & Hst). fold st' in Hst, Hi, Hret, Hal', Htl, Hfr.
  assert (Hq : queue st' = queue st ++ [h]).
  { rewrite Hst. by rewrite (proj1 (rawAsap_fields h _)). }
  assert (Hhs : holders (ext st') = <[h := Some t]> hs).
  { rewrite Hst. by rewrite (proj2 (proj2 (proj2 (proj2 (proj2 (proj2
      (rawAsap_fields h _))))))). }
  assert (Hp : pending st' = pending st ++ [h]).
  { unfold pending. rewrite Hq, Hi. apply pending_snoc. apply Hc. }
  set (fs' := take (length (freeTasks (ext st)) - 1) (freeTasks (ext st))) in *.
  assert (Hcase :
    length (holders (ext st)) ≤ length hs ∧ h < length hs ∧
    (∀ x, x < length (holders (ext st)) → hs !! x = holders (ext st) !! x) ∧
    (h ∉ d ++ pending st) ∧
    NoDup (d ++ (pending st ++ [h]) ++ fs') ∧
    (∀ x, x ∈ d ++ (pending st ++ [h]) ++ fs' → x < length hs)).
  { destruct (last (freeTasks (ext st))) as [h0|] eqn:E; destruct Hh as [-> ->].
    - apply last_Some in E as [fs E].
      assert (fs' = fs) as ->.
      { unfold fs'. rewrite E, length_app. simpl.
        replace (length fs + 1 - 1) with (length fs) by lia.
        by rewrite take_app_length. }
      rewrite E in Hnd, Hal.
      assert (HP : d ++ (pending st ++ [h0]) ++ fs
                   ≡ₚ d ++ pending st ++ fs ++ [h0]) by solve_Permutation.
      split_and!; try done.
      + apply Hal. rewrite !elem_of_app, list_elem_of_singleton. auto.
      + rewrite app_assoc in Hnd. apply NoDup_app in Hnd as (_ & Hdisj & _).
        intros Hin. apply (Hdisj h0 Hin).
        rewrite elem_of_app, list_elem_of_singleton. auto.
      + by rewrite HP.
      + intros x Hx. rewrite HP in Hx. by apply Hal.
    - apply last_None in E. unfold fs'. rewrite E in *. simpl.
      rewrite length_app. simpl.
      assert (Hnin : length (holders (ext st)) ∉ d ++ pending st).
      { intros Hin. specialize (Hal (length (holders (ext st)))).
        rewrite app_nil_r in Hal. specialize (Hal Hin). lia. }
      assert (HP : d ++ (pending st ++ [length (holders (ext st))]) ++ []
                   ≡ₚ length (holders (ext st)) :: (d ++ pending st ++ []))
        by solve_Permutation.
      split_and!; try done; try lia.
      + intros x Hx. by apply lookup_app_l.
      + rewrite HP. apply NoDup_cons. split; [by rewrite app_nil_r|done].
      + intros x Hx. rewrite HP in Hx. apply elem_of_cons in Hx as [->|Hx]; [lia|].
        apply Hal in Hx. lia. }
  destruct Hcase as (Hlen & Hh' & Hhs' & Hnin & Hnd' & Hal2).
  assert (Hbeq : ∀ x, x ∈ d ++ pending st → bound st' x = bound st x).
  { intros x Hx. unfold bound. rewrite Hhs.
    assert (x ≠ h) by (intros ->; done).
    rewrite list_lookup_insert_ne by done.
    rewrite Hhs'; [done|]. apply Hal. rewrite app_assoc, elem_of_app. auto. }
  assert (Hbh : bound st' h = Some t).
  { unfold bound. rewrite Hhs. by rewrite list_lookup_insert_eq. }
  assert (Hpt : pending_tasks st' = pending_tasks st ++ [t]).
  { unfold pending_tasks. rewrite Hp, omap_app. simpl. rewrite Hbh. simpl.
    f_equal. apply omap_bound_ext. intros x Hx. apply Hbeq.
    rewrite elem_of_app. auto. }
  split_and!.
  - constructor.
    + destruct Hc as [H0 Hle]. unfold cursor_ok, queue_length in *.
      rewrite Hq, Hi, length_app. simpl. lia.
    + by rewrite Hp, Hfr.
    + intros x. rewrite Hp, Hfr, Hhs, length_insert. apply Hal2.
    + intros x. rewrite Hp, elem_of_app, list_elem_of_singleton.
      intros [Hx| ->]; [|by rewrite Hbh].
      rewrite Hbeq; [by apply Hb|]. rewrite elem_of_app. auto.
    + rewrite Hpt, Htl, Hal'. by rewrite Hlog, app_assoc.
    + by rewrite Hret.
  - done.
  - unfold work. rewrite Hp, map_app, list_sum_app. simpl.
    unfold holder_work at 2. rewrite Hbh.
    rewrite (work_ext st st'); [lia|].
    intros x Hx. apply Hbeq. rewrite elem_of_app. auto.
  - by exists h.
Qed.

Lemma schedule_all_frame ts : ∀ st,
  let st' := schedule_all ts st in
  index st' = index st ∧ capacity st' = capacity st ∧
  requestFlush st' = requestFlush st ∧
  pendingErrors (ext st') = pendingErrors (ext st) ∧
  requestErrorThrow (ext st') = requestErrorThrow (ext st) ∧
  onerror (ext st') = onerror (ext st) ∧
  asap_log (ext st') = asap_log (ext st) ++ ts ∧
  task_log (ext st') = task_log (ext st) ∧
  hook_log (ext st') = hook_log (ext st) ∧
  called st' = called st ∧
  freeTasks (ext st')
  = take (length (freeTasks (ext st)) - length ts) (freeTasks (ext st)) ∧
  length (holders (ext st)) ≤ length (holders (ext st')) ∧
  (queue st ≠ [] → host st' = host st ∧ queue st' ≠ []).
Proof.
  induction ts as [|t ts IH]; intros st; simpl.
  - rewrite app_nil_r, Nat.sub_0_r, take_ge by lia. split_and!; done.
  - destruct (IH (asap t st)) as (-> & -> & -> & -> & -> & -> & -> & -> & -> & -> & -> & Hlen & Hhost).
    destruct (asap_frame t st) as (-> & -> & -> & -> & -> & -> & -> & -> & -> & -> & -> & Hlen' & Hhost').
    split_and!; try done.
    + by rewrite <- app_assoc.
    + rewrite length_take, take_take. f_equal. lia.
    + lia.
    + intros Hne. destruct Hhost as [-> Hq].
      * destruct (asap_fields t st) as (h & hs & _ & ->).
        destruct (rawAsap_fields h
          (upd (set_holders (<[h:=Some t]> hs))
             (upd (set_freeTasks
                     (take (length (freeTasks (ext st)) - 1)
                           (freeTasks (ext st))))
                  (upd (log_asap t) st)))) as (-> & _).
        simpl. by destruct (queue st).
      * split; [by apply Hhost'|done].
Qed.

Lemma schedule_all_wf d ts : ∀ st,
  wf_detached d st →
  let st' := schedule_all ts st in
  wf_detached d st' ∧
  pending_tasks st' = pending_tasks st ++ ts ∧
  work st' = work st + list_sum (map task_size ts).
Proof.
  induction ts as [|t ts IH]; intros st Hwf; simpl.
  - rewrite app_nil_r. split_and!; [done|done|lia].
  - destruct (asap_wf d t st Hwf) as (Hwf1 & Hpt & Hw & _).
    destruct (IH _ Hwf1) as (Hwf2 & -> & ->).
    split; [done|]. rewrite Hpt, Hw, <- app_assoc. split; [done|lia].
Qed.

(** The shape depends on the queue, the cursor, the heap, the pool, two
    of the logs and the closure for the deferred throw only. *)
Lemma wf_detached_ext d st st' :
  queue st' = queue st → index st' = index st →
  holders (ext st') = holders (ext st) →
  freeTasks (ext st') = freeTasks (ext st) →
  asap_log (ext st') = asap_log (ext st) →
  task_log (ext st') = task_log (ext st) →
  requestErrorThrow (ext st') = requestErrorThrow (ext st) →
  wf_detached d st →
  wf_detached d st' ∧ pending_tasks st' = pending_tasks st ∧
  work st' = work st.
Proof.
  intros Hq Hi Hh Hf Ha Ht Hr [Hc Hnd Hal Hb Hlog Htm].
  assert (Hp : pending st' = pending st) by (unfold pending; by rewrite Hq, Hi).
  assert (Hbd : ∀ x, bound st' x = bound st x) by (intros x; unfold bound; by rewrite Hh).
  assert (Hpt : pending_tasks st' = pending_tasks st).
  { unfold pending_tasks. rewrite Hp. apply omap_bound_ext. auto. }
  split_and!.
  - constructor.
    + unfold cursor_ok, queue_length in *. by rewrite Hq, Hi.
    + by rewrite Hp, Hf.
    + intros x. rewrite Hp, Hf, Hh. apply Hal.
    + intros x. rewrite Hp, Hbd. apply Hb.
    + by rewrite Ha, Ht, Hpt.
    + by rewrite Hr.
  - done.
  - unfold work. rewrite Hp. f_equal. apply work_ext. auto.
Qed.

(** The [finally] block on a detached, allocated holder. *)
Lemma release_wf h st :
  wf_detached [h] st →
  let st3 := upd (set_holders (<[h := None]> (holders (ext st)))) st in
  let st' := upd (set_freeTasks (freeTasks (ext st3) ++ [h])) st3 in
  wf_detached [] st' ∧ pending_tasks st' = pending_tasks st ∧
  work st' = work st.
Proof.
  intros [Hc Hnd Hal Hb Hlog Htm] st3 st'.
  assert (Hp : pending st' = pending st) by done.
  assert (Hnin : h ∉ pending st).
  { apply NoDup_app in Hnd as (_ & Hdisj & _). intros Hin.
    apply (Hdisj h); [apply list_elem_of_singleton; done|].
    rewrite elem_of_app. auto. }
  assert (Hbd : ∀ x, x ∈ pending st → bound st' x = bound st x).
  { intros x Hx. unfold bound. simpl.
    rewrite list_lookup_insert_ne; [done|]. by intros ->. }
  assert (Hpt : pending_tasks st' = pending_tasks st).
  { unfold pending_tasks. rewrite Hp. by apply omap_bound_ext. }
  split_and!.
  - constructor.
    + done.
    + simpl. rewrite Hp.
      assert (HP : pending st ++ freeTasks (ext st) ++ [h]
                   ≡ₚ [h] ++ pending st ++ freeTasks (ext st))
        by solve_Permutation.
      by rewrite HP.
    + intros x. simpl. rewrite Hp, length_insert. intros Hx. apply Hal.
      rewrite !elem_of_app in *. rewrite list_elem_of_singleton in *. tauto.
    + intros x. rewrite Hp. intros Hx. rewrite Hbd by done. by apply Hb.
    + by rewrite Hpt.
    + done.
  - done.
  - unfold work. rewrite Hp. f_equal. by apply work_ext.
Qed.

Lemma holder_call_spec h t s s' r :
  holders (ext s) !! h = Some (Some t) →
  wf_detached [h] (upd (log_task t) s) →
  queue s ≠ [] →
  holder_call h s = (s', r) →
  wf s' ∧
  pending_tasks s' = pending_tasks (upd (log_task t) s) ++ task_spawns t ∧
  work s' = work (upd (log_task t) s) + list_sum (map task_size (task_spawns t)) ∧
  index s' = index s ∧ capacity s' = capacity s ∧
  onerror (ext s') = onerror (ext s) ∧
  task_log (ext s') = task_log (ext s) ++ [t] ∧
  asap_log (ext s') = asap_log (ext s) ++ task_spawns t ∧
  call_outcome t s s' r.
Proof.
  intros Hlk Hwf Hne. unfold holder_call. rewrite Hlk.
  unfold call_bound_task. fold (schedule_all (task_spawns t) (upd (log_task t) s)).
  set (s0 := upd (log_task t) s) in *.
  destruct (schedule_all_wf [h] (task_spawns t) s0 Hwf) as (Hwf1 & Hpt1 & Hw1).
  destruct (schedule_all_frame (task_spawns t) s0)
    as (Hi & Hcap & _ & Hpe & Hret & Hon & Hal & Htl & Hhl & _ & _ & _ & Hhost).
  destruct (Hhost Hne) as [Hh _]. clear Hhost.
  set (s1 := schedule_all (task_spawns t) s0) in *.
  unfold call_outcome.
  destruct (task_result t) as [|err] eqn:Hres.
  - intros [= <- <-].
    destruct (release_wf h s1 Hwf1) as (Hwf' & Hpt' & Hw').
    split_and!; try done.
    + by etrans; [apply Hpt'|].
    + by etrans; [apply Hw'|].
  - change (onerror (ext s)) with (onerror (ext s0)). rewrite <- Hon.
    destruct (onerror (ext s1)) as [hook|] eqn:Hhook.
    + intros [= <- <-].
      destruct (wf_detached_ext [h] s1 (upd (log_hook err) s1)) as (Hwf2 & Hpt2 & Hw2);
        try done.
      destruct (release_wf h _ Hwf2) as (Hwf' & Hpt' & Hw').
      split_and!; try done.
      * etrans; [apply Hpt'|]. by rewrite Hpt2.
      * etrans; [apply Hw'|]. by rewrite Hw2.
      * simpl. by rewrite Hhl.
    + cbv zeta.
      change (requestErrorThrow (ext (upd (set_pendingErrors
                (pendingErrors (ext s1) ++ [err])) s1)))
        with (requestErrorThrow (ext s1)).
      rewrite (wf_timer _ _ Hwf1). simpl invoke_requestCall.
      intros [= <- <-].
      match goal with |- wf (upd _ (upd _ ?s2)) ∧ _ =>
        destruct (wf_detached_ext [h] s1 s2) as (Hwf2 & Hpt2 & Hw2); try done;
        destruct (release_wf h _ Hwf2) as (Hwf' & Hpt' & Hw')
      end.
      split_and!; try done.
      * etrans; [apply Hpt'|]. by rewrite Hpt2.
      * etrans; [apply Hw'|]. by rewrite Hw2.
      * simpl. by rewrite Hpe.
      * simpl. by rewrite Hh.
Qed.

Lemma compact_wf st :
  wf st →
  let st' := set_index 0 (set_queue (pending st) st) in
  wf st' ∧ pending_tasks st' = pending_tasks st ∧ work st' = work st.
Proof.
  intros [Hc Hnd Hal Hb Hlog Htm] st'.
  assert (Hp : pending st' = pending st) by (unfold pending; simpl; apply drop_0).
  assert (Hpt : pending_tasks st' = pending_tasks st).
  { unfold pending_tasks. rewrite Hp. by apply omap_bound_ext. }
  split_and!.
  - constructor.
    + unfold cursor_ok, queue_length. simpl. lia.
    + by rewrite Hp.
    + intros x. rewrite Hp. apply Hal.
    + intros x. rewrite Hp. apply Hb.
    + by rewrite Hpt.
    + done.
  - done.
  - unfold work. by rewrite Hp.
Qed.

(** One turn of the flush loop of an [Asap] instance. *)
Lemma safe_turn st st' r :
  wf st → (index st < queue_length st)%Z →
  flush_body holder_call st = (st', r) →
  ∃ t rest,
    pending_tasks st = t :: rest ∧
    pending_tasks st' = rest ++ task_spawns t ∧
    wf st' ∧ work st' < work st ∧
    onerror (ext st') = onerror (ext st) ∧
    task_log (ext st') = task_log (ext st) ++ [t] ∧
    asap_log (ext st') = asap_log (ext st) ++ task_spawns t ∧
    call_outcome t st st' r ∧ queue st ≠ [].
Proof.
  intros Hwf Hg. pose proof Hwf as [Hc Hnd Hal Hb Hlog Htm].
  destruct (guard_lookup st Hc Hg) as (h & Hh & Hp).
  set (rest := drop (S (Z.to_nat (index st))) (queue st)) in *.
  destruct (Hb h) as [t Ht]; [rewrite Hp; apply elem_of_cons; auto|].
  assert (Hlk : holders (ext st) !! h = Some (Some t)).
  { unfold bound in Ht. destruct (holders (ext st) !! h) as [[?|]|]; by simplify_eq/=. }
  assert (Hne : queue st ≠ []).
  { intros E. unfold queue_length in Hg. rewrite E in Hg. simpl in *. lia. }
  assert (Hpt : pending_tasks st = t :: omap (bound st) rest).
  { unfold pending_tasks. rewrite Hp. simpl. by rewrite Ht. }
  unfold flush_body. simpl. rewrite Hh.
  set (sA := log_called h (set_index (index st + 1) st)).
  assert (HpA : pending (upd (log_task t) sA) = rest).
  { unfold pending. simpl.
    replace (Z.to_nat (index st + 1)) with (S (Z.to_nat (index st)));
      [done|]. destruct Hc. lia. }
  assert (HwfA : wf_detached [h] (upd (log_task t) sA)).
  { constructor.
    - destruct Hc. unfold cursor_ok, queue_length in *. simpl. lia.
    - rewrite HpA. simpl. by rewrite Hp in Hnd.
    - intros x. rewrite HpA. simpl. rewrite Hp in Hal. apply Hal.
    - intros x. rewrite HpA. intros Hx. apply (Hb x). rewrite Hp.
      apply elem_of_cons. auto.
    - unfold pending_tasks. rewrite HpA. simpl.
      rewrite Hlog, Hpt, <- app_assoc. done.
    - done. }
  assert (HptA : pending_tasks (upd (log_task t) sA) = omap (bound st) rest).
  { unfold pending_tasks. by rewrite HpA. }
  assert (HwA : work st = task_size t + work (upd (log_task t) sA)).
  { unfold work. rewrite HpA, Hp. simpl. unfold holder_work at 1.
    by rewrite Ht. }
  destruct (holder_call h sA) as [s2 r2] eqn:Hcall.
  destruct (holder_call_spec h t sA s2 r2 Hlk HwfA Hne Hcall)
    as (Hwf2 & Hpt2 & Hw2 & Hi2 & Hcap2 & Hon2 & Htl2 & Hal2 & Hout).
  rewrite HptA in Hpt2.
  assert (Hlt : work s2 < work st).
  { rewrite Hw2, HwA, (RawTasksFacts.task_size_eq t). lia. }
  assert (Hfinal : ∀ s3,
    wf s3 → pending_tasks s3 = pending_tasks s2 → work s3 = work s2 →
    ext s3 = ext s2 → host s3 = host s2 →
    (s3, r2) = (st', r) →
    ∃ t0 rest0,
      pending_tasks st = t0 :: rest0 ∧
      pending_tasks st' = rest0 ++ task_spawns t0 ∧
      wf st' ∧ work st' < work st ∧
      onerror (ext st') = onerror (ext st) ∧
      task_log (ext st') = task_log (ext st) ++ [t0] ∧
      asap_log (ext st') = asap_log (ext st) ++ task_spawns t0 ∧
      call_outcome t0 st st' r ∧ queue st ≠ []).
  { intros s3 Hwf3 Hpt3 Hw3 He3 Hh3 [= <- <-].
    exists t, (omap (bound st) rest).
    split_and!; try done.
    - by rewrite Hpt3.
    - by rewrite Hw3.
    - by rewrite He3.
    - by rewrite He3.
    - by rewrite He3.
    - unfold call_outcome in *. rewrite He3, Hh3. exact Hout. }
  destruct r2 as [|err].
  - destruct (Z.ltb_spec (capacity s2) (index s2)).
    + rewrite (compact_spec s2 (wf_cursor _ _ Hwf2)).
      destruct (compact_wf s2 Hwf2) as (Hwf3 & Hpt3 & Hw3).
      by apply Hfinal.
    + by apply Hfinal.
  - by apply Hfinal.
Qed.

Lemma safe_guard_work st :
  wf st → (index st < queue_length st)%Z → 0 < work st.
Proof.
  intros Hwf Hg. destruct (flush_body holder_call st) as [s r] eqn:Hb.
  destruct (safe_turn _ _ _ Hwf Hg Hb) as (_ & _ & _ & _ & _ & Hlt & _). lia.
Qed.

Lemma safe_flush_total st : wf st → is_Some (flush st).
Proof.
  intros Hwf. unfold flush.
  apply (flush_loop_total holder_call wf work); try done.
  - apply safe_guard_work.
  - intros s s' Hs Hg Hb.
    by destruct (safe_turn _ _ _ Hs Hg Hb) as (_ & _ & _ & _ & ? & ? & _).
Qed.

Lemma finish_wf st :
  wf st → ¬ (index st < queue_length st)%Z → wf (flush_finish st).
Proof.
  intros [Hc Hnd Hal Hb Hlog Htm] Hg.
  assert (Hp : pending st = []).
  { unfold pending. apply drop_ge. destruct Hc. unfold queue_length in *. lia. }
  assert (Hpt : pending_tasks st = []) by (unfold pending_tasks; by rewrite Hp).
  rewrite Hp in Hnd, Hal.
  constructor.
  - unfold cursor_ok, queue_length. simpl. lia.
  - done.
  - done.
  - intros x. unfold pending. simpl. by intros ?%elem_of_nil.
  - unfold pending_tasks, pending. simpl. rewrite Hlog, Hpt. done.
  - done.
Qed.

Lemma flush_progress_turn st s s' r :
  flush_progress st s → (index s < queue_length s)%Z →
  flush_body holder_call s = (s', r) → flush_progress st s'.
Proof.
  intros (Hwf & Hon & run & Htl & Hal & Herr) Hg Hb.
  destruct (safe_turn _ _ _ Hwf Hg Hb)
    as (t & rest & _ & _ & Hwf' & _ & Hon' & Htl' & Hal' & Hout & _).
  split; [done|]. split; [congruence|].
  exists (run ++ [t]). split_and!.
  - by rewrite Htl', Htl, app_assoc.
  - rewrite Hal', Hal, bind_app, <- app_assoc. simpl. by rewrite app_nil_r.
  - intros Hnone. destruct (Herr Hnone) as [Hpe Hh].
    unfold call_outcome in Hout. rewrite Hon, Hnone in Hout.
    unfold errors_of, error_timers in *. rewrite omap_app, bind_app. simpl.
    destruct (task_result t) as [|err]; simpl.
    + destruct Hout as (_ & -> & -> & _). by rewrite !app_nil_r.
    + destruct Hout as (_ & -> & -> & _). by rewrite Hpe, Hh, <- !app_assoc.
Qed.

Lemma flush_progress_refl st : wf st → flush_progress st st.
Proof.
  intros Hwf. split; [done|]. split; [done|]. exists [].
  simpl. rewrite !app_nil_r. done.
Qed.

(** With no hook, or with a hook that returns, a flush returns. *)
Lemma flush_returns st st' r :
  wf st → hook_returns st → flush st = Some (st', r) → r = Returned.
Proof.
  intros Hwf Hhook Hf. destruct r as [|err]; [done|]. exfalso.
  destruct (flush_loop_threw holder_call (flush_progress st)
              (flush_progress_turn st) _ _ _ _ (flush_progress_refl st Hwf) Hf)
    as (s & (Hwfs & Hon & _) & Hg & Hb).
  destruct (safe_turn _ _ _ Hwfs Hg Hb) as (t & rest & _ & _ & _ & _ & _ & _ & _ & Hout & _).
  unfold call_outcome in Hout. rewrite Hon in Hout.
  destruct (task_result t) as [|e]; [by destruct Hout|].
  destruct (onerror (ext st)) as [hook|] eqn:Hh; [|by destruct Hout].
  destruct Hout as [Hr _]. rewrite (Hhook hook e Hh) in Hr. done.
Qed.

(** What a flush that returns has done. *)
Lemma safe_flush_summary st st' :
  wf st → flush st = Some (st', Returned) →
  wf st' ∧ queue st' = [] ∧ flush_progress st st'.
Proof.
  intros Hwf Hf.
  destruct (flush_loop_rule holder_call (flush_progress st)
              (flush_progress_turn st) _ _ _ _ (flush_progress_refl st Hwf) Hf)
    as (s & (Hwfs & Hon & Hrun) & Hg & ->).
  pose proof (finish_wf s Hwfs Hg) as Hwf'.
  split; [done|]. split; [done|]. split; [done|]. split; [done|]. exact Hrun.
Qed.
End AsapFacts.

Module AsapMore.
Import Asap AsapFacts.
Implicit Types (st : state) (t : task) (ts : list task) (h : nat).

Lemma wf_init scope : wf (init scope).
Proof.
  constructor; try done.
  - simpl. apply NoDup_nil_2.
  - intros h. simpl. by intros ?%elem_of_nil.
  - intros h. unfold pending. simpl. by intros ?%elem_of_nil.
Qed.

Lemma hook_returns_init scope : hook_returns (init scope).
Proof. by intros hook e. Qed.

Lemma constructor_standalone scope :
  Asap_constructor module_standalone scope = inr (init scope).
Proof. reflexivity. Qed.

Lemma flush_wf st st' r : wf st → flush st = Some (st', r) → wf st'.
Proof.
  intros Hwf Hf.
  assert (Hbody : ∀ s s' r0, wf s → (index s < queue_length s)%Z →
            flush_body holder_call s = (s', r0) → wf s').
  { intros s s' r0 Hs Hg Hb.
    by destruct (safe_turn _ _ _ Hs Hg Hb) as (_ & _ & _ & _ & ? & _). }
  pose proof (flush_loop_rule holder_call wf Hbody _ _ _ _ Hwf Hf) as Hres.
  destruct r; [|done].
  destruct Hres as (s & Hs & Hg & ->). by apply finish_wf.
Qed.

Lemma host_step_wf st st' : wf st → host_step st st' → wf st'.
Proof.
  intros Hwf Hstep. destruct Hstep as [t st|st st' r Hf|st st' r Ht|hook st].
  - by destruct (asap_wf [] t st Hwf) as (? & _).
  - by eapply flush_wf.
  - unfold throwFirstError in Ht.
    destruct (pendingErrors (ext st)) as [|e es]; injection Ht as <- <-;
      [done|].
    by destruct (wf_detached_ext [] st (upd (set_pendingErrors es) st))
      as (? & _).
  - by destruct (wf_detached_ext [] st (upd (set_onerror hook) st)) as (? & _).
Qed.

(** Every state the host can bring a constructed instance to has the
    shape [wf]. *)
Lemma reachable_wf st : reachable st → wf st.
Proof.
  intros [scope Hr].
  assert (H : ∀ s s', rtc host_step s s' → wf s → wf s').
  { induction 1; eauto using host_step_wf. }
  eapply H; [done|apply wf_init].
Qed.

Lemma drain_all n : ∀ st,
  length (pendingErrors (ext st)) ≤ n →
  (drain n st).1 = pendingErrors (ext st) ∧
  pendingErrors (ext (drain n st).2) = [].
Proof.
  induction n as [|n IH]; intros st Hn; simpl.
  - destruct (pendingErrors (ext st)); [done|simpl in Hn; lia].
  - unfold throwFirstError.
    destruct (pendingErrors (ext st)) as [|e es] eqn:E.
    + destruct (IH st) as [H1 H2]; [rewrite E; simpl; lia|].
      rewrite E in H1. by destruct (drain n st) as [es' s'].
    + destruct (IH (upd (set_pendingErrors es) st)) as [H1 H2];
        [simpl in *; lia|].
      destruct (drain n (upd (set_pendingErrors es) st)) as [es' s'].
      simpl in *. by subst.
Qed.

(** Scheduling on an empty queue asks the host for one flush. *)
Lemma schedule_all_request t ts st :
  queue st = [] →
  request_count (schedule_all (t :: ts) st) = S (request_count st).
Proof.
  intros Hq. simpl.
  destruct (schedule_all_frame ts (asap t st))
    as (_ & _ & _ & _ & _ & _ & _ & _ & _ & _ & _ & _ & Hhost).
  destruct (asap_fields t st) as (h & hs & _ & Hst).
  assert (Hne : queue (asap t st) ≠ []).
  { rewrite Hst, (proj1 (rawAsap_fields h _)). simpl. by destruct (queue st). }
  destruct (Hhost Hne) as [Hh _].
  unfold request_count. rewrite Hh, Hst, rawAsap_empty by done.
  simpl. destruct (requestFlush st); simpl;
    rewrite List.filter_app, length_app; simpl; lia.
Qed.

(** A flush after the host has scheduled [ts]. *)
Lemma flush_scheduled st ts :
  wf st → hook_returns st →
  ∃ st2 run,
    flush (schedule_all ts st) = Some (st2, Returned) ∧
    wf st2 ∧ queue st2 = [] ∧
    task_log (ext st2) = task_log (ext st) ++ run ∧
    run = pending_tasks st ++ ts ++ (run ≫= task_spawns) ∧
    task_log (ext st2) = asap_log (ext st2) ∧
    (onerror (ext st) = None →
       pendingErrors (ext st2) = pendingErrors (ext st) ++ errors_of run ∧
       host st2 = host (schedule_all ts st) ++ error_timers (errors_of run)).
Proof.
  intros Hwf Hhook.
  destruct (schedule_all_wf [] ts st Hwf) as (Hwf1 & Hpt1 & _).
  destruct (schedule_all_frame ts st)
    as (_ & _ & _ & Hpe & _ & Hon & Hal & Htl & _).
  set (st1 := schedule_all ts st) in *.
  assert (Hhook1 : hook_returns st1).
  { intros hook e. rewrite Hon. apply Hhook. }
  destruct (safe_flush_total st1 Hwf1) as [[st2 r] Hf].
  pose proof (flush_returns _ _ _ Hwf1 Hhook1 Hf) as ->.
  destruct (safe_flush_summary _ _ Hwf1 Hf)
    as (Hwf2 & Hq2 & _ & _ & run & Htl2 & Hal2 & Herr).
  assert (Hlogs : task_log (ext st2) = asap_log (ext st2)).
  { rewrite (wf_logs _ _ Hwf2). unfold pending_tasks, pending.
    rewrite Hq2, drop_nil. simpl. by rewrite app_nil_r. }
  exists st2, run. split_and!; try done.
  - by rewrite Htl2, Htl.
  - rewrite Htl2, Hal2, Hal, Htl, (wf_logs _ _ Hwf), <- !app_assoc in Hlogs.
    by apply app_inv_head in Hlogs.
  - intros Hnone. rewrite <- Hpe. apply Herr. by rewrite Hon.
Qed.
End AsapMore.

(** [C1] Tasks given to [asap] are each called once, in the order given,
    whichever of them throw.  From any state of a constructed instance
    whose hook, if set, returns: after the host has scheduled [ts], the
    flush returns, and the tasks it has run are, in this order, those
    already pending, then [ts], then those scheduled from inside the
    running tasks; what was run is exactly what was given to [asap].
    When the queue was empty, scheduling has asked the host for that
    flush, once. *)
Theorem C1_safe_tasks_run_once_in_order (st : Asap.state) (ts : list task) :
  Asap.wf st → Asap.hook_returns st →
  (∃ st2 run,
     Asap.flush (Asap.schedule_all ts st) = Some (st2, Returned) ∧
     Asap.task_log (ext st2) = Asap.task_log (ext st) ++ run ∧
     run = Asap.pending_tasks st ++ ts ++ (run ≫= task_spawns) ∧
     Asap.task_log (ext st2) = Asap.asap_log (ext st2) ∧
     queue st2 = []) ∧
  (queue st = [] → ts ≠ [] →
   request_count (Asap.schedule_all ts st) = S (request_count st)).
Proof.
  intros Hwf Hhook. split.
  - destruct (AsapMore.flush_scheduled st ts Hwf Hhook)
      as (st2 & run & Hf & _ & Hq & Htl & Hrun & Hlogs & _).
    by exists st2, run.
  - intros Hq Hne. destruct ts as [|t ts]; [done|].
    by apply AsapMore.schedule_all_request.
Qed.

(** [C2] Errors are thrown again first in, first out.  With no hook: the
    flush appends to [pendingErrors] the errors of the throwing tasks in
    the order the tasks ran, and arms one timer request for
    [throwFirstError] per error; [throwFirstError] on a non-empty queue
    removes its head and throws it; run once per pending error (or more
    often) it throws each pending error once, oldest first, and leaves
    the queue empty. *)
Theorem C2_errors_rethrown_fifo (st : Asap.state) (ts : list task) :
  Asap.wf st → Asap.onerror (ext st) = None →
  (∃ st2 run,
     Asap.flush (Asap.schedule_all ts st) = Some (st2, Returned) ∧
     Asap.task_log (ext st2) = Asap.task_log (ext st) ++ run ∧
     run = Asap.pending_tasks st ++ ts ++ (run ≫= task_spawns) ∧
     Asap.pendingErrors (ext st2)
     = Asap.pendingErrors (ext st) ++ Asap.errors_of run ∧
     host st2 = host (Asap.schedule_all ts st)
                ++ Asap.error_timers (Asap.errors_of run)) ∧
  (∀ (s : Asap.state) e es,
     Asap.pendingErrors (ext s) = e :: es →
     ∃ s', Asap.throwFirstError s = (s', Threw e) ∧
           Asap.pendingErrors (ext s') = es) ∧
  (∀ (s : Asap.state), Asap.pendingErrors (ext s) = [] →
                       Asap.throwFirstError s = (s, Returned)) ∧
  (∀ (s : Asap.state) n,
     length (Asap.pendingErrors (ext s)) ≤ n →
     (Asap.drain n s).1 = Asap.pendingErrors (ext s) ∧
     Asap.pendingErrors (ext (Asap.drain n s).2) = []).
Proof.
  intros Hwf Hnone. split_and!.
  - destruct (AsapMore.flush_scheduled st ts Hwf)
      as (st2 & run & Hf & _ & Hq & Htl & Hrun & Hlogs & Herr).
    { intros hook e. by rewrite Hnone. }
    destruct (Herr Hnone) as [Hpe Hh].
    by exists st2, run.
  - intros s e es E. unfold Asap.throwFirstError. rewrite E.
    by eexists.
  - intros s E. unfold Asap.throwFirstError. by rewrite E.
  - intros s n. apply AsapMore.drain_all.
Qed.

(** [C9] Every way out of a holder's [call] clears the holder and puts it
    back in the pool once.  For an allocated holder that is not in the
    pool: after [call] its [task] is [null]; the pool is what the running
    task left of it, followed by the holder, which occurs in it once; and
    [call] returns when the task returns, returns when the task throws
    and no hook is set (the error goes to [pendingErrors]), and ends as
    the hook ends when the task throws and a hook is set (the error goes
    to the hook). *)
Theorem C9_holder_released_on_every_path (st : Asap.state) (h : nat) :
  h < length (Asap.holders (ext st)) →
  h ∉ Asap.freeTasks (ext st) →
  ∃ st' r,
    Asap.holder_call h st = (st', r) ∧
    Asap.holders (ext st') !! h = Some None ∧
    Asap.freeTasks (ext st')
    = take (length (Asap.freeTasks (ext st))
            - length (Asap.try_spawns st h)) (Asap.freeTasks (ext st))
      ++ [h] ∧
    count_occ Nat.eq_dec (Asap.freeTasks (ext st')) h = 1 ∧
    match Asap.try_result st h, Asap.onerror (ext st) with
    | Returned, _ =>
        r = Returned ∧
        Asap.pendingErrors (ext st') = Asap.pendingErrors (ext st) ∧
        Asap.hook_log (ext st') = Asap.hook_log (ext st)
    | Threw err, Some hook =>
        r = hook err ∧
        Asap.pendingErrors (ext st') = Asap.pendingErrors (ext st) ∧
        Asap.hook_log (ext st') = Asap.hook_log (ext st) ++ [err]
    | Threw err, None =>
        r = Returned ∧
        Asap.pendingErrors (ext st') = Asap.pendingErrors (ext st) ++ [err] ∧
        Asap.hook_log (ext st') = Asap.hook_log (ext st)
    end.
Proof.
  intros Hlt Hfree.
  set (s1 := match Asap.bound st h with
             | Some t => Asap.schedule_all (task_spawns t)
                           (Asap.upd (Asap.log_task t) st)
             | None => st
             end).
  assert (Htry :
    (match Asap.holders (ext st) !! h with
     | Some (Some t) => Asap.call_bound_task t st
     | _ => (st, Threw TypeError)
     end) = (s1, Asap.try_result st h)).
  { unfold s1, Asap.try_result, Asap.bound.
    destruct (Asap.holders (ext st) !! h) as [[t|]|]; done. }
  assert (Hs1 :
    Asap.freeTasks (ext s1)
    = take (length (Asap.freeTasks (ext st)) - length (Asap.try_spawns st h))
           (Asap.freeTasks (ext st)) ∧
    length (Asap.holders (ext st)) ≤ length (Asap.holders (ext s1)) ∧
    Asap.pendingErrors (ext s1) = Asap.pendingErrors (ext st) ∧
    Asap.onerror (ext s1) = Asap.onerror (ext st) ∧
    Asap.hook_log (ext s1) = Asap.hook_log (ext st)).
  { unfold s1, Asap.try_spawns. destruct (Asap.bound st h) as [t|].
    - destruct (AsapFacts.schedule_all_frame (task_spawns t)
                  (Asap.upd (Asap.log_task t) st))
        as (_ & _ & _ & Hpe & _ & Hon & _ & _ & Hhl & _ & Hfr & Hlen & _).
      done.
    - simpl. rewrite Nat.sub_0_r, take_ge by lia. done. }
  destruct Hs1 as (Hfr & Hlen & Hpe & Hon & Hhl).
  unfold Asap.holder_call. rewrite Htry. rewrite Hon.
  assert (Hcount : ∀ fs, fs = Asap.freeTasks (ext s1) →
            count_occ Nat.eq_dec (fs ++ [h]) h = 1).
  { intros fs ->. rewrite count_occ_app. simpl.
    destruct (Nat.eq_dec h h) as [_|]; [|done].
    rewrite (proj1 (count_occ_not_In Nat.eq_dec _ h)); [done|].
    rewrite Hfr. intros Hin%list_elem_of_In. apply Hfree.
    by eapply subseteq_take. }
  destruct (Asap.try_result st h) as [|err].
  - eexists _, _. split; [reflexivity|]. simpl.
    split_and!; try done.
    + apply list_lookup_insert_eq. lia.
    + by rewrite Hfr.
    + by apply Hcount.
  - destruct (Asap.onerror (ext st)) as [hook|].
    + eexists _, _. split; [reflexivity|]. simpl.
      split_and!; try done.
      * apply list_lookup_insert_eq. lia.
      * by rewrite Hfr.
      * by apply Hcount.
      * by rewrite Hhl.
    + eexists _, _. split; [reflexivity|].
      destruct (Asap.requestErrorThrow _); simpl.
      * split_and!; try done.
        -- apply list_lookup_insert_eq. lia.
        -- by rewrite Hfr.
        -- by apply Hcount.
        -- by rewrite Hpe.
      * split_and!; try done.
        -- apply list_lookup_insert_eq. lia.
        -- by rewrite Hfr.
        -- by apply Hcount.
        -- by rewrite Hpe.
Qed.

(** [C3] The constructor of the module that imports [Raw] does not build
    [requestErrorThrow]: it looks [makeRequestCallFromTimer] up on the
    bound function [this.rawAsap], finds nothing and throws a
    [TypeError].  The module that declares both classes looks it up on
    the instance and gets the timer closure for [throwFirstError]; there
    a task that throws with no hook set leaves its error in
    [pendingErrors] and one timeout and one interval at the host, and no
    change of the observed node. *)
Theorem C3_constructor_of_importing_module_throws (scope : Scope) :
  Asap.Asap_constructor Asap.module_importing_raw scope = inl TypeError ∧
  ∃ st0,
    Asap.Asap_constructor Asap.module_standalone scope = inr st0 ∧
    Asap.requestErrorThrow (ext st0)
    = makeRequestCallFromTimer cb_throwFirstError ∧
    ∀ ts err,
      let thrower := Task 0 ts (Threw err) in
      ∃ st',
        flush_body Asap.holder_call (Asap.asap thrower st0) = (st', Returned) ∧
        Asap.pendingErrors (ext st') = [err] ∧
        host st' = host (Asap.asap thrower st0)
                   ++ [SetTimeout cb_throwFirstError 0;
                       SetInterval cb_throwFirstError 50].
Proof.
  split; [reflexivity|].
  exists (Asap.init scope). split; [reflexivity|]. split; [reflexivity|].
  pose proof (AsapMore.wf_init scope) as Hwf.
  assert (Hon : Asap.onerror (ext (Asap.init scope)) = None) by reflexivity.
  set (st0 := Asap.init scope) in *.
  intros ts err thrower.
  destruct (AsapFacts.asap_wf [] thrower st0 Hwf) as (Hwf1 & Hpt & _ & h & Hq).
  destruct (AsapFacts.asap_frame thrower st0)
    as (Hi & _ & _ & Hpe & _ & Hon1 & _).
  set (st1 := Asap.asap thrower st0) in *.
  assert (Hst0 : queue st0 = [] ∧ index st0 = 0%Z ∧
                 Asap.pendingErrors (ext st0) = []) by done.
  destruct Hst0 as (Hq0 & Hi0 & Hpe0).
  assert (Hg : (index st1 < queue_length st1)%Z).
  { unfold queue_length. rewrite Hi, Hi0, Hq, Hq0. simpl. lia. }
  destruct (flush_body Asap.holder_call st1) as [st' r] eqn:Hb.
  destruct (AsapFacts.safe_turn _ _ _ Hwf1 Hg Hb)
    as (t & rest & Hpt' & _ & _ & _ & _ & _ & _ & Hout & _).
  assert (t = thrower) as ->.
  { rewrite Hpt in Hpt'. unfold Asap.pending_tasks, pending in Hpt'.
    rewrite Hq0, drop_nil in Hpt'. simpl in Hpt'. by injection Hpt' as <-. }
  unfold Asap.call_outcome in Hout. rewrite Hon1, Hon in Hout.
  change (task_result thrower) with (Threw err) in Hout. cbv iota in Hout.
  destruct Hout as (-> & Hpe' & Hh' & _).
  exists st'. split; [done|]. split; [|done].
  by rewrite Hpe', Hpe, Hpe0.
Qed.

(** ** Instances and scenarios *)

Lemma C1_safe_tasks_run_once_in_order_witness :
  Asap.wf (Asap.init sample_scope) ∧
  Asap.hook_returns (Asap.init sample_scope) ∧
  ∃ st2 run,
    Asap.flush (Asap.schedule_all [task_A; task_B; task_C]
                  (Asap.init sample_scope)) = Some (st2, Returned) ∧
    Asap.task_log (ext st2)
    = Asap.task_log (ext (Asap.init sample_scope)) ++ run ∧
    run = Asap.pending_tasks (Asap.init sample_scope)
          ++ [task_A; task_B; task_C] ++ (run ≫= task_spawns) ∧
    Asap.task_log (ext st2) = Asap.asap_log (ext st2) ∧
    queue st2 = [].
Proof.
  split; [apply AsapMore.wf_init|].
  split; [apply AsapMore.hook_returns_init|].
  apply (C1_safe_tasks_run_once_in_order
           (Asap.init sample_scope) [task_A; task_B; task_C]).
  - apply AsapMore.wf_init.
  - apply AsapMore.hook_returns_init.
Defined.

Lemma C2_errors_rethrown_fifo_witness :
  Asap.wf (Asap.init sample_scope) ∧
  Asap.onerror (ext (Asap.init sample_scope)) = None ∧
  ∃ st2 run,
    Asap.flush (Asap.schedule_all [task_D; task_E] (Asap.init sample_scope))
    = Some (st2, Returned) ∧
    Asap.task_log (ext st2)
    = Asap.task_log (ext (Asap.init sample_scope)) ++ run ∧
    run = Asap.pending_tasks (Asap.init sample_scope)
          ++ [task_D; task_E] ++ (run ≫= task_spawns) ∧
    Asap.pendingErrors (ext st2)
    = Asap.pendingErrors (ext (Asap.init sample_scope)) ++ Asap.errors_of run ∧
    host st2
    = host (Asap.schedule_all [task_D; task_E] (Asap.init sample_scope))
      ++ Asap.error_timers (Asap.errors_of run).
Proof.
  split; [apply AsapMore.wf_init|]. split; [reflexivity|].
  apply (C2_errors_rethrown_fifo (Asap.init sample_scope) [task_D; task_E]).
  - apply AsapMore.wf_init.
  - reflexivity.
Defined.

Lemma C5_cursor_advances_before_call_witness :
  RawTasks.reachable raw_ABC ∧
  RawTasks.flush raw_ABC = Some (raw_ABC_interrupted, Threw (Thrown 1)) ∧
  pending raw_ABC_interrupted = [task_C] ∧
  RawTasks.reachable raw_ABC_interrupted ∧
  (∃ st'' r, RawTasks.flush raw_ABC_interrupted = Some (st'', r)) ∧
  ∀ st'' r, RawTasks.flush raw_ABC_interrupted = Some (st'', r) →
    ∃ more', called st'' = called raw_ABC_interrupted ++ task_C :: more'.
Proof.
  assert (Hr : RawTasks.reachable raw_ABC).
  { exists sample_scope. apply RawTasksFacts.rawAsap_all_steps. }
  assert (Hf : RawTasks.flush raw_ABC
               = Some (raw_ABC_interrupted, Threw (Thrown 1)))
    by (vm_compute; reflexivity).
  assert (Hp : pending raw_ABC_interrupted = [task_C])
    by (vm_compute; reflexivity).
  split; [exact Hr|]. split; [exact Hf|]. split; [exact Hp|].
  destruct (C5_cursor_advances_before_call raw_ABC Hr)
    as (_ & _ & _ & _ & _ & Hthrow).
  destruct (Hthrow _ _ Hf) as (Hr' & t & _ & _ & _ & Hnext & Hresume).
  split; [exact Hr'|]. split; [exact Hnext|].
  intros st'' r Hf2.
  destruct (Hresume st'' r Hf2) as (more & newly & Hc & _ & Hhead).
  destruct (Hhead task_C [] Hp) as (_ & more' & ->).
  exists more'. exact Hc.
Defined.

Lemma C6_compaction_witness :
  RawTasks.reachable raw_throwers_once ∧
  capacity raw_throwers_once = 1024%Z ∧
  (capacity raw_throwers_once < index raw_throwers_once)%Z ∧
  (index raw_throwers_once ≤ queue_length raw_throwers_once)%Z ∧
  pending raw_throwers_once = [task_D; task_E] ∧
  ∃ st', compact raw_throwers_once = (st', Returned) ∧
         (∀ i : nat, queue st' !! i
                     = queue raw_throwers_once
                         !! (Z.to_nat (index raw_throwers_once) + i)) ∧
         queue_length st'
         = (queue_length raw_throwers_once - index raw_throwers_once)%Z ∧
         length (queue st') = length (pending raw_throwers_once) ∧
         index st' = 0%Z ∧
         pending st' = pending raw_throwers_once.
Proof.
  assert (Hr : RawTasks.reachable raw_throwers_once).
  { apply (RawTasksFacts.flush_reachable raw_throwers _ (Threw (Thrown 1))).
    - exists sample_scope. apply RawTasksFacts.rawAsap_all_steps.
    - vm_compute. reflexivity. }
  assert (H1 : capacity raw_throwers_once = 1024%Z) by (by vm_compute).
  assert (H2 : (capacity raw_throwers_once < index raw_throwers_once)%Z)
    by (by vm_compute).
  assert (H3 : (index raw_throwers_once ≤ queue_length raw_throwers_once)%Z)
    by (by vm_compute).
  assert (H4 : pending raw_throwers_once = [task_D; task_E])
    by (vm_compute; reflexivity).
  split; [exact Hr|]. split; [exact H1|]. split; [exact H2|].
  split; [exact H3|]. split; [exact H4|].
  apply (C6_compaction raw_throwers_once H1 H2 H3).
Defined.

(** 1024 tasks that return, then three that throw.  The first flush
    ends on B's throw with the cursor at 1025, above the threshold; the
    second flush starts there, calls D, and ends on D's throw with the
    cursor at 1026: all through it the cursor is above 1024, and the
    queue still holds its 1027 entries, one of them pending. *)
Lemma C6_compaction_counterexample :
  RawTasks.reachable raw_throwers ∧
  RawTasks.flush raw_throwers = Some (raw_throwers_once, Threw (Thrown 1)) ∧
  capacity raw_throwers_once = 1024%Z ∧
  index raw_throwers_once = 1025%Z ∧
  RawTasks.flush raw_throwers_once
  = Some (raw_throwers_twice, Threw (Thrown 2)) ∧
  capacity raw_throwers_twice = 1024%Z ∧
  index raw_throwers_twice = 1026%Z ∧
  queue raw_throwers_twice = queue raw_throwers ∧
  length (queue raw_throwers_twice) = 1027 ∧
  pending raw_throwers_twice = [task_E].
Proof.
  split.
  { exists sample_scope. apply RawTasksFacts.rawAsap_all_steps. }
  split_and!; vm_compute; reflexivity.
Qed.

Lemma C7_flush_completion_witness :
  (0 ≤ index raw_AC)%Z ∧
  Forall (λ t, quiet t = true) (pending raw_AC) ∧
  ∃ st', RawTasks.flush raw_AC = Some (st', Returned) ∧
         queue st' = [] ∧ index st' = 0%Z ∧ flushing st' = false.
Proof.
  assert (H0 : (0 ≤ index raw_AC)%Z) by (by vm_compute).
  assert (Hq : Forall (λ t, quiet t = true) (pending raw_AC)).
  { repeat constructor. }
  split; [exact H0|]. split; [exact Hq|].
  apply (C7_flush_completion raw_AC H0). exact Hq.
Defined.

Lemma C8_cursor_within_queue_witness :
  RawTasks.reachable raw_ABC ∧
  (0 ≤ index raw_ABC ≤ queue_length raw_ABC)%Z.
Proof.
  assert (Hr : RawTasks.reachable raw_ABC).
  { exists sample_scope. apply RawTasksFacts.rawAsap_all_steps. }
  split; [exact Hr|].
  apply (C8_cursor_within_queue raw_ABC Hr).
Defined.

Lemma C9_holder_released_on_every_path_witness :
  0 < length (Asap.holders (ext safe_B)) ∧
  (0 ∉ Asap.freeTasks (ext safe_B)) ∧
  ∃ st' r,
    Asap.holder_call 0 safe_B = (st', r) ∧
    Asap.holders (ext st') !! 0 = Some None ∧
    count_occ Nat.eq_dec (Asap.freeTasks (ext st')) 0 = 1.
Proof.
  assert (H1 : 0 < length (Asap.holders (ext safe_B))) by (simpl; lia).
  assert (H2 : 0 ∉ Asap.freeTasks (ext safe_B)).
  { simpl. apply not_elem_of_nil. }
  split; [exact H1|]. split; [exact H2|].
  destruct (C9_holder_released_on_every_path safe_B 0 H1 H2)
    as (st' & r & Hc & Hn & _ & Hcnt & _).
  by exists st', r.
Defined.

Lemma C10_flushing_is_write_only_witness :
  RawTasks.reachable raw_ABC ∧
  ∀ st' err, RawTasks.flush raw_ABC = Some (st', Threw err) →
    queue st' ≠ [] ∧
    ∀ ts, let st'' := rawAsap_all ts st' in
          queue st'' = queue st' ++ ts ∧
          host st'' = host st' ∧
          request_count st'' = request_count st'.
Proof.
  assert (Hr : RawTasks.reachable raw_ABC).
  { exists sample_scope. apply RawTasksFacts.rawAsap_all_steps. }
  split; [exact Hr|].
  apply (C10_flushing_is_write_only raw_ABC). exact Hr.
Defined.

(** A, B, C given to [asap]: all three run, in that order; B's error
    waits in [pendingErrors] with one timer pair armed for it, and the
    next [throwFirstError] throws it. *)
Example scenario_A_B_C :
  (λ '(s, r), (task_id <$> Asap.task_log (ext s), Asap.pendingErrors (ext s),
               host s, r, (Asap.drain 1 s).1))
    <$> Asap.flush (Asap.schedule_all [task_A; task_B; task_C]
                      (Asap.init sample_scope))
  = Some ([1; 2; 3], [Thrown 1],
          [SetTimeout cb_flush 0; SetInterval cb_flush 50;
           SetTimeout cb_throwFirstError 0; SetInterval cb_throwFirstError 50],
          Returned, [Thrown 1]).
Proof. reflexivity. Qed.

(** D then E, both throwing: two deferred throws, D's error first. *)
Example scenario_D_E :
  (λ '(s, r), (Asap.pendingErrors (ext s), (Asap.drain 2 s).1,
               Asap.pendingErrors (ext (Asap.drain 2 s).2)))
    <$> Asap.flush (Asap.schedule_all [task_D; task_E] (Asap.init sample_scope))
  = Some ([Thrown 2; Thrown 3], [Thrown 2; Thrown 3], []).
Proof. reflexivity. Qed.

(** A task that schedules from inside its call: the new tasks run after
    those already pending; holders are reused. *)
Example scenario_recursive :
  (λ '(s, r), (task_id <$> Asap.task_log (ext s), Asap.freeTasks (ext s),
               length (Asap.holders (ext s))))
    <$> Asap.flush (Asap.schedule_all [task_R; task_C] (Asap.init sample_scope))
  = Some ([6; 3; 1; 2], [0; 1; 2; 3], 4).
Proof. reflexivity. Qed.

(** A hook that throws the error on: the throw leaves [flush], and the
    tasks behind the thrower are not run by that flush. *)
Example scenario_throwing_hook :
  (λ '(s, r), (task_id <$> Asap.task_log (ext s), r, index s, length (queue s)))
    <$> Asap.flush (Asap.schedule_all [task_A; task_B; task_C]
                      (Asap.install_hook Threw (Asap.init sample_scope)))
  = Some ([1; 2], Threw (Thrown 1), 2%Z, 3).
Proof. reflexivity. Qed.

(** The raw queue with A, B, C: B's throw leaves [flush] with the cursor
    behind B and [flushing] still set; scheduling then asks nothing of
    the host; a second flush runs C and empties the queue. *)
Example scenario_raw_interrupted :
  (λ '(s, r), (r, index s, task_id <$> called s, flushing s,
               host s, host (rawAsap task_D s),
               (λ '(s2, r2), (r2, task_id <$> called s2, queue s2))
                 <$> RawTasks.flush s))
    <$> RawTasks.flush raw_ABC
  = Some (Threw (Thrown 1), 2%Z, [1; 2], true,
          [SetTimeout cb_flush 0; SetInterval cb_flush 50],
          [SetTimeout cb_flush 0; SetInterval cb_flush 50],
          Some (Returned, [1; 2; 3], [])).
Proof. reflexivity. Qed.

(** 1030 tasks of which the 1027th throws: the queue is compacted once
    the cursor has passed 1024, so the interrupted flush leaves 5 entries
    and the cursor at 2. *)
Example scenario_compaction :
  (λ '(s, r), (r, length (queue s), index s, length (called s)))
    <$> RawTasks.flush raw_long_thrower
  = Some (Threw (Thrown 1), 5, 2%Z, 1027).
Proof. vm_compute. reflexivity. Qed.

(** The two constructors on the sample host. *)
Example constructor_importing_raw_sample :
  Asap.Asap_constructor Asap.module_importing_raw sample_scope = inl TypeError.
Proof. reflexivity. Qed.

Example constructor_standalone_sample :
  Asap.Asap_constructor Asap.module_standalone sample_scope
  = inr (Asap.init sample_scope).
Proof. reflexivity. Qed.

(** * Further properties *)

(** ** The flush loop at rest *)

Section FlushIdle.
Context {Entry Ext : Type}.
Variable call : Entry → Raw Entry Ext → Raw Entry Ext * completion.

Lemma flush_finish_idem (st : Raw Entry Ext) :
  flush_finish (flush_finish st) = flush_finish st.
Proof. by destruct st. Qed.

Lemma flush_loop_idle fuel (st : Raw Entry Ext) :
  ¬ (index st < queue_length st)%Z →
  flush_loop call fuel st = Some (flush_finish st, Returned).
Proof.
  intros Hg. destruct fuel; simpl;
    destruct (Z.ltb_spec (index st) (queue_length st)); done.
Qed.
End FlushIdle.

(** An invariant of the program points of a raw instance. *)
Lemma raw_reachable_ind (scope : Scope) (P : RawTasks.state → Prop) :
  P (RawTasks.init scope) →
  (∀ s s', RawTasks.inv s → P s → RawTasks.step s s' → P s') →
  ∀ st, rtc RawTasks.step (RawTasks.init scope) st → P st.
Proof.
  intros H0 Hstep st Hr.
  assert (H : RawTasks.inv st ∧ P st).
  { refine (rtc_ind_r (λ s, RawTasks.inv s ∧ P s) _ _ _ st Hr).
    - split; [apply RawTasksFacts.init_inv|done].
    - intros y z _ Hyz [Hi HP]. split.
      + by eapply RawTasksFacts.step_inv.
      + by eapply Hstep. }
  apply H.
Qed.

Lemma alternating_S n : alternating (S n) = alternating n ++ [toggled (S n)].
Proof. unfold alternating. by rewrite seq_S, fmap_app. Qed.

Lemma toggled_S n : toggled (S n) = (- toggled n)%Z.
Proof.
  unfold toggled. rewrite Nat.even_succ, <- Nat.negb_even.
  by destruct (Nat.even n).
Qed.

Lemma node_data_app l1 l2 : node_data (l1 ++ l2) = node_data l1 ++ node_data l2.
Proof. apply omap_app. Qed.


(** ** A rule for invariants of the safe flush *)
Module AsapRule.
Import Asap AsapFacts AsapParts.
Implicit Types (st s : state) (t : task) (h : nat) (d : list nat).

Section TurnRule.
Variable Q : list nat → state → Prop.
Hypothesis Q_enter : ∀ st h t rest,
  wf st → pending st = h :: rest → bound st h = Some t →
  Q [] st → Q [h] (entered h t st).
Hypothesis Q_asap : ∀ d c s,
  wf_detached d s → queue s ≠ [] → Q d s → Q d (asap c s).
Hypothesis Q_hook : ∀ d s err,
  wf_detached d s → is_Some (onerror (ext s)) → Q d s → Q d (upd (log_hook err) s).
Hypothesis Q_defer : ∀ d s err,
  wf_detached d s → onerror (ext s) = None → Q d s → Q d (defer_error err s).
Hypothesis Q_release : ∀ h s, wf_detached [h] s → Q [h] s → Q [] (release h s).
Hypothesis Q_compact : ∀ s,
  wf s → (capacity s < index s)%Z → Q [] s → Q [] (compacted s).

Lemma schedule_all_rule d ts : ∀ s,
  wf_detached d s → queue s ≠ [] → Q d s → Q d (schedule_all ts s).
Proof.
  induction ts as [|c ts IH]; intros s Hwf Hne HQ; simpl; [done|].
  apply IH.
  - by destruct (asap_wf d c s Hwf) as (? & _).
  - destruct (asap_wf d c s Hwf) as (_ & _ & _ & h & ->). by destruct (queue s).
  - by apply Q_asap.
Qed.

Lemma holder_call_rule h t s s' r :
  holders (ext s) !! h = Some (Some t) →
  wf_detached [h] (upd (log_task t) s) →
  queue s ≠ [] →
  Q [h] (upd (log_task t) s) →
  holder_call h s = (s', r) →
  Q [] s'.
Proof.
  intros Hlk Hwf Hne HQ. unfold holder_call. rewrite Hlk.
  unfold call_bound_task. fold (schedule_all (task_spawns t) (upd (log_task t) s)).
  set (s0 := upd (log_task t) s) in *.
  destruct (schedule_all_wf [h] (task_spawns t) s0 Hwf) as (Hwf1 & _).
  pose proof (schedule_all_rule [h] (task_spawns t) s0 Hwf Hne HQ) as HQ1.
  set (s1 := schedule_all (task_spawns t) s0) in *.
  destruct (task_result t) as [|err] eqn:Hres.
  - intros [= <- <-]. by apply (Q_release h s1).
  - destruct (onerror (ext s1)) as [hook|] eqn:Hhook.
    + intros [= <- <-].
      destruct (wf_detached_ext [h] s1 (upd (log_hook err) s1)) as (Hwf2 & _);
        try done.
      apply (Q_release h _ Hwf2). apply Q_hook; [done|by rewrite Hhook|done].
    + cbv zeta.
      change (requestErrorThrow (ext (upd (set_pendingErrors
                (pendingErrors (ext s1) ++ [err])) s1)))
        with (requestErrorThrow (ext s1)).
      rewrite (wf_timer _ _ Hwf1). simpl invoke_requestCall.
      intros [= <- <-].
      destruct (wf_detached_ext [h] s1 (defer_error err s1)) as (Hwf2 & _);
        try done.
      apply (Q_release h _ Hwf2). by apply Q_defer.
Qed.

Lemma safe_turn_rule st st' r :
  wf st → (index st < queue_length st)%Z →
  flush_body holder_call st = (st', r) →
  Q [] st → Q [] st'.
Proof.
  intros Hwf Hg Hb HQ. pose proof Hwf as [Hc Hnd Hal Hbd Hlog Htm].
  destruct (guard_lookup st Hc Hg) as (h & Hh & Hp).
  set (rest := drop (S (Z.to_nat (index st))) (queue st)) in *.
  destruct (Hbd h) as [t Ht]; [rewrite Hp; apply elem_of_cons; auto|].
  assert (Hlk : holders (ext st) !! h = Some (Some t)).
  { unfold bound in Ht. destruct (holders (ext st) !! h) as [[?|]|]; by simplify_eq/=. }
  assert (Hne : queue st ≠ []).
  { intros E. unfold queue_length in Hg. rewrite E in Hg. simpl in *. lia. }
  assert (Hpt : pending_tasks st = t :: omap (bound st) rest).
  { unfold pending_tasks. rewrite Hp. simpl. by rewrite Ht. }
  revert Hb. unfold flush_body. simpl. rewrite Hh.
  set (sA := log_called h (set_index (index st + 1) st)).
  assert (HpA : pending (upd (log_task t) sA) = rest).
  { unfold pending. simpl.
    replace (Z.to_nat (index st + 1)) with (S (Z.to_nat (index st)));
      [done|]. destruct Hc. lia. }
  assert (HwfA : wf_detached [h] (upd (log_task t) sA)).
  { constructor.
    - destruct Hc. unfold cursor_ok, queue_length in *. simpl. lia.
    - rewrite HpA. simpl. by rewrite Hp in Hnd.
    - intros x. rewrite HpA. simpl. rewrite Hp in Hal. apply Hal.
    - intros x. rewrite HpA. intros Hx. apply (Hbd x). rewrite Hp.
      apply elem_of_cons. auto.
    - unfold pending_tasks. rewrite HpA. simpl.
      rewrite Hlog, Hpt, <- app_assoc. done.
    - done. }
  pose proof (Q_enter st h t rest Hwf Hp Ht HQ) as HQA.
  destruct (holder_call h sA) as [s2 r2] eqn:Hcall.
  pose proof (holder_call_rule h t sA s2 r2 Hlk HwfA Hne HQA Hcall) as HQ2.
  destruct (holder_call_spec h t sA s2 r2 Hlk HwfA Hne Hcall) as (Hwf2 & _).
  destruct r2 as [|err].
  - destruct (Z.ltb_spec (capacity s2) (index s2)).
    + rewrite (compact_spec s2 (wf_cursor _ _ Hwf2)).
      intros [= <- <-]. by apply Q_compact.
    + by intros [= <- <-].
  - by intros [= <- <-].
Qed.

(** The rule for a whole flush. *)
Lemma safe_flush_rule st st' r :
  (∀ s, wf s → ¬ (index s < queue_length s)%Z → Q [] s → Q [] (flush_finish s)) →
  wf st → flush st = Some (st', r) → Q [] st → Q [] st'.
Proof.
  intros Hfin Hwf Hf HQ.
  assert (Hbody : ∀ s s' r0, wf s ∧ Q [] s → (index s < queue_length s)%Z →
            flush_body holder_call s = (s', r0) → wf s' ∧ Q [] s').
  { intros s s' r0 [Hs HQs] Hg Hb. split.
    - by destruct (safe_turn _ _ _ Hs Hg Hb) as (_ & _ & _ & _ & ? & _).
    - by eapply safe_turn_rule. }
  pose proof (flush_loop_rule holder_call (λ s, wf s ∧ Q [] s) Hbody
                _ _ _ _ (conj Hwf HQ) Hf) as Hres.
  destruct r; [|by destruct Hres].
  destruct Hres as (s & [Hs HQs] & Hg & ->). by apply Hfin.
Qed.
End TurnRule.
End AsapRule.

(** ** The pool of holders *)
Module AsapPool.
Import Asap AsapFacts AsapParts AsapRule.
Implicit Types (st s : state) (t : task) (h : nat) (d : list nat).

(** What [asap] does to the pool, the heap and the queue. *)
Lemma asap_pool d t st :
  wf_detached d st →
  ∃ h,
    queue (asap t st) = queue st ++ [h] ∧
    pending (asap t st) = pending st ++ [h] ∧
    (h ∉ d ++ pending st) ∧
    bound (asap t st) h = Some t ∧
    (∀ x, x ≠ h → x < length (holders (ext st)) →
          bound (asap t st) x = bound st x) ∧
    match last (freeTasks (ext st)) with
    | Some h0 =>
        h = h0 ∧
        freeTasks (ext st) = freeTasks (ext (asap t st)) ++ [h] ∧
        length (holders (ext (asap t st))) = length (holders (ext st))
    | None =>
        h = length (holders (ext st)) ∧
        freeTasks (ext st) = [] ∧
        freeTasks (ext (asap t st)) = [] ∧
        length (holders (ext (asap t st))) = S (length (holders (ext st)))
    end.
Proof.
  intros Hwf. pose proof Hwf as [Hc Hnd Hal Hb Hlog Htm].
  destruct (asap_frame t st) as (Hi & _ & _ & _ & _ & _ & _ & _ & _ & _ & Hfr & _).
  destruct (asap_fields t st) as (h & hs & Hh & Hst).
  assert (Hq : queue (asap t st) = queue st ++ [h]).
  { rewrite Hst. by rewrite (proj1 (rawAsap_fields h _)). }
  assert (Hhs : holders (ext (asap t st)) = <[h := Some t]> hs).
  { rewrite Hst. by rewrite (proj2 (proj2 (proj2 (proj2 (proj2 (proj2
      (rawAsap_fields h _))))))). }
  exists h. split; [done|]. split.
  { unfold pending. rewrite Hq, Hi. apply pending_snoc. apply Hc. }
  destruct (last (freeTasks (ext st))) as [h0|] eqn:E; destruct Hh as [-> ->].
  - apply last_Some in E as [fs E].
    assert (Hfs : freeTasks (ext (asap t st)) = fs).
    { rewrite Hfr, E, length_app. simpl.
      replace (length fs + 1 - 1) with (length fs) by lia.
      by rewrite take_app_length. }
    assert (Hlt : h0 < length (holders (ext st))).
    { apply Hal. rewrite E, !elem_of_app, list_elem_of_singleton. auto. }
    split_and!.
    + rewrite E, app_assoc in Hnd. apply NoDup_app in Hnd as (_ & Hdisj & _).
      intros Hin. apply (Hdisj h0 Hin).
      rewrite elem_of_app, list_elem_of_singleton. auto.
    + unfold bound. rewrite Hhs. by rewrite list_lookup_insert_eq.
    + intros x Hx _. unfold bound. rewrite Hhs.
      by rewrite list_lookup_insert_ne.
    + done.
    + by rewrite Hfs.
    + by rewrite Hhs, length_insert.
  - apply last_None in E.
    split_and!.
    + intros Hin. specialize (Hal (length (holders (ext st)))).
      rewrite E, app_nil_r in Hal. specialize (Hal Hin). lia.
    + unfold bound. rewrite Hhs.
      rewrite list_lookup_insert_eq; [done|]. rewrite length_app. simpl. lia.
    + intros x Hx Hlt. unfold bound. rewrite Hhs.
      rewrite list_lookup_insert_ne by done. by rewrite lookup_app_l.
    + done.
    + done.
    + by rewrite Hfr, E.
    + rewrite Hhs, length_insert, length_app. simpl. lia.
Qed.

Lemma pending_entered st h t rest :
  wf st → pending st = h :: rest → pending (entered h t st) = rest.
Proof.
  intros Hwf Hp. unfold pending, entered in *. simpl.
  destruct (wf_cursor _ _ Hwf).
  replace (Z.to_nat (index st + 1)) with (Z.to_nat (index st) + 1) by lia.
  by rewrite <- drop_drop, Hp.
Qed.

Lemma pool_ok_enter st h t rest :
  wf st → pending st = h :: rest → bound st h = Some t →
  pool_ok [] st → pool_ok [h] (entered h t st).
Proof.
  intros Hwf Hp Hb [Hlen Hnull]. split.
  - rewrite (pending_entered st h t rest Hwf Hp). simpl in *.
    rewrite Hlen, Hp. simpl. lia.
  - done.
Qed.

Lemma pool_ok_asap d c s :
  wf_detached d s → pool_ok d s → pool_ok d (asap c s).
Proof.
  intros Hwf [Hlen Hnull].
  destruct (asap_pool d c s Hwf) as (h & _ & Hp & Hnin & Hbh & Hbo & Hcase).
  destruct (asap_frame c s) as (_ & _ & _ & _ & _ & _ & _ & _ & _ & _ & Hfr & Hll & _).
  assert (Hlk : ∀ x, x ≠ h → x < length (holders (ext s)) →
            holders (ext (asap c s)) !! x = holders (ext s) !! x).
  { intros x Hx Hlt. destruct (asap_fields c s) as (h' & hs & Hh & Hst).
    assert (Hhs : holders (ext (asap c s)) = <[h' := Some c]> hs).
    { rewrite Hst. by rewrite (proj2 (proj2 (proj2 (proj2 (proj2 (proj2
        (rawAsap_fields h' _))))))). }
    assert (h' = h) as ->.
    { destruct (last (freeTasks (ext s))); destruct Hh as [-> _];
        by destruct Hcase as (-> & _). }
    rewrite Hhs, list_lookup_insert_ne by done.
    destruct (last (freeTasks (ext s))); destruct Hh as [_ ->]; [done|].
    by rewrite lookup_app_l. }
  split.
  - rewrite Hp, length_app. simpl.
    destruct (last (freeTasks (ext s))) as [h0|].
    + destruct Hcase as (_ & Hf & ->). rewrite Hlen, Hf, length_app. simpl. lia.
    + destruct Hcase as (_ & Hf0 & -> & ->). rewrite Hlen, Hf0. simpl. lia.
  - intros x Hx.
    assert (Hxf : x ∈ freeTasks (ext s) ∧ x ≠ h).
    { destruct (last (freeTasks (ext s))) as [h0|].
      - destruct Hcase as (_ & Hf & _). split.
        + rewrite Hf, elem_of_app. auto.
        + intros ->. destruct Hwf as [_ Hnd _ _ _ _].
          rewrite Hf in Hnd. rewrite !app_assoc in Hnd.
          apply NoDup_app in Hnd as (_ & Hdisj & _).
          apply (Hdisj h); [rewrite !elem_of_app; auto|].
          by apply list_elem_of_singleton.
      - destruct Hcase as (_ & _ & Hf & _). rewrite Hf in Hx.
        by apply elem_of_nil in Hx. }
    destruct Hxf as [Hxf Hne].
    rewrite Hlk; [by apply Hnull|done|].
    apply (wf_alloc _ _ Hwf). rewrite !elem_of_app. auto.
Qed.

Lemma pool_ok_ext d s s' :
  queue s' = queue s → index s' = index s →
  holders (ext s') = holders (ext s) →
  freeTasks (ext s') = freeTasks (ext s) →
  pool_ok d s → pool_ok d s'.
Proof.
  intros Hq Hi Hh Hf [Hlen Hnull]. unfold pool_ok, pending.
  rewrite Hq, Hi, Hh, Hf. done.
Qed.

Lemma pool_ok_release h s :
  wf_detached [h] s → pool_ok [h] s → pool_ok [] (release h s).
Proof.
  intros Hwf [Hlen Hnull]. split.
  - simpl in *. rewrite length_insert, length_app. simpl.
    change (pending (release h s)) with (pending s). lia.
  - intros x. simpl. rewrite elem_of_app, list_elem_of_singleton.
    intros [Hx| ->].
    + assert (x ≠ h).
      { intros ->. destruct Hwf as [_ Hnd _ _ _ _].
        apply NoDup_app in Hnd as (_ & Hdisj & _).
        apply (Hdisj h); [by apply list_elem_of_singleton|].
        rewrite elem_of_app. auto. }
      rewrite list_lookup_insert_ne by done. by apply Hnull.
    + apply list_lookup_insert_eq. apply (wf_alloc _ _ Hwf).
      rewrite elem_of_app, list_elem_of_singleton. auto.
Qed.

Lemma pool_ok_compact s :
  wf s → (capacity s < index s)%Z → pool_ok [] s → pool_ok [] (compacted s).
Proof.
  intros _ _ [Hlen Hnull]. split; [|done].
  unfold compacted, pending in *. simpl. by rewrite drop_0.
Qed.

Lemma pool_ok_finish s :
  wf s → ¬ (index s < queue_length s)%Z → pool_ok [] s →
  pool_ok [] (flush_finish s).
Proof.
  intros Hwf Hg [Hlen Hnull]. split; [|done].
  assert (Hp : pending s = []).
  { unfold pending. apply drop_ge. destruct (wf_cursor _ _ Hwf).
    unfold queue_length in *. lia. }
  rewrite Hp in Hlen. done.
Qed.

Lemma pool_ok_flush st st' r :
  wf st → flush st = Some (st', r) → pool_ok [] st → pool_ok [] st'.
Proof.
  apply (safe_flush_rule pool_ok).
  - apply pool_ok_enter.
  - intros d c s Hwf _ HQ. by apply pool_ok_asap.
  - intros d s err Hwf _ HQ. by apply (pool_ok_ext d s).
  - intros d s err Hwf _ HQ. by apply (pool_ok_ext d s).
  - apply pool_ok_release.
  - apply pool_ok_compact.
  - apply pool_ok_finish.
Qed.

Lemma pool_ok_reachable st : reachable st → pool_ok [] st.
Proof.
  intros [scope Hr].
  assert (H : wf st ∧ pool_ok [] st).
  { refine (rtc_ind_r (λ s, wf s ∧ pool_ok [] s) _ _ _ st Hr).
    - split; [apply AsapMore.wf_init|]. split; [done|].
      intros h. simpl. by intros ?%elem_of_nil.
    - intros y z _ Hyz [Hwf HQ]. split; [by eapply AsapMore.host_step_wf|].
      destruct Hyz as [t s|s s' r Hf|s s' r Ht|hook s].
      + by apply pool_ok_asap.
      + by eapply pool_ok_flush.
      + unfold throwFirstError in Ht.
        destruct (pendingErrors (ext s)) as [|e es]; injection Ht as <- <-;
          [done|]. by apply (pool_ok_ext [] s).
      + by apply (pool_ok_ext [] s). }
  apply H.
Qed.
End AsapPool.

(** ** Where the errors of a flush go *)
Module AsapEffect.
Import Asap AsapFacts AsapMore AsapParts.
Implicit Types (st s : state) (t : task).

Lemma errors_of_app l1 l2 : errors_of (l1 ++ l2) = errors_of l1 ++ errors_of l2.
Proof. apply omap_app. Qed.

Lemma error_timers_app l1 l2 :
  error_timers (l1 ++ l2) = error_timers l1 ++ error_timers l2.
Proof. apply bind_app. Qed.

Lemma flush_errors_turn st s s' r :
  wf s ∧ flush_errors st s → (index s < queue_length s)%Z →
  flush_body holder_call s = (s', r) → wf s' ∧ flush_errors st s'.
Proof.
  intros [Hwf (Hon & run & Htl & Hm)] Hg Hb.
  destruct (safe_turn _ _ _ Hwf Hg Hb)
    as (t & rest & _ & _ & Hwf' & _ & Hon' & Htl' & _ & Hout & _).
  split; [done|]. split; [congruence|].
  exists (run ++ [t]). split; [by rewrite Htl', Htl, app_assoc|].
  unfold call_outcome in Hout. rewrite Hon in Hout.
  destruct (onerror (ext st)) as [hook|].
  - destruct Hm as (Hpe & Hh & Hhl).
    destruct t as [i sp [|err]]; simpl in Hout;
      destruct Hout as (_ & -> & -> & ->); rewrite errors_of_app; simpl;
      rewrite ?app_nil_r, ?Hhl, <- ?app_assoc; done.
  - destruct Hm as (Hpe & Hh & Hhl).
    destruct t as [i sp [|err]]; simpl in Hout;
      destruct Hout as (_ & -> & -> & ->);
      rewrite errors_of_app, ?error_timers_app; simpl;
      rewrite ?app_nil_r, ?Hpe, ?Hh, <- ?app_assoc; done.
Qed.

Lemma flush_errors_refl st : flush_errors st st.
Proof.
  split; [done|]. exists []. split; [by rewrite app_nil_r|].
  destruct (onerror (ext st)); simpl; by rewrite !app_nil_r.
Qed.

(** What any flush leaves, however it ends. *)
Lemma flush_errors_flush st st' r :
  wf st → flush st = Some (st', r) → wf st' ∧ flush_errors st st'.
Proof.
  intros Hwf Hf.
  pose proof (flush_loop_rule holder_call (λ s, wf s ∧ flush_errors st s)
                (flush_errors_turn st) _ _ _ _
                (conj Hwf (flush_errors_refl st)) Hf) as Hres.
  destruct r; [|done].
  destruct Hres as (s & [Hwfs He] & Hg & ->).
  split; [by apply finish_wf|done].
Qed.
End AsapEffect.

(** ** A hook that throws *)
Module AsapStall.
Import Asap AsapFacts AsapMore AsapParts AsapEffect.
Implicit Types (st s : state) (t : task).



End AsapStall.

(** ** The timer table *)
Module TimersFacts.
Import Timers.
Implicit Types (tb : table) (tm : timer) (cb : callback).

Lemma alter_snoc {A} (g : A → A) (l : list A) (x : A) :
  alter g (length l) (l ++ [x]) = l ++ [g x].
Proof. induction l as [|a l IH]; simpl; [done|]. f_equal. exact IH. Qed.

Lemma requestCall_eq cb tb :
  requestCall cb tb
  = mkTable (active tb ++ [mkTimer (next tb) false 0 (length (envs tb));
                           mkTimer (S (next tb)) true 50 (length (envs tb))])
            (S (S (next tb)))
            (envs tb ++ [mkEnv (Some (next tb)) (Some (S (next tb))) cb]).
Proof.
  unfold requestCall, setTimeout, setInterval. cbn [active next envs].
  rewrite alter_snoc. cbn [active next envs intervalHandle callback_of].
  rewrite alter_snoc. cbn [timeoutHandle callback_of].
  by rewrite <- app_assoc.
Qed.

Lemma find_Some h tb tm :
  find h tb = Some tm → tm ∈ active tb ∧ handle tm = h.
Proof.
  unfold find. intros H. apply List.find_some in H as [Hin Heq].
  split; [by apply list_elem_of_In|]. by apply Nat.eqb_eq.
Qed.

Lemma find_None h tb :
  find h tb = None → ∀ tm, tm ∈ active tb → handle tm ≠ h.
Proof.
  unfold find. intros H tm Hin Heq.
  pose proof (List.find_none _ _ H tm (proj1 (list_elem_of_In _ _) Hin)) as Hf.
  simpl in Hf. apply Nat.eqb_neq in Hf. done.
Qed.

Lemma find_is_Some h tb tm :
  tm ∈ active tb → handle tm = h → is_Some (find h tb).
Proof.
  intros Hin Heq. destruct (find h tb) eqn:E; [done|].
  by destruct (find_None h tb E tm Hin).
Qed.

Lemma ok_empty first : ok first (empty first).
Proof.
  constructor; simpl.
  - lia.
  - done.
  - intros tm Hin. by apply elem_of_nil in Hin.
  - apply NoDup_nil_2.
  - intros tm Hin. by apply elem_of_nil in Hin.
Qed.

Lemma requestCall_ok first cb tb : ok first tb → ok first (requestCall cb tb).
Proof.
  intros [Hn He Ha Hd Hb]. rewrite requestCall_eq. constructor; simpl.
  - rewrite length_app. simpl. lia.
  - intros f v Hf. apply lookup_app_Some in Hf as [Hf|[Hlen Hf]].
    + by apply He.
    + destruct (f - length (envs tb)) eqn:E; simpl in Hf; [|done].
      injection Hf as <-. simpl. assert (f = length (envs tb)) as -> by lia.
      split; f_equal; lia.
  - intros tm. rewrite elem_of_app, !elem_of_cons, length_app. simpl.
    intros [Hin|[->|[->|Hin]]]; simpl.
    + destruct (Ha tm Hin). split; [lia|done].
    + split; lia.
    + split; lia.
    + by apply elem_of_nil in Hin.
  - rewrite fmap_app. simpl. apply NoDup_app. split_and!; [done| |].
    + intros x Hx. rewrite !elem_of_cons.
      apply list_elem_of_fmap in Hx as (tm & -> & Hin).
      destruct (Ha tm Hin) as [Hc Hh].
      intros [Heq|[Heq|Heq]]; [| |by apply elem_of_nil in Heq];
        destruct (repeating tm); lia.
    + apply NoDup_cons. split; [|apply NoDup_singleton].
      rewrite list_elem_of_singleton. lia.
  - intros tm. rewrite !elem_of_app, !elem_of_cons.
    intros [Hin|[->|[->|Hin]]] Hrep; simpl in *.
    + destruct (Hb tm Hin Hrep) as (tm' & Hin' & Hr' & Hc').
      exists tm'. rewrite elem_of_app. auto.
    + eexists (mkTimer (S (next tb)) true 50 (length (envs tb))).
      rewrite elem_of_app, !elem_of_cons. auto.
    + done.
    + by apply elem_of_nil in Hin.
Qed.

Lemma filter_ext_in {A} (P1 P2 : A → Prop)
    `{!∀ x, Decision (P1 x), !∀ x, Decision (P2 x)} (l : list A) :
  (∀ x, x ∈ l → (P1 x ↔ P2 x)) → filter P1 l = filter P2 l.
Proof.
  induction l as [|a l IH]; intros Hext; [done|].
  rewrite !filter_cons.
  rewrite IH by (intros x Hx; apply Hext; by apply elem_of_cons; right).
  destruct (decide (P1 a)) as [H1|H1], (decide (P2 a)) as [H2|H2]; try done.
  - destruct H2. apply Hext; [apply elem_of_cons; auto|done].
  - destruct H1. apply Hext; [apply elem_of_cons; auto|done].
Qed.

Lemma requestCall_awaiting first cb cb' tb :
  ok first tb →
  length (awaiting cb' (requestCall cb tb))
  = length (awaiting cb' tb) + (if decide (cb' = cb) then 1 else 0).
Proof.
  intros [Hn He Ha Hd Hb]. rewrite requestCall_eq. unfold awaiting. simpl.
  rewrite filter_app, length_app. f_equal.
  - f_equal. apply filter_ext_in. intros tm Hin.
    destruct (Ha tm Hin) as [Hlt _]. by rewrite lookup_app_l.
  - rewrite filter_cons_False by (simpl; intros [? _]; done).
    rewrite filter_cons. simpl.
    rewrite lookup_app_r, Nat.sub_diag by lia. simpl.
    destruct (decide (cb' = cb)) as [->|Hne].
    + rewrite decide_True by done. done.
    + rewrite decide_False; [done|]. intros [_ [=]]. done.
Qed.

Lemma awaiting_nodup first cb tb :
  ok first tb → NoDup (closure <$> awaiting cb tb).
Proof.
  intros [Hn He Ha Hd Hb].
  apply (NoDup_fmap_1 (λ c, first + 2 * c + 1)).
  rewrite <- list_fmap_compose.
  assert (Heq : (λ c, first + 2 * c + 1) ∘ closure <$> awaiting cb tb
                = handle <$> awaiting cb tb).
  { apply list_fmap_ext. intros i tm Hi.
    apply list_elem_of_lookup_2, list_elem_of_filter in Hi as [[Hr _] Hin].
    destruct (Ha tm Hin) as [_ ->]. rewrite Hr. simpl. done. }
  rewrite Heq. unfold awaiting.
  apply (sublist_NoDup _ (handle <$> active tb) Hd).
  apply fmap_sublist, sublist_filter.
Qed.

(** Removing the one element of key [k] from a list with distinct keys. *)
Lemma length_filter_key {A} (key : A → nat) (l : list A) (x : A) :
  NoDup (key <$> l) → x ∈ l →
  length (filter (λ y, key y ≠ key x) l) + 1 = length l.
Proof.
  induction l as [|a l IH]; intros Hnd Hin; [by apply elem_of_nil in Hin|].
  rewrite fmap_cons in Hnd. apply NoDup_cons in Hnd as [Hna Hnd].
  apply elem_of_cons in Hin as [->|Hin].
  - rewrite filter_cons_False by (intros H; by apply H).
    simpl. assert (filter (λ y, key y ≠ key a) l = l) as ->; [|lia].
    clear IH. induction l as [|b l IHl]; [done|].
    rewrite fmap_cons in Hna, Hnd. apply NoDup_cons in Hnd as [_ Hnd].
    rewrite not_elem_of_cons in Hna. destruct Hna as [Hab Hna].
    rewrite filter_cons_True by (intros H; by apply Hab).
    f_equal. by apply IHl.
  - rewrite filter_cons_True.
    + simpl. rewrite <- (IH Hnd Hin). lia.
    + intros Heq. apply Hna. rewrite Heq. by apply list_elem_of_fmap_2.
Qed.

Lemma filter_all {A} (P : A → Prop) `{!∀ x, Decision (P x)} (l : list A) :
  (∀ x, x ∈ l → P x) → filter P l = l.
Proof.
  induction l as [|a l IH]; intros Hall; [done|].
  rewrite filter_cons_True by (apply Hall, elem_of_cons; auto).
  f_equal. apply IH. intros x Hx. apply Hall, elem_of_cons. auto.
Qed.

(** Firing an active timer: its closure's callback is called and no timer
    of that closure stays active. *)
Lemma fire_active first h tb tm :
  ok first tb → find h tb = Some tm →
  ∃ v, envs tb !! closure tm = Some v ∧
       fire h tb
       = (set_active (filter (λ x, closure x ≠ closure tm) (active tb)) tb,
          Some (callback_of v)).
Proof.
  intros [Hn He Ha Hd Hb] Hfind.
  destruct (find_Some h tb tm Hfind) as [Hin Hh].
  destruct (Ha tm Hin) as [Hlt Hhtm].
  destruct (lookup_lt_is_Some_2 (envs tb) (closure tm) Hlt) as [v Hv].
  destruct (He _ _ Hv) as [Hvt Hvi].
  exists v. split; [done|].
  unfold fire. rewrite Hfind. unfold handleTimer.
  assert (Hext : ∀ l : list timer, (∀ x, x ∈ l → x ∈ active tb) →
    filter (λ x, handle x ≠ first + 2 * closure tm + 1)
      (filter (λ x, handle x ≠ first + 2 * closure tm) l)
    = filter (λ x, closure x ≠ closure tm) l).
  { intros l Hl. rewrite list_filter_filter. apply filter_ext_in.
    intros x Hx. destruct (Ha x (Hl x Hx)) as [_ Hhx].
    destruct (repeating x); lia. }
  destruct (repeating tm) eqn:Hrep.
  - simpl. rewrite Hv, Hvt, Hvi. unfold clearInterval, clearTimeout, clear.
    unfold set_active. simpl. by rewrite Hext.
  - simpl. rewrite Hv, Hvt, Hvi. unfold clearInterval, clearTimeout, clear.
    unfold set_active. simpl. rewrite Hext.
    + f_equal. f_equal. rewrite list_filter_filter. apply filter_ext_in.
      intros x Hx. destruct (Ha x Hx) as [_ Hhx].
      destruct (repeating x); lia.
    + intros x Hx. by apply list_elem_of_filter in Hx as [_ ?].
Qed.

Lemma fire_inactive h tb : find h tb = None → fire h tb = (tb, None).
Proof. intros H. unfold fire. by rewrite H. Qed.

Lemma ok_filter_closure first f tb :
  ok first tb →
  ok first (set_active (filter (λ x, closure x ≠ f) (active tb)) tb).
Proof.
  intros [Hn He Ha Hd Hb]. constructor; simpl; try done.
  - intros tm Hin. apply list_elem_of_filter in Hin as [_ Hin]. by apply Ha.
  - apply (sublist_NoDup _ (handle <$> active tb) Hd).
    apply fmap_sublist, sublist_filter.
  - intros tm Hin Hrep. apply list_elem_of_filter in Hin as [Hne Hin].
    destruct (Hb tm Hin Hrep) as (tm' & Hin' & Hr' & Hc').
    exists tm'. split_and!; try done.
    apply list_elem_of_filter. split; [by rewrite Hc'|done].
Qed.

Lemma fire_ok first h tb tb' ocb :
  ok first tb → fire h tb = (tb', ocb) → ok first tb'.
Proof.
  intros Hok Hf. destruct (find h tb) as [tm|] eqn:E.
  - destruct (fire_active first h tb tm Hok E) as (v & _ & Heq).
    rewrite Heq in Hf. injection Hf as <- <-. by apply ok_filter_closure.
  - rewrite (fire_inactive h tb E) in Hf. by injection Hf as <- <-.
Qed.

Lemma lose_ok first h tb : ok first tb → ok first (lose h tb).
Proof.
  intros [Hn He Ha Hd Hb]. constructor; simpl; try done.
  - intros tm Hin. apply list_elem_of_filter in Hin as [_ Hin]. by apply Ha.
  - apply (sublist_NoDup _ (handle <$> active tb) Hd).
    apply fmap_sublist, sublist_filter.
  - intros tm Hin Hrep. apply list_elem_of_filter in Hin as [Hne Hin].
    destruct (Hb tm Hin Hrep) as (tm' & Hin' & Hr' & Hc').
    exists tm'. split_and!; try done.
    apply list_elem_of_filter. split; [|done]. intros [_ ?]. congruence.
Qed.

Lemma lose_awaiting cb h tb : awaiting cb (lose h tb) = awaiting cb tb.
Proof.
  unfold awaiting, lose. simpl. rewrite list_filter_filter.
  apply list_filter_iff. intros tm. split; [tauto|].
  intros [Hr Hc]. split_and!; try done. intros [_ ?]. congruence.
Qed.

(** Firing an active timer serves exactly one awaiting request, of the
    callback it calls. *)
Lemma fire_awaiting first h tb tm v cb :
  ok first tb → find h tb = Some tm → envs tb !! closure tm = Some v →
  length (awaiting cb (fire h tb).1)
  + (if decide (cb = callback_of v) then 1 else 0)
  = length (awaiting cb tb).
Proof.
  intros Hok Hfind Hv.
  destruct (fire_active first h tb tm Hok Hfind) as (v' & Hv' & Heq).
  rewrite Hv in Hv'. injection Hv' as <-. rewrite Heq. simpl.
  destruct (find_Some h tb tm Hfind) as [Hin Hh].
  assert (Hcomm : awaiting cb (set_active (filter (λ x, closure x ≠ closure tm)
                                  (active tb)) tb)
                  = filter (λ x, closure x ≠ closure tm) (awaiting cb tb)).
  { unfold awaiting. simpl. rewrite !list_filter_filter.
    apply list_filter_iff. intros x. tauto. }
  rewrite Hcomm.
  destruct (decide (cb = callback_of v)) as [->|Hne].
  - assert (Hint : ∃ tmi, tmi ∈ awaiting (callback_of v) tb ∧
                          closure tmi = closure tm).
    { destruct (repeating tm) eqn:Hrep.
      - exists tm. split; [|done]. apply list_elem_of_filter.
        split; [|done]. split; [done|]. by rewrite Hv.
      - destruct (ok_backed _ _ Hok tm Hin Hrep) as (tm' & Hin' & Hr' & Hc').
        exists tm'. split; [|done]. apply list_elem_of_filter.
        split; [|done]. split; [done|]. by rewrite Hc', Hv. }
    destruct Hint as (tmi & Hini & Hci). rewrite <- Hci.
    apply (length_filter_key closure); [|done].
    by apply (awaiting_nodup first).
  - rewrite filter_all; [lia|].
    intros x Hx Heqc. apply list_elem_of_filter in Hx as [[_ Hcb] _].
    rewrite Heqc, Hv in Hcb. simpl in Hcb. congruence.
Qed.

Lemma act_served first a x : served_ok first x → served_ok first (act a x).
Proof.
  destruct x as [tb called]. intros (Hok & Hnd & Hlt & Hcls).
  unfold served_ok, idle, armed in *. simpl in *.
  destruct a as [cb|h|h]; cbn -[requestCall fire lose find].
  - (* a new request *)
    pose proof (requestCall_ok first cb tb Hok) as Hok'.
    rewrite requestCall_eq in *. split_and!; simpl; try done.
    + intros f Hf. rewrite length_app. simpl. specialize (Hlt f Hf). lia.
    + intros f. rewrite length_app. simpl. intros Hf.
      destruct (decide (f = length (envs tb))) as [->|Hne].
      * right. split.
        -- intros Hin. specialize (Hlt _ Hin). lia.
        -- eexists (mkTimer (S (next tb)) true 50 (length (envs tb))).
           rewrite elem_of_app, !elem_of_cons. auto.
      * destruct (Hcls f ltac:(lia)) as [[Hin Hidle]|[Hnin Harm]].
        -- left. split; [done|]. intros tm.
           rewrite elem_of_app, !elem_of_cons.
           intros [Hx|[->|[->|Hx]]]; simpl; [by apply Hidle|lia|lia|].
           by apply elem_of_nil in Hx.
        -- right. split; [done|]. destruct Harm as (tm & Hin & Hc & Hr).
           exists tm. rewrite elem_of_app. auto.
  - (* a timer fires *)
    destruct (find h tb) as [tm|] eqn:E.
    + destruct (fire_active first h tb tm Hok E) as (v & Hv & ->).
      destruct (find_Some h tb tm E) as [Hin _].
      destruct (ok_active _ _ Hok tm Hin) as [Hc _].
      assert (Hnew : closure tm ∉ called).
      { intros Hcalled.
        destruct (Hcls _ Hc) as [[_ Hidle]|[Hnin _]]; [|done].
        by apply (Hidle tm). }
      split_and!; simpl.
      * by apply ok_filter_closure.
      * apply NoDup_app. split_and!; [done| |apply NoDup_singleton].
        intros x Hx ->%list_elem_of_singleton. done.
      * intros f. rewrite elem_of_app, list_elem_of_singleton.
        intros [Hf| ->]; [by apply Hlt|done].
      * intros f Hf. destruct (decide (f = closure tm)) as [->|Hne].
        -- left. split; [rewrite elem_of_app, list_elem_of_singleton; auto|].
           intros x Hx. by apply list_elem_of_filter in Hx as [? _].
        -- destruct (Hcls f Hf) as [[Hin' Hidle]|[Hnin Harm]].
           ++ left. split; [rewrite elem_of_app; auto|].
              intros x Hx. apply list_elem_of_filter in Hx as [_ Hx].
              by apply Hidle.
           ++ right. split.
              ** rewrite elem_of_app, list_elem_of_singleton. tauto.
              ** destruct Harm as (x & Hx & Hcx & Hrx). exists x.
                 split_and!; try done. apply list_elem_of_filter.
                 split; [congruence|done].
    + rewrite (fire_inactive h tb E). done.
  - (* a timeout is lost *)
    split_and!; simpl; try done.
    + by apply lose_ok.
    + intros f Hf. destruct (Hcls f Hf) as [[Hin' Hidle]|[Hnin Harm]].
      * left. split; [done|]. intros x Hx.
        apply list_elem_of_filter in Hx as [_ Hx]. by apply Hidle.
      * right. split; [done|]. destruct Harm as (x & Hx & Hcx & Hrx).
        exists x. split_and!; try done. apply list_elem_of_filter.
        split; [|done]. intros [_ ?]. congruence.
Qed.

Lemma run_served first acts : ∀ x,
  served_ok first x → served_ok first (run acts x).
Proof.
  induction acts as [|a acts IH]; intros x Hx; [done|].
  simpl. apply IH. by apply act_served.
Qed.

Lemma served_empty first : served_ok first (empty first, []).
Proof.
  split_and!; simpl.
  - apply ok_empty.
  - apply NoDup_nil_2.
  - intros f Hf. by apply elem_of_nil in Hf.
  - intros f Hf. lia.
Qed.
End TimersFacts.

(** ** The instance in its host *)
Module WorldFacts.
Import Asap AsapFacts AsapMore AsapParts AsapEffect World.
Import Timers TimersFacts.
Implicit Types (w : world) (s st : state) (cb : callback).

Lemma settle_app before evs s' w :
  host s' = before ++ evs →
  settle before s' w = foldl (λ w r, perform r w) (set_sched s' w) (requests_in evs).
Proof. intros H. unfold settle. by rewrite H, drop_app_length. Qed.

Lemma settle_nil s' w : host s' = host (sched w) → settle (host (sched w)) s' w = set_sched s' w.
Proof.
  intros H. rewrite (settle_app _ [] s' w); [done|]. by rewrite app_nil_r.
Qed.

Lemma requests_in_error_timers es :
  requests_in (error_timers es) = (λ _, requestCall_timer cb_throwFirstError) <$> es.
Proof. induction es as [|e es IH]; [done|]. simpl. f_equal. exact IH. Qed.

Lemma asap_host_empty t s :
  queue s = [] →
  ∃ evs, host (asap t s) = host s ++ evs ∧ requests_in evs = [requestFlush s].
Proof.
  intros Hq. destruct (asap_fields t s) as (h & hs & _ & ->).
  rewrite rawAsap_empty by done. simpl.
  destruct (requestFlush s); simpl; eexists; (split; [done|done]).
Qed.

(** Deferred-throw requests taken in by the host. *)
Lemma perform_error_requests first (es : list error) : ∀ w,
  ok first (timers w) →
  ∃ w', foldl (λ w r, perform r w) w
          ((λ _, requestCall_timer cb_throwFirstError) <$> es) = w' ∧
  sched w' = sched w ∧ observed w' = observed w ∧ ok first (timers w') ∧
  outstanding cb_flush w' = outstanding cb_flush w ∧
  outstanding cb_throwFirstError w' = outstanding cb_throwFirstError w + length es.
Proof.
  induction es as [|e es IH]; intros w Hok.
  - exists w. simpl. split_and!; try done; lia.
  - set (w1 := set_timers (requestCall cb_throwFirstError (timers w)) w).
    assert (Hok1 : ok first (timers w1)) by by apply requestCall_ok.
    destruct (IH w1 Hok1) as (w' & Hw' & Hs & Ho & Hok' & Hf & He).
    exists w'. split; [exact Hw'|].
    split_and!; try done.
    + rewrite Hf. unfold outstanding, w1. simpl.
      rewrite (requestCall_awaiting first) by done.
      destruct (decide (cb_flush = cb_throwFirstError)); [done|lia].
    + rewrite He. unfold outstanding, w1. simpl.
      rewrite (requestCall_awaiting first) by done.
      destruct (decide (cb_throwFirstError = cb_throwFirstError)); [lia|done].
Qed.

Lemma settled_new scope first : settled first (new_world scope first).
Proof.
  constructor; simpl.
  - apply wf_init.
  - apply hook_returns_init.
  - done.
  - apply ok_empty.
  - destruct (is_function (BrowserMutationObserver scope)); auto.
  - by left.
  - done.
  - done.
Qed.

Lemma settled_asap first t w : settled first w → settled first (client_asap t w).
Proof.
  intros [Hwf Hhook Hi Hok Hrf Hobs Hfl Her]. unfold client_asap.
  destruct (asap_wf [] t (sched w) Hwf) as (Hwf' & _ & _ & h & Hq').
  destruct (asap_frame t (sched w))
    as (Hi' & _ & Hrf' & Hpe' & _ & Hon' & _ & _ & _ & _ & _ & _ & Hhost).
  assert (Hne : queue (asap t (sched w)) ≠ []).
  { rewrite Hq'. by destruct (queue (sched w)). }
  assert (Hhook' : hook_returns (asap t (sched w))).
  { intros hook e. rewrite Hon'. apply Hhook. }
  assert (Hrf2 : requestFlush (asap t (sched w)) = requestCall_observer cb_flush
                 ∨ requestFlush (asap t (sched w)) = requestCall_timer cb_flush)
    by (by rewrite Hrf').
  assert (Het : ∀ o, o = None ∨ o = Some cb_flush →
            (if decide (o = Some cb_throwFirstError) then 1 else 0) = 0).
  { intros o Ho. destruct (decide (o = Some cb_throwFirstError)); [|done].
    destruct Ho; congruence. }
  unfold outstanding in *.
  destruct (decide (queue (sched w) = [])) as [Hq|Hq].
  - destruct (asap_host_empty t (sched w) Hq) as (evs & Hh & Hev).
    rewrite (settle_app _ evs) by done. rewrite Hev. simpl.
    assert (Hf0 : length (awaiting cb_flush (timers w)) = 0) by lia.
    destruct Hrf as [Hrf|Hrf]; rewrite Hrf; simpl.
    + constructor; simpl; [done|done|congruence|done|done|by right| |].
      * unfold outstanding. simpl.
        destruct (decide (queue (asap t (sched w)) = [])); [done|].
        destruct (decide (Some cb_flush = Some cb_flush)); [lia|done].
      * unfold outstanding. simpl. rewrite Het in Her by done.
        rewrite Hpe', <- Her. simpl. lia.
    + constructor; simpl;
        [done|done|congruence|by apply requestCall_ok|done|done| |].
      * unfold outstanding. simpl.
        rewrite (requestCall_awaiting first) by done.
        destruct (decide (queue (asap t (sched w)) = [])); [done|].
        destruct (decide (cb_flush = cb_flush)); [|done].
        destruct (decide (observed w = Some cb_flush)); lia.
      * unfold outstanding. simpl.
        rewrite (requestCall_awaiting first) by done. rewrite Hpe', <- Her.
        destruct (decide (cb_throwFirstError = cb_flush)); [done|lia].
  - rewrite settle_nil by auto.
    constructor; simpl; [done|done|congruence|done|done|done| |].
    + unfold outstanding. simpl.
      destruct (decide (queue (asap t (sched w)) = [])); [done|]. done.
    + unfold outstanding. simpl. by rewrite Hpe'.
Qed.

Lemma flush_requestFlush st st' r :
  wf st → flush st = Some (st', r) → requestFlush st' = requestFlush st.
Proof.
  intros Hwf Hf.
  apply (AsapRule.safe_flush_rule (λ _ s, requestFlush s = requestFlush st))
    with (st := st) (r := r); try done.
  intros d c s _ _ <-. by destruct (asap_frame c s) as (_ & _ & ? & _).
Qed.

(** What a flush leaves of the errors, whatever the hook. *)
Lemma flush_deferred st st' r :
  wf st → flush st = Some (st', r) →
  ∃ es, pendingErrors (ext st') = pendingErrors (ext st) ++ es ∧
        host st' = host st ++ error_timers es ∧
        onerror (ext st') = onerror (ext st).
Proof.
  intros Hwf Hf.
  destruct (flush_errors_flush st st' r Hwf Hf) as (_ & Hon & run & _ & Hm).
  destruct (onerror (ext st)).
  - exists []. destruct Hm as (-> & -> & _). by rewrite !app_nil_r.
  - exists (errors_of run). by destruct Hm as (-> & -> & _).
Qed.

(** The host calls [flush] when it owes no other flush: the call
    returns, the queue is empty, and the world is settled. *)
Lemma host_calls_flush first w :
  wf (sched w) → hook_returns (sched w) → ok first (timers w) →
  (requestFlush (sched w) = requestCall_observer cb_flush
   ∨ requestFlush (sched w) = requestCall_timer cb_flush) →
  observed w = None →
  outstanding cb_flush w = 0 →
  outstanding cb_throwFirstError w = length (pendingErrors (ext (sched w))) →
  ∃ w', host_calls cb_flush w = Some (w', Returned) ∧
        settled first w' ∧ queue (sched w') = [] ∧
        task_log (ext (sched w')) = asap_log (ext (sched w')).
Proof.
  intros Hwf Hhook Hok Hrf Hobs Hfl Her.
  destruct (safe_flush_total (sched w) Hwf) as [[s' r] Hf].
  pose proof (flush_returns _ _ _ Hwf Hhook Hf) as ->.
  destruct (safe_flush_summary _ _ Hwf Hf) as (Hwf' & Hq' & _).
  destruct (flush_deferred _ _ _ Hwf Hf) as (es & Hpe & Hh & Hon).
  pose proof (flush_requestFlush _ _ _ Hwf Hf) as Hrf'.
  unfold host_calls. simpl. rewrite Hf.
  rewrite (settle_app _ (error_timers es)) by done.
  rewrite requests_in_error_timers.
  destruct (perform_error_requests first es (set_sched s' w) Hok)
    as (w' & -> & Hs & Ho & Hok' & Hcf & Hce).
  simpl in Hs, Ho. exists w'. split; [done|].
  assert (Hlogs : task_log (ext s') = asap_log (ext s')).
  { rewrite (wf_logs _ _ Hwf'). unfold pending_tasks, pending.
    rewrite Hq', drop_nil. simpl. by rewrite app_nil_r. }
  split; [|by rewrite Hs].
  constructor; rewrite ?Hs, ?Ho; try done.
  - intros hook e. rewrite Hon. apply Hhook.
  - pose proof (wf_cursor _ _ Hwf') as Hc. unfold cursor_ok, queue_length in Hc.
    rewrite Hq' in Hc. simpl in Hc. lia.
  - by rewrite Hrf'.
  - by left.
  - rewrite Hcf, Hq'. simpl. exact Hfl.
  - rewrite Hce, Hpe, length_app.
    change (outstanding cb_throwFirstError (set_sched s' w))
      with (outstanding cb_throwFirstError w). lia.
Qed.

(** The host calls [throwFirstError] after taking one of its requests
    off: the oldest error is thrown. *)
Lemma host_calls_throwFirstError first w :
  wf (sched w) → hook_returns (sched w) → index (sched w) = 0%Z →
  ok first (timers w) →
  (requestFlush (sched w) = requestCall_observer cb_flush
   ∨ requestFlush (sched w) = requestCall_timer cb_flush) →
  (observed w = None ∨ observed w = Some cb_flush) →
  outstanding cb_flush w = (if decide (queue (sched w) = []) then 0 else 1) →
  S (outstanding cb_throwFirstError w) = length (pendingErrors (ext (sched w))) →
  ∃ w' e es, host_calls cb_throwFirstError w = Some (w', Threw e) ∧
        pendingErrors (ext (sched w)) = e :: es ∧
        pendingErrors (ext (sched w')) = es ∧
        settled first w'.
Proof.
  intros Hwf Hhook Hi Hok Hrf Hobs Hfl Her.
  destruct (pendingErrors (ext (sched w))) as [|e es] eqn:Hpe; [done|].
  unfold host_calls. simpl. unfold throwFirstError. rewrite Hpe.
  rewrite settle_nil by done.
  eexists _, e, es. split; [done|]. split; [done|]. split; [done|].
  constructor; simpl; try done.
  - by destruct (wf_detached_ext [] (sched w)
                   (upd (set_pendingErrors es) (sched w))) as (? & _).
  - simpl in Her. unfold outstanding in *. simpl. lia.
Qed.

Lemma observed_not_error w :
  observed w = None ∨ observed w = Some cb_flush →
  (if decide (observed w = Some cb_throwFirstError) then 1 else 0) = 0.
Proof.
  intros Ho. destruct (decide (observed w = Some cb_throwFirstError)); [|done].
  destruct Ho; congruence.
Qed.

(** A timer of the table comes due in a settled world. *)
Lemma timer_fires_active first h w tm :
  settled first w → Timers.find h (timers w) = Some tm →
  ∃ v w' r, envs (timers w) !! closure tm = Some v ∧
    timer_fires h w = Some (w', r) ∧ settled first w' ∧
    match callback_of v with
    | cb_flush =>
        r = Returned ∧ queue (sched w') = [] ∧
        task_log (ext (sched w')) = asap_log (ext (sched w'))
    | cb_throwFirstError =>
        ∃ e es, r = Threw e ∧ pendingErrors (ext (sched w)) = e :: es ∧
                pendingErrors (ext (sched w')) = es
    end.
Proof.
  intros [Hwf Hhook Hi Hok Hrf Hobs Hfl Her] Hfind.
  destruct (fire_active first h _ tm Hok Hfind) as (v & Hv & Hfire).
  pose proof (fire_ok first h _ _ _ Hok Hfire) as Hok'.
  pose proof (fire_awaiting first h _ tm v cb_flush Hok Hfind Hv) as Haf.
  pose proof (fire_awaiting first h _ tm v cb_throwFirstError Hok Hfind Hv) as Hae.
  rewrite Hfire in Haf, Hae. simpl in Haf, Hae.
  unfold timer_fires. rewrite Hfire.
  set (tb' := set_active _ _) in *. set (w1 := set_timers tb' w).
  unfold outstanding in Hfl, Her. rewrite observed_not_error in Her by done.
  exists v. destruct (callback_of v).
  - destruct (decide (cb_flush = cb_flush)) as [_|]; [|done].
    destruct (decide (cb_throwFirstError = cb_flush)) as [|_]; [done|].
    assert (Hone : observed w = None ∧ length (awaiting cb_flush tb') = 0).
    { destruct (decide (queue (sched w) = [])); [lia|].
      destruct (decide (observed w = Some cb_flush)); [lia|].
      split; [by destruct Hobs|lia]. }
    destruct Hone as [Hnone H0].
    destruct (host_calls_flush first w1) as (w' & Hc & Hs & Hq & Hl); try done.
    + unfold outstanding, w1. simpl. rewrite H0, Hnone. done.
    + unfold outstanding, w1. simpl. rewrite Hnone. simpl. lia.
    + exists w', Returned. by rewrite Hc.
  - destruct (decide (cb_flush = cb_throwFirstError)) as [|_]; [done|].
    destruct (decide (cb_throwFirstError = cb_throwFirstError)) as [_|]; [|done].
    destruct (host_calls_throwFirstError first w1)
      as (w' & e & es & Hc & Hp & Hp' & Hs); try done.
    + unfold outstanding, w1. simpl. rewrite <- Hfl. lia.
    + unfold outstanding, w1. simpl.
      rewrite observed_not_error by done. lia.
    + exists w', (Threw e). rewrite Hc. split_and!; try done. by exists e, es.
Qed.

Lemma settled_timer first h w w' r :
  settled first w → timer_fires h w = Some (w', r) → settled first w'.
Proof.
  intros Hs Hf. destruct (Timers.find h (timers w)) as [tm|] eqn:Hfind.
  - destruct (timer_fires_active first h w tm Hs Hfind)
      as (v & w2 & r2 & _ & Hf2 & Hs2 & _). congruence.
  - unfold timer_fires in Hf. rewrite (fire_inactive _ _ Hfind) in Hf.
    injection Hf as <- <-. by destruct w, Hs.
Qed.

(** The observer is notified in a settled world. *)
Lemma observer_notified_flushes first w :
  settled first w → observed w = Some cb_flush →
  ∃ w', observer_notified w = Some (w', Returned) ∧ settled first w' ∧
        queue (sched w') = [] ∧
        task_log (ext (sched w')) = asap_log (ext (sched w')).
Proof.
  intros [Hwf Hhook Hi Hok Hrf Hobs Hfl Her] Ho.
  unfold observer_notified. rewrite Ho.
  unfold outstanding in Hfl, Her. rewrite Ho in Hfl, Her.
  destruct (decide (Some cb_flush = Some cb_flush)); [|done].
  destruct (decide (Some cb_flush = Some cb_throwFirstError)); [done|].
  apply (host_calls_flush first (set_observed None w)); try done;
    unfold outstanding; simpl; try lia.
  destruct (decide (queue (sched w) = [])); lia.
Qed.

Lemma settled_observer first w w' r :
  settled first w → observer_notified w = Some (w', r) → settled first w'.
Proof.
  intros Hs Hf. pose proof (settled_observed _ _ Hs) as [Ho|Ho].
  - unfold observer_notified in Hf. rewrite Ho in Hf. by injection Hf as <- <-.
  - destruct (observer_notified_flushes first w Hs Ho) as (w2 & Hf2 & Hs2 & _).
    congruence.
Qed.

Lemma settled_dropped first h w : settled first w → settled first (timeout_dropped h w).
Proof.
  intros [Hwf Hhook Hi Hok Hrf Hobs Hfl Her].
  constructor; simpl; try done.
  - by apply lose_ok.
  - unfold outstanding in *. simpl. by rewrite lose_awaiting.
  - unfold outstanding in *. simpl. by rewrite lose_awaiting.
Qed.

Lemma settled_onerror first hook w :
  (∀ f e, hook = Some f → f e = Returned) →
  settled first w →
  settled first (set_sched (upd (set_onerror hook) (sched w)) w).
Proof.
  intros Hh [Hwf Hhook Hi Hok Hrf Hobs Hfl Her].
  constructor; simpl; try done.
  by destruct (wf_detached_ext [] (sched w)
                 (upd (set_onerror hook) (sched w))) as (? & _).
Qed.

Lemma settled_event first w w' : settled first w → event w w' → settled first w'.
Proof.
  intros Hs Hev. destruct Hev as [t w|hook w Hh|h w w' r Hf|w w' r Hf|h w].
  - by apply settled_asap.
  - by apply settled_onerror.
  - by eapply settled_timer.
  - by eapply settled_observer.
  - by apply settled_dropped.
Qed.

Lemma reachable_settled first w : reachable first w → settled first w.
Proof.
  intros [scope Hr].
  assert (H : ∀ a b, rtc event a b → settled first a → settled first b).
  { induction 1; eauto using settled_event. }
  eapply H; [done|apply settled_new].
Qed.
(** A timer of the table, by membership: it comes due and its request's
    callback runs. *)
Lemma timer_fires_member first w tm cb :
  settled first w → tm ∈ active (timers w) →
  callback_of <$> envs (timers w) !! closure tm = Some cb →
  ∃ w' r, timer_fires (handle tm) w = Some (w', r) ∧ settled first w' ∧
    match cb with
    | cb_flush =>
        r = Returned ∧ queue (sched w') = [] ∧
        task_log (ext (sched w')) = asap_log (ext (sched w'))
    | cb_throwFirstError =>
        ∃ e es, r = Threw e ∧ pendingErrors (ext (sched w)) = e :: es ∧
                pendingErrors (ext (sched w')) = es
    end.
Proof.
  intros Hs Hin Hcb.
  pose proof (settled_timers _ _ Hs) as Hok.
  destruct (find_is_Some (handle tm) _ tm Hin eq_refl) as [tm' Hfind].
  assert (Hc : closure tm' = closure tm).
  { apply find_Some in Hfind as [Hin' Hh].
    destruct (ok_active _ _ Hok tm Hin) as [_ H1].
    destruct (ok_active _ _ Hok tm' Hin') as [_ H2].
    destruct (repeating tm), (repeating tm'); lia. }
  destruct (timer_fires_active first _ w tm' Hs Hfind)
    as (v & w' & r & Hv & Hf & Hs' & Hm).
  rewrite Hc in Hv. rewrite Hv in Hcb. simpl in Hcb. injection Hcb as <-.
  by exists w', r.
Qed.

(** With a request outstanding, some interval or the observer stands for
    it. *)
Lemma outstanding_pos cb w :
  0 < outstanding cb w →
  observed w = Some cb ∨
  ∃ tm, tm ∈ active (timers w) ∧
        callback_of <$> envs (timers w) !! closure tm = Some cb.
Proof.
  unfold outstanding. intros Hpos.
  destruct (decide (observed w = Some cb)) as [Ho|_]; [by left|]. right.
  destruct (awaiting cb (timers w)) as [|tm l] eqn:E; [simpl in Hpos; lia|].
  assert (Hin : tm ∈ awaiting cb (timers w)) by (rewrite E; left).
  apply list_elem_of_filter in Hin as [[_ Hcb] Hin]. by exists tm.
Qed.
End WorldFacts.

(** ** Further theorems *)

(** [X1] Once a flush has returned, flushing again does nothing: the
    second flush returns at once and leaves the instance as it found
    it. *)
Theorem X1_flush_after_flush_is_a_no_op
    {Entry Ext : Type}
    (call : Entry → Raw Entry Ext → Raw Entry Ext * completion)
    (fuel fuel' : nat) (st st' : Raw Entry Ext) :
  flush_loop call fuel st = Some (st', Returned) →
  flush_loop call fuel' st' = Some (st', Returned).
Proof.
  intros Hf.
  destruct (flush_loop_rule call (λ _, True) ltac:(done) _ _ _ _ I Hf)
    as (s & _ & _ & ->).
  rewrite flush_loop_idle.
  - by rewrite flush_finish_idem.
  - unfold queue_length. simpl. lia.
Qed.

(** [X2] A flush of a raw instance that returns has called every task
    scheduled up to its end, in the order of scheduling: first those that
    were pending, then those scheduled while it ran. *)
Theorem X2_raw_flush_runs_first_in_first_out (st st' : RawTasks.state) :
  RawTasks.reachable st →
  RawTasks.flush st = Some (st', Returned) →
  ∃ newly,
    scheduled st' = scheduled st ++ newly ∧
    called st' = called st ++ pending st ++ newly ∧
    called st' = scheduled st'.
Proof.
  intros Hr Hf. pose proof (RawTasksFacts.reachable_inv _ Hr) as Hinv.
  destruct (RawTasksMore.flush_summary _ _ _ Hinv Hf)
    as ([Hc' Hlog'] & _ & run & newly & Hcl & Hs).
  destruct (flush_loop_rule RawTasks.call_task (λ _, True) ltac:(done)
              _ _ _ _ I Hf) as (s & _ & _ & Heq).
  assert (Hp : pending st' = []) by (by rewrite Heq).
  rewrite Hp, app_nil_r in Hlog'.
  exists newly. split; [done|]. split; [|done].
  rewrite <- Hlog', Hs. destruct Hinv as [_ ->]. by rewrite <- app_assoc.
Qed.

(** [X3] A flush of a raw instance makes no request to the host, whether
    it returns or a task interrupts it: [flush] does not arrange to be
    called again. *)
Theorem X3_raw_flush_asks_nothing_of_the_host (st st' : RawTasks.state)
    (r : completion) :
  RawTasks.reachable st →
  RawTasks.flush st = Some (st', r) →
  host st' = host st ∧ request_count st' = request_count st.
Proof.
  intros Hr Hf. pose proof (RawTasksFacts.reachable_inv _ Hr) as Hinv.
  destruct (RawTasksMore.flush_summary _ _ _ Hinv Hf) as (_ & Hh & _).
  split; [done|]. unfold request_count. by rewrite Hh.
Qed.

(** [X4] A turn of the loop that starts with the cursor at or below
    [capacity].  When its call returns, the turn leaves the cursor at or
    below [capacity] (it compacts once the cursor has passed it), and the
    queue is then no longer than [capacity] plus the pending entries.
    When its call throws, the turn leaves the cursor one further and the
    queue uncompacted, so the cursor can be [capacity + 1] when the
    flush ends. *)
Theorem X4_turn_bounds_cursor_unless_it_throws
    (st st' : RawTasks.state) (r : completion) :
  (0 ≤ index st ≤ capacity st)%Z →
  (index st < queue_length st)%Z →
  flush_body RawTasks.call_task st = (st', r) →
  match r with
  | Returned =>
      (0 ≤ index st' ≤ capacity st')%Z ∧
      (queue_length st' ≤ capacity st' + Z.of_nat (length (pending st')))%Z
  | Threw _ =>
      index st' = (index st + 1)%Z ∧ capacity st' = capacity st ∧
      ∃ t, array_get (queue st) (index st) = Some t ∧
           queue st' = queue st ++ task_spawns t
  end.
Proof.
  intros [H0 Hcap] Hg Hb.
  destruct (RawTasksFacts.turn _ _ _ H0 Hg Hb)
    as (t & rest & Ht & Hres & Hp & Hp' & _ & _ & Hc' & Hcap' & _ & _ & _
        & Hthrow).
  destruct r as [|err].
  - assert (Hc : cursor_ok st) by (simpl; lia).
    revert Hb. unfold flush_body. simpl. rewrite Ht.
    unfold RawTasks.call_task.
    set (s1 := log_called t (set_index (index st + 1) st)).
    destruct (rawAsap_all_fields (task_spawns t) s1) as (Hq & Hi & Hcp & _).
    rewrite <- Hres.
    destruct (Z.ltb_spec (capacity (rawAsap_all (task_spawns t) s1))
                         (index (rawAsap_all (task_spawns t) s1))) as [Hlt|Hge].
    + rewrite compact_spec.
      * intros [= <-]. unfold pending, queue_length. simpl.
        rewrite drop_0. rewrite Hcp. simpl. lia.
      * unfold cursor_ok, queue_length in *. rewrite Hq, Hi, length_app.
        simpl. lia.
    + intros [= <-]. rewrite Hi, Hcp in *. simpl in *.
      split; [lia|]. unfold pending, queue_length in *.
      rewrite length_drop. rewrite Hi. simpl. lia.
  - destruct (Hthrow ltac:(done)) as [Hi Hq].
    split; [done|]. split; [done|]. by exists t.
Qed.

(** [X5] The constructor chooses the request strategy once, by the
    scope.  It takes [MutationObserver] when that global is truthy and
    [WebKitMutationObserver] otherwise, and uses the observer closure
    when the value taken is a function, the timer closure when it is
    not, both for [flush]: a truthy [MutationObserver] that is not a
    function gives the timer closure whatever [WebKitMutationObserver]
    is.  Nothing the instance does afterwards changes the strategy, nor
    the capacity of 1024. *)
Theorem X5_raw_strategy_is_fixed (scope : Scope) (st : RawTasks.state) :
  rtc RawTasks.step (RawTasks.init scope) st →
  requestFlush st
  = (if is_function (if truthy (MutationObserver scope)
                     then MutationObserver scope
                     else WebKitMutationObserver scope)
     then requestCall_observer cb_flush else requestCall_timer cb_flush) ∧
  (requestFlush st = requestCall_observer cb_flush ↔
   MutationObserver scope = gv_function ∨
   (MutationObserver scope = gv_falsy ∧
    WebKitMutationObserver scope = gv_function)) ∧
  capacity st = 1024%Z.
Proof.
  intros Hr.
  assert (H : requestFlush st = requestFlush (RawTasks.init scope) ∧
              capacity st = 1024%Z).
  { revert st Hr.
    apply (raw_reachable_ind scope
             (λ st, requestFlush st = requestFlush (RawTasks.init scope) ∧
                    capacity st = 1024%Z)); [done|].
    intros s s' Hinv [HR HC] Hstep.
    destruct Hstep as [t s|s e Hg He|s s' r Hcap Hcomp|s Hg].
    - destruct (rawAsap_fields t s) as (_ & _ & -> & -> & _). done.
    - done.
    - rewrite (compact_spec s (proj1 Hinv)) in Hcomp.
      by injection Hcomp as <- <-.
    - done. }
  destruct H as [-> Hcap]. split; [done|]. split; [|done].
  simpl. unfold BrowserMutationObserver, logical_or.
  destruct (MutationObserver scope), (WebKitMutationObserver scope); simpl;
    split; intros H; try done; try (by auto);
    destruct H as [H|[H1 H2]]; done.
Qed.

(** [X6] The observer closure assigns -1, 1, -1, ... to [node.data]:
    each assignment changes the text of the node, so each is a mutation.
    The captured [toggle] is the last value assigned (1 at first), and an
    instance built where the global taken is not a function never
    touches the node. *)
Theorem X6_observer_toggle_alternates (scope : Scope) (st : RawTasks.state) :
  rtc RawTasks.step (RawTasks.init scope) st →
  node_data (host st) = alternating (length (node_data (host st))) ∧
  toggle st = toggled (length (node_data (host st))) ∧
  (is_function (BrowserMutationObserver scope) = false →
   node_data (host st) = []).
Proof.
  intros Hr.
  cut (requestFlush st = requestFlush (RawTasks.init scope) ∧
       node_data (host st) = alternating (length (node_data (host st))) ∧
       toggle st = toggled (length (node_data (host st))) ∧
       (is_function (BrowserMutationObserver scope) = false →
   node_data (host st) = [])).
  { tauto. }
  revert st Hr.
  apply (raw_reachable_ind scope
           (λ st, requestFlush st = requestFlush (RawTasks.init scope) ∧
                  node_data (host st) = alternating (length (node_data (host st))) ∧
                  toggle st = toggled (length (node_data (host st))) ∧
                  (is_function (BrowserMutationObserver scope) = false →
                   node_data (host st) = []))); [done|].
  intros s s' Hinv (HR & Hn & Ht & Hb) Hstep.
  destruct Hstep as [t s|s e Hg He|s s' r Hcap Hcomp|s Hg].
  - destruct (rawAsap_fields t s) as (_ & _ & _ & HR' & _).
    split; [congruence|].
    destruct (queue s) as [|x q] eqn:E.
    + rewrite (rawAsap_empty t s E). simpl.
      rewrite HR. simpl.
      destruct (is_function (BrowserMutationObserver scope)) eqn:EB; simpl.
      * rewrite node_data_app. simpl. rewrite length_app. simpl.
        rewrite Nat.add_1_r, alternating_S, toggled_S, <- Hn, <- Ht.
        split_and!; done.
      * rewrite node_data_app. simpl. rewrite app_nil_r. done.
    + rewrite (rawAsap_nonempty t s) by (by rewrite E). done.
  - done.
  - rewrite (compact_spec s (proj1 Hinv)) in Hcomp. by injection Hcomp as <- <-.
  - done.
Qed.

(** [X7] [asap] wraps the task in the holder freed last, and allocates a
    new holder only when the pool is empty.  The holder it enqueues is
    neither pending nor running, it is bound to the task, and no other
    holder is rebound. *)
Theorem X7_asap_takes_the_holder_freed_last
    (d : list nat) (t : task) (st : Asap.state) :
  Asap.wf_detached d st →
  ∃ h,
    queue (Asap.asap t st) = queue st ++ [h] ∧
    (h ∉ d ++ pending st) ∧
    Asap.bound (Asap.asap t st) h = Some t ∧
    (∀ x, x ≠ h → x < length (Asap.holders (ext st)) →
          Asap.bound (Asap.asap t st) x = Asap.bound st x) ∧
    match last (Asap.freeTasks (ext st)) with
    | Some h0 =>
        h = h0 ∧
        Asap.freeTasks (ext st) = Asap.freeTasks (ext (Asap.asap t st)) ++ [h] ∧
        length (Asap.holders (ext (Asap.asap t st)))
        = length (Asap.holders (ext st))
    | None =>
        h = length (Asap.holders (ext st)) ∧
        Asap.freeTasks (ext (Asap.asap t st)) = [] ∧
        length (Asap.holders (ext (Asap.asap t st)))
        = S (length (Asap.holders (ext st)))
    end.
Proof.
  intros Hwf.
  destruct (AsapPool.asap_pool d t st Hwf) as (h & Hq & _ & Hn & Hb & Ho & Hm).
  exists h. split_and!; try done.
  destruct (last (Asap.freeTasks (ext st))); [done|].
  by destruct Hm as (? & _ & ? & ?).
Qed.

(** [X8] Between two calls from the host, every holder ever allocated is
    either pending in the queue or free in the pool, never both and never
    twice; a free holder holds no task and a pending one holds its
    task. *)
Theorem X8_every_holder_is_pending_or_free (st : Asap.state) :
  Asap.reachable st →
  length (Asap.holders (ext st))
  = length (pending st) + length (Asap.freeTasks (ext st)) ∧
  NoDup (pending st ++ Asap.freeTasks (ext st)) ∧
  (∀ h, h ∈ Asap.freeTasks (ext st) → Asap.holders (ext st) !! h = Some None) ∧
  (∀ h, h ∈ pending st → is_Some (Asap.bound st h)).
Proof.
  intros Hr.
  destruct (AsapPool.pool_ok_reachable st Hr) as [Hlen Hnull].
  pose proof (AsapMore.reachable_wf st Hr) as Hwf.
  split_and!; [done| |done|].
  - apply (Asap.wf_nodup _ _ Hwf).
  - apply (Asap.wf_bound _ _ Hwf).
Qed.

(** [X9] With a hook set, a flush hands the hook the errors of the tasks
    it runs, in the order the tasks ran; it queues no error and asks the
    host for nothing, whether it returns or the hook interrupts it. *)
Theorem X9_hook_takes_the_errors_in_order
    (st st' : Asap.state) (r : completion) (hook : error → completion) :
  Asap.wf st → Asap.onerror (ext st) = Some hook →
  Asap.flush st = Some (st', r) →
  ∃ run,
    Asap.task_log (ext st') = Asap.task_log (ext st) ++ run ∧
    Asap.hook_log (ext st') = Asap.hook_log (ext st) ++ Asap.errors_of run ∧
    Asap.pendingErrors (ext st') = Asap.pendingErrors (ext st) ∧
    host st' = host st ∧
    Asap.onerror (ext st') = Some hook.
Proof.
  intros Hwf Hh Hf.
  destruct (AsapEffect.flush_errors_flush st st' r Hwf Hf)
    as (_ & Hon & run & Htl & Hm).
  rewrite Hh in Hm. destruct Hm as (Hpe & Hhost & Hhl).
  exists run. split_and!; try done. by rewrite Hon.
Qed.


(** [X11] Whatever the order in which requests are made, timers come due
    and timeouts are dropped: no request's callback is called twice, and
    every request has either been served and has no timer left, or has
    not been served and still has its interval armed. *)
Theorem X11_timer_request_is_served_once
    (first : nat) (acts : list Timers.action) :
  let x := Timers.run acts (Timers.empty first, []) in
  Timers.ok first x.1 ∧ NoDup x.2 ∧
  ∀ f, f < length (Timers.envs x.1) →
       (f ∈ x.2 ∧ Timers.idle f x.1) ∨ ((f ∉ x.2) ∧ Timers.armed f x.1).
Proof.
  intros x.
  destruct (TimersFacts.run_served first acts _ (TimersFacts.served_empty first))
    as (Hok & Hnd & _ & Hall).
  done.
Qed.

(** [X12] Whichever of the two timers of a request comes due first runs
    [handleTimer]: the callback is called, and both the timeout and the
    interval of that request are cancelled, so the other one never runs
    it again; the timers of other requests stay. *)
Theorem X12_first_timer_cancels_both
    (first h : nat) (tb : Timers.table) (tm : Timers.timer) :
  Timers.ok first tb → Timers.find h tb = Some tm →
  ∃ v tb',
    Timers.envs tb !! Timers.closure tm = Some v ∧
    Timers.fire h tb = (tb', Some (Timers.callback_of v)) ∧
    Timers.timeoutHandle v = Some (first + 2 * Timers.closure tm) ∧
    Timers.intervalHandle v = Some (first + 2 * Timers.closure tm + 1) ∧
    Timers.fire (first + 2 * Timers.closure tm) tb' = (tb', None) ∧
    Timers.fire (first + 2 * Timers.closure tm + 1) tb' = (tb', None) ∧
    ∀ x, Timers.closure x ≠ Timers.closure tm →
         (x ∈ Timers.active tb' ↔ x ∈ Timers.active tb).
Proof.
  intros Hok Hfind.
  destruct (TimersFacts.fire_active first h tb tm Hok Hfind) as (v & Hv & Hfire).
  destruct (Timers.ok_envs _ _ Hok _ _ Hv) as [Hto Hiv].
  eexists v, _. split; [done|]. split; [exact Hfire|].
  split; [done|]. split; [done|].
  assert (Hgone : ∀ k, k < 2 →
            Timers.find (first + 2 * Timers.closure tm + k)
              (Timers.set_active
                 (filter (λ x, Timers.closure x ≠ Timers.closure tm)
                         (Timers.active tb)) tb) = None).
  { intros k Hk.
    destruct (Timers.find (first + 2 * Timers.closure tm + k)
                (Timers.set_active
                   (filter (λ x, Timers.closure x ≠ Timers.closure tm)
                           (Timers.active tb)) tb)) as [x|] eqn:E; [|done].
    exfalso.
    apply TimersFacts.find_Some in E as [Hin Hx]. simpl in Hin.
    apply list_elem_of_filter in Hin as [Hne Hin].
    destruct (Timers.ok_active _ _ Hok x Hin) as [_ Hhx].
    apply Hne. destruct (Timers.repeating x); lia. }
  split_and!.
  - apply TimersFacts.fire_inactive.
    replace (first + 2 * Timers.closure tm)
      with (first + 2 * Timers.closure tm + 0) by lia.
    apply Hgone. lia.
  - apply TimersFacts.fire_inactive. apply Hgone. lia.
  - intros x Hx. simpl. rewrite list_elem_of_filter. tauto.
Qed.

(** [X13] The exported [asap] in its host, with a hook that returns or
    none: between two events the cursor is at 0, the host owes exactly
    one call of [flush] when tasks are queued and none when the queue is
    empty, and it owes one call of [throwFirstError] per queued error.
    No queued task or error is left without a request, and no request is
    made twice. *)
Theorem X13_host_owes_what_is_queued (first : nat) (w : World.world) :
  World.reachable first w →
  Asap.wf (World.sched w) ∧ index (World.sched w) = 0%Z ∧
  Timers.ok first (World.timers w) ∧
  World.outstanding cb_flush w
  = (if decide (queue (World.sched w) = []) then 0 else 1) ∧
  World.outstanding cb_throwFirstError w
  = length (Asap.pendingErrors (ext (World.sched w))).
Proof.
  intros Hr.
  by destruct (WorldFacts.reachable_settled first w Hr).
Qed.

(** [X14] When a timer armed for [flush] comes due, be it the timeout or
    the interval, the flush returns having run every task given to
    [asap] so far; the queue is empty and the host owes no flush. *)
Theorem X14_due_flush_timer_runs_every_task
    (first : nat) (w : World.world) (tm : Timers.timer) :
  World.reachable first w →
  tm ∈ Timers.active (World.timers w) →
  Timers.callback_of <$> Timers.envs (World.timers w) !! Timers.closure tm
  = Some cb_flush →
  ∃ w',
    World.timer_fires (Timers.handle tm) w = Some (w', Returned) ∧
    World.reachable first w' ∧
    queue (World.sched w') = [] ∧
    Asap.task_log (ext (World.sched w')) = Asap.asap_log (ext (World.sched w')) ∧
    World.outstanding cb_flush w' = 0.
Proof.
  intros Hr Hin Hcb.
  pose proof (WorldFacts.reachable_settled first w Hr) as Hs.
  destruct (WorldFacts.timer_fires_member first w tm cb_flush Hs Hin Hcb)
    as (w' & r & Hf & Hs' & -> & Hq & Hl).
  exists w'. split_and!; try done.
  - destruct Hr as [scope Hr]. exists scope.
    eapply rtc_r; [exact Hr|]. by eapply World.event_timer.
  - rewrite (World.settled_flush _ _ Hs'), Hq. done.
Qed.

(** [X15] The observer is only ever notified for [flush]; when it is,
    the flush returns having run every task given to [asap] so far. *)
Theorem X15_notified_observer_runs_every_task
    (first : nat) (w : World.world) (cb : callback) :
  World.reachable first w →
  World.observed w = Some cb →
  cb = cb_flush ∧
  ∃ w',
    World.observer_notified w = Some (w', Returned) ∧
    World.reachable first w' ∧
    queue (World.sched w') = [] ∧
    Asap.task_log (ext (World.sched w')) = Asap.asap_log (ext (World.sched w')) ∧
    World.observed w' = None.
Proof.
  intros Hr Ho.
  pose proof (WorldFacts.reachable_settled first w Hr) as Hs.
  assert (cb = cb_flush) as ->.
  { destruct (World.settled_observed _ _ Hs); congruence. }
  split; [done|].
  destruct (WorldFacts.observer_notified_flushes first w Hs Ho)
    as (w' & Hf & Hs' & Hq & Hl).
  exists w'. split_and!; try done.
  - destruct Hr as [scope Hr]. exists scope.
    eapply rtc_r; [exact Hr|]. by eapply World.event_observer.
  - pose proof (World.settled_flush _ _ Hs') as Hfl.
    rewrite Hq in Hfl. unfold World.outstanding in Hfl. simpl in Hfl.
    destruct (World.settled_observed _ _ Hs') as [E|E]; [done|].
    rewrite E in Hfl.
    destruct (decide (Some cb_flush = Some cb_flush)); [lia|done].
Qed.

(** [X16] When a timer armed for [throwFirstError] comes due, the oldest
    queued error is thrown to the host and taken off the queue; the
    errors still queued keep their requests. *)
Theorem X16_due_error_timer_throws_the_oldest_error
    (first : nat) (w : World.world) (tm : Timers.timer) :
  World.reachable first w →
  tm ∈ Timers.active (World.timers w) →
  Timers.callback_of <$> Timers.envs (World.timers w) !! Timers.closure tm
  = Some cb_throwFirstError →
  ∃ w' e es,
    World.timer_fires (Timers.handle tm) w = Some (w', Threw e) ∧
    World.reachable first w' ∧
    Asap.pendingErrors (ext (World.sched w)) = e :: es ∧
    Asap.pendingErrors (ext (World.sched w')) = es ∧
    World.outstanding cb_throwFirstError w' = length es.
Proof.
  intros Hr Hin Hcb.
  pose proof (WorldFacts.reachable_settled first w Hr) as Hs.
  destruct (WorldFacts.timer_fires_member first w tm cb_throwFirstError
              Hs Hin Hcb) as (w' & r & Hf & Hs' & e & es & -> & Hp & Hp').
  exists w', e, es. split_and!; try done.
  - destruct Hr as [scope Hr]. exists scope.
    eapply rtc_r; [exact Hr|]. by eapply World.event_timer.
  - by rewrite (World.settled_errors _ _ Hs'), Hp'.
Qed.

(** [X17] Nothing queued is stranded.  Whenever tasks are queued, an
    event the host owes (the interval of the flush request coming due,
    or the observer's notification) runs them all; whenever errors are
    queued, a timer is armed whose coming due throws the oldest of
    them. *)
Theorem X17_nothing_queued_is_stranded (first : nat) (w : World.world) :
  World.reachable first w →
  (queue (World.sched w) ≠ [] →
   ∃ w', World.event w w' ∧ queue (World.sched w') = [] ∧
         Asap.task_log (ext (World.sched w'))
         = Asap.asap_log (ext (World.sched w'))) ∧
  (∀ e es, Asap.pendingErrors (ext (World.sched w)) = e :: es →
   ∃ h w', World.timer_fires h w = Some (w', Threw e) ∧
           Asap.pendingErrors (ext (World.sched w')) = es).
Proof.
  intros Hr. pose proof (WorldFacts.reachable_settled first w Hr) as Hs.
  split.
  - intros Hq. pose proof (World.settled_flush _ _ Hs) as Hfl.
    destruct (decide (queue (World.sched w) = [])); [done|].
    destruct (WorldFacts.outstanding_pos cb_flush w) as [Ho|(tm & Hin & Hcb)];
      [lia| |].
    + destruct (WorldFacts.observer_notified_flushes first w Hs Ho)
        as (w' & Hf & _ & Hq' & Hl).
      exists w'. split; [by eapply World.event_observer|done].
    + destruct (WorldFacts.timer_fires_member first w tm cb_flush Hs Hin Hcb)
        as (w' & r & Hf & _ & _ & Hq' & Hl).
      exists w'. split; [by eapply World.event_timer|done].
  - intros e es Hp. pose proof (World.settled_errors _ _ Hs) as Her.
    rewrite Hp in Her. simpl in Her.
    destruct (WorldFacts.outstanding_pos cb_throwFirstError w)
      as [Ho|(tm & Hin & Hcb)]; [lia| |].
    + destruct (World.settled_observed _ _ Hs); congruence.
    + destruct (WorldFacts.timer_fires_member first w tm cb_throwFirstError
                  Hs Hin Hcb) as (w' & r & Hf & _ & e' & es' & -> & Hp1 & Hp2).
      rewrite Hp in Hp1. injection Hp1 as <- <-.
      by exists (Timers.handle tm), w'.
Qed.

(** ** Instances of the further theorems *)

Lemma X1_flush_after_flush_is_a_no_op_witness :
  ∃ st', flush_loop RawTasks.call_task 2 raw_AC = Some (st', Returned) ∧
         flush_loop RawTasks.call_task 0 st' = Some (st', Returned).
Proof.
  destruct (flush_loop RawTasks.call_task 2 raw_AC) as [[st' [|e]]|] eqn:Hf;
    [|vm_compute in Hf; discriminate..].
  exists st'. split; [reflexivity|].
  apply (X1_flush_after_flush_is_a_no_op RawTasks.call_task 2 0 raw_AC st' Hf).
Defined.

Lemma X2_raw_flush_runs_first_in_first_out_witness :
  RawTasks.reachable raw_AC ∧
  ∃ st', RawTasks.flush raw_AC = Some (st', Returned) ∧
         called st' = scheduled st'.
Proof.
  assert (Hr : RawTasks.reachable raw_AC).
  { exists sample_scope. apply RawTasksFacts.rawAsap_all_steps. }
  split; [exact Hr|].
  destruct (RawTasks.flush raw_AC) as [[st' [|e]]|] eqn:Hf;
    [|vm_compute in Hf; discriminate..].
  exists st'. split; [reflexivity|].
  destruct (X2_raw_flush_runs_first_in_first_out raw_AC st' Hr Hf)
    as (newly & _ & _ & H).
  exact H.
Defined.

Lemma X3_raw_flush_asks_nothing_of_the_host_witness :
  RawTasks.reachable raw_ABC ∧
  ∃ st' r, RawTasks.flush raw_ABC = Some (st', r) ∧ host st' = host raw_ABC.
Proof.
  assert (Hr : RawTasks.reachable raw_ABC).
  { exists sample_scope. apply RawTasksFacts.rawAsap_all_steps. }
  split; [exact Hr|].
  destruct (RawTasks.flush raw_ABC) as [[st' r]|] eqn:Hf;
    [|vm_compute in Hf; discriminate].
  exists st', r. split; [reflexivity|].
  apply (X3_raw_flush_asks_nothing_of_the_host raw_ABC st' r Hr Hf).
Defined.

Lemma X4_turn_bounds_cursor_unless_it_throws_witness :
  (0 ≤ index raw_AC ≤ capacity raw_AC)%Z ∧
  (index raw_AC < queue_length raw_AC)%Z ∧
  ∃ st', flush_body RawTasks.call_task raw_AC = (st', Returned) ∧
         (0 ≤ index st' ≤ capacity st')%Z.
Proof.
  assert (H1 : (0 ≤ index raw_AC ≤ capacity raw_AC)%Z) by (by vm_compute).
  assert (H2 : (index raw_AC < queue_length raw_AC)%Z) by (by vm_compute).
  split; [exact H1|]. split; [exact H2|].
  destruct (flush_body RawTasks.call_task raw_AC) as [st' [|e]] eqn:Hb;
    [|vm_compute in Hb; discriminate].
  exists st'. split; [reflexivity|].
  apply (X4_turn_bounds_cursor_unless_it_throws raw_AC st' Returned H1 H2 Hb).
Defined.

Lemma X5_raw_strategy_is_fixed_witness :
  rtc RawTasks.step (RawTasks.init shadowed_scope)
      (rawAsap_all [task_A] (RawTasks.init shadowed_scope)) ∧
  requestFlush (rawAsap_all [task_A] (RawTasks.init shadowed_scope))
  = requestCall_timer cb_flush ∧
  capacity (rawAsap_all [task_A] (RawTasks.init shadowed_scope)) = 1024%Z.
Proof.
  assert (Hr : rtc RawTasks.step (RawTasks.init shadowed_scope)
                 (rawAsap_all [task_A] (RawTasks.init shadowed_scope)))
    by apply RawTasksFacts.rawAsap_all_steps.
  split; [exact Hr|].
  destruct (X5_raw_strategy_is_fixed shadowed_scope _ Hr) as (Hs & _ & Hc).
  split; [exact Hs|exact Hc].
Defined.

Lemma X6_observer_toggle_alternates_witness :
  rtc RawTasks.step (RawTasks.init observer_scope)
      (rawAsap_all [task_A] (RawTasks.init observer_scope)) ∧
  node_data (host (rawAsap_all [task_A] (RawTasks.init observer_scope)))
  = [(-1)%Z].
Proof.
  assert (Hr : rtc RawTasks.step (RawTasks.init observer_scope)
                 (rawAsap_all [task_A] (RawTasks.init observer_scope)))
    by apply RawTasksFacts.rawAsap_all_steps.
  split; [exact Hr|].
  apply (X6_observer_toggle_alternates observer_scope _ Hr).
Defined.

Lemma X7_asap_takes_the_holder_freed_last_witness :
  Asap.wf_detached [] (Asap.init sample_scope) ∧
  ∃ h, queue (Asap.asap task_A (Asap.init sample_scope))
       = queue (Asap.init sample_scope) ++ [h] ∧
       Asap.bound (Asap.asap task_A (Asap.init sample_scope)) h = Some task_A.
Proof.
  assert (Hwf : Asap.wf_detached [] (Asap.init sample_scope))
    by apply AsapMore.wf_init.
  split; [exact Hwf|].
  destruct (X7_asap_takes_the_holder_freed_last [] task_A
              (Asap.init sample_scope) Hwf) as (h & Hq & _ & Hb & _).
  exists h. split; [exact Hq|exact Hb].
Defined.

Lemma X8_every_holder_is_pending_or_free_witness :
  Asap.reachable safe_B ∧
  length (Asap.holders (ext safe_B))
  = length (pending safe_B) + length (Asap.freeTasks (ext safe_B)).
Proof.
  assert (Hr : Asap.reachable safe_B).
  { exists sample_scope. apply rtc_once. apply Asap.host_asap. }
  split; [exact Hr|].
  apply (X8_every_holder_is_pending_or_free safe_B Hr).
Defined.

Lemma X9_hook_takes_the_errors_in_order_witness :
  Asap.wf hooked_BD ∧
  Asap.onerror (ext hooked_BD) = Some (λ _, Returned) ∧
  ∃ st' r run,
    Asap.flush hooked_BD = Some (st', r) ∧
    Asap.hook_log (ext st')
    = Asap.hook_log (ext hooked_BD) ++ Asap.errors_of run ∧
    Asap.pendingErrors (ext st') = Asap.pendingErrors (ext hooked_BD).
Proof.
  assert (Hwf : Asap.wf hooked_BD).
  { apply AsapMore.reachable_wf. exists sample_scope.
    eapply rtc_l; [apply (Asap.host_asap task_B)|].
    eapply rtc_l; [apply (Asap.host_asap task_D)|].
    apply rtc_once. apply (Asap.host_set_onerror (Some (λ _, Returned))). }
  assert (Hh : Asap.onerror (ext hooked_BD) = Some (λ _, Returned))
    by reflexivity.
  split; [exact Hwf|]. split; [exact Hh|].
  destruct (Asap.flush hooked_BD) as [[st' r]|] eqn:Hf;
    [|vm_compute in Hf; discriminate].
  destruct (X9_hook_takes_the_errors_in_order hooked_BD st' r _ Hwf Hh Hf)
    as (run & _ & Hhl & Hpe & _).
  exists st', r, run. split; [reflexivity|]. split; [exact Hhl|exact Hpe].
Defined.


Lemma X11_timer_request_is_served_once_witness :
  NoDup (Timers.run [Timers.Request cb_flush; Timers.Lose 0;
                     Timers.Fire 1; Timers.Fire 1]
                    (Timers.empty 0, [])).2.
Proof.
  apply (X11_timer_request_is_served_once 0
           [Timers.Request cb_flush; Timers.Lose 0;
            Timers.Fire 1; Timers.Fire 1]).
Defined.

Lemma X12_first_timer_cancels_both_witness :
  Timers.ok 0 table_flush ∧
  Timers.find 0 table_flush = Some (Timers.mkTimer 0 false 0 0) ∧
  ∃ v tb',
    Timers.fire 0 table_flush = (tb', Some (Timers.callback_of v)) ∧
    Timers.fire 1 tb' = (tb', None).
Proof.
  assert (Hok : Timers.ok 0 table_flush).
  { apply TimersFacts.requestCall_ok, TimersFacts.ok_empty. }
  assert (Hf : Timers.find 0 table_flush = Some (Timers.mkTimer 0 false 0 0))
    by reflexivity.
  split; [exact Hok|]. split; [exact Hf|].
  destruct (X12_first_timer_cancels_both 0 0 table_flush _ Hok Hf)
    as (v & tb' & _ & Hfire & _ & _ & _ & Hsecond & _).
  exists v, tb'. split; [exact Hfire|exact Hsecond].
Defined.

Lemma X13_host_owes_what_is_queued_witness :
  World.reachable 0 world_A ∧
  World.outstanding cb_flush world_A
  = (if decide (queue (World.sched world_A) = []) then 0 else 1).
Proof.
  assert (Hr : World.reachable 0 world_A).
  { exists sample_scope. apply rtc_once. apply World.event_asap. }
  split; [exact Hr|].
  apply (X13_host_owes_what_is_queued 0 world_A Hr).
Defined.

Lemma X14_due_flush_timer_runs_every_task_witness :
  World.reachable 0 world_A ∧
  Timers.mkTimer 1 true 50 0 ∈ Timers.active (World.timers world_A) ∧
  Timers.callback_of <$> Timers.envs (World.timers world_A) !! 0 = Some cb_flush ∧
  ∃ w', World.timer_fires 1 world_A = Some (w', Returned) ∧
        queue (World.sched w') = [].
Proof.
  assert (Hr : World.reachable 0 world_A).
  { exists sample_scope. apply rtc_once. apply World.event_asap. }
  assert (Hin : Timers.mkTimer 1 true 50 0 ∈ Timers.active (World.timers world_A)).
  { vm_compute. repeat constructor. }
  assert (Hcb : Timers.callback_of <$> Timers.envs (World.timers world_A) !! 0
                = Some cb_flush) by reflexivity.
  split; [exact Hr|]. split; [exact Hin|]. split; [exact Hcb|].
  destruct (X14_due_flush_timer_runs_every_task 0 world_A _ Hr Hin Hcb)
    as (w' & Hf & _ & Hq & _).
  exists w'. split; [exact Hf|exact Hq].
Defined.

Lemma X15_notified_observer_runs_every_task_witness :
  World.reachable 0 world_observed_A ∧
  World.observed world_observed_A = Some cb_flush ∧
  ∃ w', World.observer_notified world_observed_A = Some (w', Returned) ∧
        queue (World.sched w') = [].
Proof.
  assert (Hr : World.reachable 0 world_observed_A).
  { exists observer_scope. apply rtc_once. apply World.event_asap. }
  assert (Ho : World.observed world_observed_A = Some cb_flush) by reflexivity.
  split; [exact Hr|]. split; [exact Ho|].
  destruct (X15_notified_observer_runs_every_task 0 world_observed_A _ Hr Ho)
    as (_ & w' & Hf & _ & Hq & _).
  exists w'. split; [exact Hf|exact Hq].
Defined.

Lemma X16_due_error_timer_throws_the_oldest_error_witness :
  World.reachable 0 world_B_flushed ∧
  Timers.mkTimer 3 true 50 1 ∈ Timers.active (World.timers world_B_flushed) ∧
  Timers.callback_of <$> Timers.envs (World.timers world_B_flushed) !! 1
  = Some cb_throwFirstError ∧
  ∃ w' e es,
    World.timer_fires 3 world_B_flushed = Some (w', Threw e) ∧
    Asap.pendingErrors (ext (World.sched world_B_flushed)) = e :: es.
Proof.
  assert (Hr : World.reachable 0 world_B_flushed).
  { exists sample_scope.
    eapply rtc_l; [apply (World.event_asap task_B)|].
    apply rtc_once. apply (World.event_timer 1 _ _ Returned).
    vm_compute. reflexivity. }
  assert (Hin : Timers.mkTimer 3 true 50 1
                ∈ Timers.active (World.timers world_B_flushed)).
  { vm_compute. repeat constructor. }
  assert (Hcb : Timers.callback_of
                  <$> Timers.envs (World.timers world_B_flushed) !! 1
                = Some cb_throwFirstError) by (vm_compute; reflexivity).
  split; [exact Hr|]. split; [exact Hin|]. split; [exact Hcb|].
  destruct (X16_due_error_timer_throws_the_oldest_error 0 world_B_flushed _
              Hr Hin Hcb) as (w' & e & es & Hf & _ & Hp & _).
  exists w', e, es. split; [exact Hf|exact Hp].
Defined.

Lemma X17_nothing_queued_is_stranded_witness :
  World.reachable 0 world_A ∧
  queue (World.sched world_A) ≠ [] ∧
  ∃ w', World.event world_A w' ∧ queue (World.sched w') = [].
Proof.
  assert (Hr : World.reachable 0 world_A).
  { exists sample_scope. apply rtc_once. apply World.event_asap. }
  assert (Hq : queue (World.sched world_A) ≠ []) by (vm_compute; discriminate).
  split; [exact Hr|]. split; [exact Hq|].
  destruct (X17_nothing_queued_is_stranded 0 world_A Hr) as [Hrun _].
  destruct (Hrun Hq) as (w' & Hev & Hq' & _).
  exists w'. split; [exact Hev|exact Hq'].
Defined.
